(** * Subtask codec, subtask tree operations, progress aggregation and
      schedule extraction of the goal planner

    The development embeds the helper functions of
    [client/src/pages/Goals.jsx] (description codec, subtask tree edits,
    task and goal progress) and the schedule extraction of the planning
    controller ([finalizePlan]), and states the properties of the
    specification over these embeddings.  It also embeds the subtask
    editor of the task and goal forms, what the forms submit, the
    creation of a goal with its first task, the task count of a goal card
    and the days left to a due date, and proves how the tree operations
    compose and what the progress figures can show.

    Conventions of the embedding:
    - a JavaScript string is a [string] (a sequence of 8-bit characters,
      holding UTF-8 for text outside ASCII);
    - the values that [JSON.parse] can produce are the type [json]; an
      object is the list of its members in order, and reading a property
      takes the last member with that key, as a later duplicate key
      overrides an earlier one;
    - [null] is [None] where a function takes or returns [string | null];
    - a subtask node, as the editors create it
      ([{ id, title, completed, children }]), is the record [SubtaskNode];
    - numbers computed by [/] and [*] are IEEE 754 binary64 values
      ([spec_float] with precision 53 and maximal exponent 1024). *)

From Stdlib Require Import List String Ascii ZArith NArith Lia Bool Arith.
From Stdlib Require Import SpecFloat.
Import ListNotations.

(** ** Characters and texts *)

Definition dquote : ascii := "034"%char.
Definition backslash : ascii := "\"%char.

(** [qq s] is [s] with every apostrophe replaced by a double quote; it is
    used to write JSON texts readably. *)
Fixpoint qq (s : string) : string :=
  match s with
  | EmptyString => EmptyString
  | String c s' => String (if Ascii.eqb c "'"%char then dquote else c) (qq s')
  end.

Definition chars (s : string) : list ascii := list_ascii_of_string s.
Definition text_of (cs : list ascii) : string := string_of_list_ascii cs.

(** ** JSON values, [JSON.stringify] and [JSON.parse] *)

(** A number is kept as the decimal [m * 10^e] that its literal denotes;
    it is not converted to a double. *)
#[warnings="-register-all"]
Inductive json : Type :=
| JNull
| JBool (b : bool)
| JNum (m e : Z)
| JStr (s : string)
| JArr (items : list json)
| JObj (members : list (string * json)).

(** Property read [o.k] on the members of an object: the last member named
    [k]; [None] is [undefined]. *)
Fixpoint get (k : string) (ms : list (string * json)) : option json :=
  match ms with
  | [] => None
  | (k', v) :: ms' =>
      match get k ms' with
      | Some v' => Some v'
      | None => if String.eqb k k' then Some v else None
      end
  end.

(** [v.k] for a parsed value [v]: only objects carry the properties read
    here. *)
Definition prop (v : json) (k : string) : option json :=
  match v with
  | JObj ms => get k ms
  | _ => None
  end.

(** JavaScript truthiness of a parsed value.  A number is falsy when it
    is zero as a double: when its literal denotes zero, or a value so
    small that it rounds to zero, which are those of magnitude at most
    [2^-1075], half the least positive double. *)
Definition truthy (v : json) : bool :=
  match v with
  | JNull => false
  | JBool b => b
  | JNum m e =>
      negb (Z.eqb m 0)
      && (Z.leb 0 e || Z.ltb (10 ^ (- e)) (Z.abs m * 2 ^ 1075))
  | JStr s => negb (String.eqb s "")
  | JArr _ => true
  | JObj _ => true
  end.

Module JSON.

Definition hex_char (n : nat) : ascii :=
  nth n (chars "0123456789abcdef") "0"%char.

(** QuoteJSONString, one character at a time. *)
Definition escape_char (c : ascii) : list ascii :=
  let n := nat_of_ascii c in
  if Ascii.eqb c dquote then [backslash; dquote]
  else if Ascii.eqb c backslash then [backslash; backslash]
  else if Nat.eqb n 8 then [backslash; "b"%char]
  else if Nat.eqb n 9 then [backslash; "t"%char]
  else if Nat.eqb n 10 then [backslash; "n"%char]
  else if Nat.eqb n 12 then [backslash; "f"%char]
  else if Nat.eqb n 13 then [backslash; "r"%char]
  else if Nat.ltb n 32 then
    [backslash; "u"%char; "0"%char; "0"%char;
     hex_char (n / 16); hex_char (n mod 16)]
  else [c].

Definition quote (s : string) : list ascii :=
  dquote :: flat_map escape_char (chars s) ++ [dquote].

Fixpoint digits_of_pos_fuel (fuel : nat) (n : N) (acc : list ascii) : list ascii :=
  match fuel with
  | O => acc
  | S fuel' =>
      let d := ascii_of_N (48 + n mod 10) in
      if N.ltb n 10 then d :: acc
      else digits_of_pos_fuel fuel' (n / 10) (d :: acc)
  end.

(** Decimal digits of a natural number, most significant first. *)
Definition digits_of_N (n : N) : list ascii :=
  digits_of_pos_fuel (S (N.to_nat (N.log2 n))) n [].

Definition digits_of_Z (z : Z) : list ascii :=
  if Z.ltb z 0 then "-"%char :: digits_of_N (Z.abs_N z)
  else digits_of_N (Z.abs_N z).

Definition number_text (m e : Z) : list ascii :=
  if Z.eqb e 0 then digits_of_Z m
  else digits_of_Z m ++ "e"%char :: digits_of_Z e.

(** [JSON.stringify] without indentation. *)
Fixpoint stringify_chars (v : json) : list ascii :=
  match v with
  | JNull => chars "null"
  | JBool true => chars "true"
  | JBool false => chars "false"
  | JNum m e => number_text m e
  | JStr s => quote s
  | JArr vs =>
      "["%char ::
      (fix items (vs : list json) : list ascii :=
         match vs with
         | [] => []
         | v :: vs' =>
             stringify_chars v ++
             match vs' with
             | [] => []
             | _ :: _ => ","%char :: items vs'
             end
         end) vs ++ ["]"%char]
  | JObj ms =>
      "{"%char ::
      (fix fields (ms : list (string * json)) : list ascii :=
         match ms with
         | [] => []
         | (k, v) :: ms' =>
             quote k ++ ":"%char :: stringify_chars v ++
             match ms' with
             | [] => []
             | _ :: _ => ","%char :: fields ms'
             end
         end) ms ++ ["}"%char]
  end.

Definition stringify (v : json) : string := text_of (stringify_chars v).

(** *** The parser *)

Definition is_ws (c : ascii) : bool :=
  let n := nat_of_ascii c in
  Nat.eqb n 32 || Nat.eqb n 9 || Nat.eqb n 10 || Nat.eqb n 13.

Fixpoint skip_ws (cs : list ascii) : list ascii :=
  match cs with
  | c :: cs' => if is_ws c then skip_ws cs' else cs
  | [] => []
  end.

Definition is_digit (c : ascii) : bool :=
  let n := nat_of_ascii c in Nat.leb 48 n && Nat.leb n 57.

Definition digit_val (c : ascii) : Z := Z.of_nat (nat_of_ascii c) - 48.

Definition hex_val (c : ascii) : option nat :=
  let n := nat_of_ascii c in
  if Nat.leb 48 n && Nat.leb n 57 then Some (n - 48)
  else if Nat.leb 97 n && Nat.leb n 102 then Some (n - 87)
  else if Nat.leb 65 n && Nat.leb n 70 then Some (n - 55)
  else None.

Definition hex4 (a b c d : ascii) : option nat :=
  match hex_val a, hex_val b, hex_val c, hex_val d with
  | Some x, Some y, Some z, Some w => Some (((x * 16 + y) * 16 + z) * 16 + w)
  | _, _, _, _ => None
  end.

(** The UTF-8 bytes of the code unit [n < 65536] of a [\u] escape. *)
Definition utf8 (n : nat) : list ascii :=
  if Nat.ltb n 128 then [ascii_of_nat n]
  else if Nat.ltb n 2048 then
    [ascii_of_nat (192 + n / 64); ascii_of_nat (128 + n mod 64)]
  else
    [ascii_of_nat (224 + n / 4096); ascii_of_nat (128 + (n / 64) mod 64);
     ascii_of_nat (128 + n mod 64)].

Definition unescape (c : ascii) : option ascii :=
  if Ascii.eqb c dquote then Some dquote
  else if Ascii.eqb c backslash then Some backslash
  else if Ascii.eqb c "/"%char then Some "/"%char
  else if Ascii.eqb c "b"%char then Some (ascii_of_nat 8)
  else if Ascii.eqb c "f"%char then Some (ascii_of_nat 12)
  else if Ascii.eqb c "n"%char then Some (ascii_of_nat 10)
  else if Ascii.eqb c "r"%char then Some (ascii_of_nat 13)
  else if Ascii.eqb c "t"%char then Some (ascii_of_nat 9)
  else None.

Definition prepend (p : list ascii) (r : option (list ascii * list ascii))
  : option (list ascii * list ascii) :=
  match r with
  | Some (s, rest) => Some (p ++ s, rest)
  | None => None
  end.

(** The UTF-8 bytes of the code point that the surrogate pair [hi], [lo]
    denotes. *)
Definition utf8_pair (hi lo : nat) : list ascii :=
  let cp := (65536 + (N.of_nat hi - 55296) * 1024 + (N.of_nat lo - 56320))%N in
  [ascii_of_N (240 + cp / 262144); ascii_of_N (128 + (cp / 4096) mod 64);
   ascii_of_N (128 + (cp / 64) mod 64); ascii_of_N (128 + cp mod 64)]%N.

Definition is_high_surrogate (n : nat) : bool :=
  (N.leb 55296 (N.of_nat n) && N.ltb (N.of_nat n) 56320)%N.

Definition is_low_surrogate (n : nat) : bool :=
  (N.leb 56320 (N.of_nat n) && N.ltb (N.of_nat n) 57344)%N.

(** The characters of a string literal after its opening quote, up to and
    including the closing quote: the decoded contents and what follows.
    A [\u] escape of a high surrogate followed by a [\u] escape of a low
    surrogate is the one code point of the pair. *)
Fixpoint parse_string_body (cs : list ascii) : option (list ascii * list ascii) :=
  match cs with
  | [] => None
  | c :: cs' =>
      if Ascii.eqb c dquote then Some ([], cs')
      else if Ascii.eqb c backslash then
        match cs' with
        | [] => None
        | x :: cs'' =>
            if Ascii.eqb x "u"%char then
              match cs'' with
              | h1 :: h2 :: h3 :: h4 :: cs3 =>
                  match hex4 h1 h2 h3 h4 with
                  | Some n =>
                      if is_high_surrogate n then
                        match cs3 with
                        | b :: u :: g1 :: g2 :: g3 :: g4 :: cs4 =>
                            match hex4 g1 g2 g3 g4 with
                            | Some n' =>
                                if Ascii.eqb b backslash && Ascii.eqb u "u"%char
                                   && is_low_surrogate n'
                                then prepend (utf8_pair n n') (parse_string_body cs4)
                                else prepend (utf8 n) (parse_string_body cs3)
                            | None => prepend (utf8 n) (parse_string_body cs3)
                            end
                        | _ => prepend (utf8 n) (parse_string_body cs3)
                        end
                      else prepend (utf8 n) (parse_string_body cs3)
                  | None => None
                  end
              | _ => None
              end
            else
              match unescape x with
              | Some y => prepend [y] (parse_string_body cs'')
              | None => None
              end
        end
      else if Nat.ltb (nat_of_ascii c) 32 then None
      else prepend [c] (parse_string_body cs')
  end.

Fixpoint span_digits (cs : list ascii) : list ascii * list ascii :=
  match cs with
  | c :: cs' =>
      if is_digit c then let (ds, r) := span_digits cs' in (c :: ds, r)
      else ([], cs)
  | [] => ([], [])
  end.

Definition digits_val (ds : list ascii) : Z :=
  fold_left (fun acc d => 10 * acc + digit_val d)%Z ds 0%Z.

Definition starts_with_zero (ds : list ascii) : bool :=
  match ds with
  | c :: _ :: _ => Ascii.eqb c "0"%char
  | _ => false
  end.

(** The optional fraction of a number literal: its digits. *)
Definition parse_frac (cs : list ascii) : option (list ascii * list ascii) :=
  match cs with
  | c :: r =>
      if Ascii.eqb c "."%char then
        let (fs, r') := span_digits r in
        match fs with [] => None | _ :: _ => Some (fs, r') end
      else Some ([], cs)
  | [] => Some ([], cs)
  end.

(** The optional exponent of a number literal: its value. *)
Definition parse_exp (cs : list ascii) : option (Z * list ascii) :=
  match cs with
  | c :: r =>
      if Ascii.eqb c "e"%char || Ascii.eqb c "E"%char then
        let (eneg, r1) :=
          match r with
          | s :: r' =>
              if Ascii.eqb s "-"%char then (true, r')
              else if Ascii.eqb s "+"%char then (false, r')
              else (false, r)
          | [] => (false, r)
          end in
        let (es, r2) := span_digits r1 in
        match es with
        | [] => None
        | _ :: _ => Some (if eneg then (- digits_val es)%Z else digits_val es, r2)
        end
      else Some (0%Z, cs)
  | [] => Some (0%Z, cs)
  end.

(** A number literal: [-? int frac? exp?]. *)
Definition parse_number (cs : list ascii) : option (json * list ascii) :=
  let (neg, cs1) :=
    match cs with
    | c :: r => if Ascii.eqb c "-"%char then (true, r) else (false, cs)
    | [] => (false, cs)
    end in
  let (ds, cs2) := span_digits cs1 in
  if match ds with [] => true | _ :: _ => starts_with_zero ds end then None
  else
    match parse_frac cs2 with
    | None => None
    | Some (fs, cs3) =>
        match parse_exp cs3 with
        | None => None
        | Some (ex, cs4) =>
            let m := digits_val (ds ++ fs) in
            Some (JNum (if neg then (- m)%Z else m)
                       (ex - Z.of_nat (List.length fs))%Z, cs4)
        end
    end.

Fixpoint strip_prefix (p cs : list ascii) : option (list ascii) :=
  match p, cs with
  | [], _ => Some cs
  | a :: p', c :: cs' => if Ascii.eqb a c then strip_prefix p' cs' else None
  | _ :: _, [] => None
  end.

Definition parse_literal (cs : list ascii) : option (json * list ascii) :=
  match strip_prefix (chars "null") cs with
  | Some r => Some (JNull, r)
  | None =>
      match strip_prefix (chars "true") cs with
      | Some r => Some (JBool true, r)
      | None =>
          match strip_prefix (chars "false") cs with
          | Some r => Some (JBool false, r)
          | None => parse_number cs
          end
      end
  end.

(** Recursive descent over values, array elements and object members.  The
    fuel bounds the depth of the calls; [parse] supplies more than any text
    can use. *)
Fixpoint parse_value (fuel : nat) (cs : list ascii) {struct fuel}
  : option (json * list ascii) :=
  match fuel with
  | O => None
  | S fuel' =>
      match skip_ws cs with
      | [] => None
      | c :: r =>
          if Ascii.eqb c dquote then
            match parse_string_body r with
            | Some (s, r') => Some (JStr (text_of s), r')
            | None => None
            end
          else if Ascii.eqb c "["%char then
            match skip_ws r with
            | [] => None
            | c' :: r' =>
                if Ascii.eqb c' "]"%char then Some (JArr [], r')
                else
                  match parse_elements fuel' (c' :: r') with
                  | Some (vs, r'') => Some (JArr vs, r'')
                  | None => None
                  end
            end
          else if Ascii.eqb c "{"%char then
            match skip_ws r with
            | [] => None
            | c' :: r' =>
                if Ascii.eqb c' "}"%char then Some (JObj [], r')
                else
                  match parse_members fuel' (c' :: r') with
                  | Some (ms, r'') => Some (JObj ms, r'')
                  | None => None
                  end
            end
          else parse_literal (c :: r)
      end
  end

with parse_elements (fuel : nat) (cs : list ascii) {struct fuel}
  : option (list json * list ascii) :=
  match fuel with
  | O => None
  | S fuel' =>
      match parse_value fuel' cs with
      | None => None
      | Some (v, r) =>
          match skip_ws r with
          | [] => None
          | c :: r' =>
              if Ascii.eqb c ","%char then
                match parse_elements fuel' r' with
                | Some (vs, r'') => Some (v :: vs, r'')
                | None => None
                end
              else if Ascii.eqb c "]"%char then Some ([v], r')
              else None
          end
      end
  end

with parse_members (fuel : nat) (cs : list ascii) {struct fuel}
  : option (list (string * json) * list ascii) :=
  match fuel with
  | O => None
  | S fuel' =>
      match skip_ws cs with
      | [] => None
      | q :: r0 =>
          if Ascii.eqb q dquote then
            match parse_string_body r0 with
            | None => None
            | Some (k, r1) =>
                match skip_ws r1 with
                | [] => None
                | c1 :: r2 =>
                    if Ascii.eqb c1 ":"%char then
                      match parse_value fuel' r2 with
                      | None => None
                      | Some (v, r3) =>
                          match skip_ws r3 with
                          | [] => None
                          | c :: r4 =>
                              if Ascii.eqb c ","%char then
                                match parse_members fuel' r4 with
                                | Some (ms, r5) => Some ((text_of k, v) :: ms, r5)
                                | None => None
                                end
                              else if Ascii.eqb c "}"%char then
                                Some ([(text_of k, v)], r4)
                              else None
                          end
                      end
                    else None
                end
            end
          else None
      end
  end.

(** [JSON.parse]: [None] is the SyntaxError. *)
Definition parse (s : string) : option json :=
  let cs := chars s in
  match parse_value (2 * List.length cs + 2) cs with
  | Some (v, r) => match skip_ws r with [] => Some v | _ :: _ => None end
  | None => None
  end.

End JSON.

(** ** Subtask nodes *)

(** The node objects the task forms create:
    [{ id: uid(), title, completed: false, children: [] }]. *)
#[warnings="-register-all"]
Inductive SubtaskNode : Type :=
  mkSub { id : string;
          title : string;
          completed : bool;
          children : list SubtaskNode }.

(** The object a node is, with its properties in creation order; this is
    what [JSON.stringify] sees. *)
Fixpoint node_to_json (s : SubtaskNode) : json :=
  match s with
  | mkSub i t c cs =>
      JObj [("id"%string, JStr i); ("title"%string, JStr t);
            ("completed"%string, JBool c);
            ("children"%string, JArr (map node_to_json cs))]
  end.

Definition string_prop (k : string) (ms : list (string * json)) : string :=
  match get k ms with
  | Some (JStr s) => s
  | _ => EmptyString
  end.

Definition truthy_prop (k : string) (ms : list (string * json)) : bool :=
  match get k ms with
  | Some v => truthy v
  | None => false
  end.

(** A parsed value read as a node, the way the helpers below read one:
    [s.id] and [s.title] as strings, [s.completed] by its truthiness and
    [s.children] when it is an array (the last member so named).  A value
    that is not an object has none of these properties.  This is what the
    helpers read on a tree of nodes, which is what the forms save.  On
    other stored values they differ: the helpers throw on a [null]
    element and on a [children] object with a [length] that cannot be
    iterated, and walk the characters of a [children] that is a string.
    Statements about descriptions of unknown origin are therefore made
    under [well_formed] below, which excludes these values. *)
Fixpoint as_node (v : json) : SubtaskNode :=
  match v with
  | JObj ms =>
      mkSub (string_prop "id" ms) (string_prop "title" ms)
            (truthy_prop "completed" ms)
            (match
                (fix kids (ms : list (string * json)) : option (list SubtaskNode) :=
                   match ms with
                   | [] => None
                   | (k, x) :: ms' =>
                       match kids ms' with
                       | Some r => Some r
                       | None =>
                           if String.eqb "children" k then
                             Some match x with
                                  | JArr xs => map as_node xs
                                  | _ => []
                                  end
                           else None
                       end
                   end) ms
              with
              | Some r => r
              | None => []
              end)
  | _ => mkSub EmptyString EmptyString false []
  end.

(** ** The description codec *)

Record ParsedDesc : Type := mkParsed { text : json; subtasks : list json }.

(** [parseDesc]: lines 9-13 of Goals.jsx. *)
Definition parseDesc (desc : option string) : ParsedDesc :=
  match desc with
  | None => mkParsed (JStr "") []
  | Some d =>
      if String.eqb d "" then mkParsed (JStr "") []
      else
        match JSON.parse d with
        | Some v =>
            match (if truthy v then prop v "subtasks" else None) with
            | Some (JArr l) =>
                mkParsed
                  match prop v "text" with
                  | Some t => if truthy t then t else JStr ""
                  | None => JStr ""
                  end l
            | _ => mkParsed (JStr d) []
            end
        | None => mkParsed (JStr d) []
        end
  end.

(** [encodeDesc]: lines 14-18 of Goals.jsx. *)
Definition encodeDesc (text : string) (subtasks : list SubtaskNode) : option string :=
  if Nat.eqb (List.length subtasks) 0 && String.eqb text "" then None
  else if Nat.eqb (List.length subtasks) 0 then Some text
  else Some (JSON.stringify
               (JObj [("text"%string, JStr (if String.eqb text "" then "" else text));
                      ("subtasks"%string, JArr (map node_to_json subtasks))])).

(** ** Subtask tree operations *)

(** [flattenSubs]: the node itself, then the flattened children, then the
    following siblings. *)
Fixpoint flattenSub (s : SubtaskNode) : list SubtaskNode :=
  match s with
  | mkSub _ _ _ cs => s :: flat_map flattenSub cs
  end.

Definition flattenSubs (subs : list SubtaskNode) : list SubtaskNode :=
  flat_map flattenSub subs.

Definition countAllSubs (subs : list SubtaskNode) : nat :=
  List.length (flattenSubs subs).

Definition countCompletedSubs (subs : list SubtaskNode) : nat :=
  List.length (filter completed (flattenSubs subs)).

(** The callback of [subs.map] in [addChildSub]. *)
Fixpoint addChildSub_at (parentId : string) (child : SubtaskNode) (s : SubtaskNode)
  : SubtaskNode :=
  match s with
  | mkSub i t c cs =>
      if String.eqb i parentId then mkSub i t c (cs ++ [child])
      else
        match cs with
        | [] => s
        | _ :: _ => mkSub i t c (map (addChildSub_at parentId child) cs)
        end
  end.

Definition addChildSub (subs : list SubtaskNode) (parentId : string)
  (child : SubtaskNode) : list SubtaskNode :=
  map (addChildSub_at parentId child) subs.

(** [removeSubById]: the siblings named [i] are filtered out, the callback
    of [map] is applied to the others. *)
Fixpoint removeSub_at (i : string) (s : SubtaskNode) : SubtaskNode :=
  match s with
  | mkSub j t c cs =>
      match cs with
      | [] => s
      | _ :: _ =>
          mkSub j t c
            ((fix keep (l : list SubtaskNode) : list SubtaskNode :=
                match l with
                | [] => []
                | x :: l' =>
                    if negb (String.eqb (id x) i)
                    then removeSub_at i x :: keep l'
                    else keep l'
                end) cs)
      end
  end.

Definition removeSubById (subs : list SubtaskNode) (i : string) : list SubtaskNode :=
  map (removeSub_at i) (filter (fun s => negb (String.eqb (id s) i)) subs).

(** The callback of [subs.map] in [toggleSubById]. *)
Fixpoint toggleSub_at (i : string) (s : SubtaskNode) : SubtaskNode :=
  match s with
  | mkSub j t c cs =>
      if String.eqb j i then mkSub j t (negb c) cs
      else
        match cs with
        | [] => s
        | _ :: _ => mkSub j t c (map (toggleSub_at i) cs)
        end
  end.

Definition toggleSubById (subs : list SubtaskNode) (i : string) : list SubtaskNode :=
  map (toggleSub_at i) subs.

(** ** Progress *)

Inductive Status : Type := PENDING | IN_PROGRESS | COMPLETED.

Record Task : Type := mkTask { description : option string; status : Status }.
Record Milestone : Type := mkMilestone { tasks : option (list Task) }.
Record Goal : Type := mkGoal { milestones : option (list Milestone) }.

(** binary64 arithmetic. *)
Definition number : Type := spec_float.
Definition of_int (n : Z) : number := binary_normalize 53 1024 n 0 false.
Definition fdiv (x y : number) : number := SFdiv 53 1024 x y.
Definition fmul (x y : number) : number := SFmul 53 1024 x y.

Module Math.

(** [Math.round] of a finite number: the integer [floor (x + 1/2)].  Both
    calls below pass a number that is finite or zero; infinities and NaN
    have no integer and are given [0]. *)
Definition round (x : number) : Z :=
  match x with
  | S754_finite s m e =>
      let v := if s then Zneg m else Zpos m in
      match e with
      | Zneg k => ((v + 2 ^ (Zpos k - 1)) / 2 ^ Zpos k)%Z
      | _ => (v * 2 ^ e)%Z
      end
  | _ => 0%Z
  end.

End Math.

(** [taskProg]: lines 33-38 of Goals.jsx. *)
Definition taskProg (task : Task) : Z :=
  let subtasks := map as_node (subtasks (parseDesc (description task))) in
  let total := countAllSubs subtasks in
  if Nat.ltb 0 total then
    Math.round (fmul (fdiv (of_int (Z.of_nat (countCompletedSubs subtasks)))
                           (of_int (Z.of_nat total)))
                     (of_int 100))
  else
    match status task with
    | COMPLETED => 100%Z
    | IN_PROGRESS => 50%Z
    | PENDING => 0%Z
    end.

(** [allTasks]: [goal?.milestones?.flatMap(m => m.tasks || []) || []]. *)
Definition allTasks (goal : option Goal) : list Task :=
  match goal with
  | Some g =>
      match milestones g with
      | Some ms =>
          flat_map (fun m => match tasks m with Some ts => ts | None => [] end) ms
      | None => []
      end
  | None => []
  end.

(** [goalProg]: line 64 of Goals.jsx.  The sum of integers below 2^53 is
    exact, so it is taken in [Z] before the division. *)
Definition goalProg (goal : option Goal) : Z :=
  let t := allTasks goal in
  if negb (Nat.eqb (List.length t) 0) then
    Math.round (fdiv (of_int (fold_left (fun s tk => (s + taskProg tk)%Z) t 0%Z))
                     (of_int (Z.of_nat (List.length t))))
  else 0%Z.

(** ** Schedule extraction of the planning controller *)

Record Message : Type := mkMessage { role : string; content : string }.
Record Response : Type := mkResponse { code : nat; body : json }.

(** What awaiting the chat capability gives: the content, or a thrown
    error with its message. *)
Inductive Outcome : Type :=
| Returned (content : string)
| Thrown (message : string).

(** The longest prefix of [cs] that ends with a closing bracket. *)
Fixpoint upto_last_close (cs : list ascii) : option (list ascii) :=
  match cs with
  | [] => None
  | c :: cs' =>
      match upto_last_close cs' with
      | Some m => Some (c :: m)
      | None => if Ascii.eqb c "]"%char then Some [c] else None
      end
  end.

(** [content.match(/\[[\s\S]*\]/)]: the start positions are tried from the
    left; at an opening bracket the starred class takes as many characters
    as leave a closing bracket to end the match. *)
Fixpoint match_bracketed (cs : list ascii) : option (list ascii) :=
  match cs with
  | [] => None
  | c :: cs' =>
      if Ascii.eqb c "["%char then
        match upto_last_close cs' with
        | Some m => Some (c :: m)
        | None => match_bracketed cs'
        end
      else match_bracketed cs'
  end.

Definition systemPrompt : string := qq
"Based on the planning conversation, extract the final agreed-upon daily schedule for tomorrow.

Return ONLY a JSON array with the following structure (no other text, no markdown code blocks):
[
  {
    'title': 'Task title',
    'description': 'Brief actionable description of what to do during this block',
    'startTime': '09:00',
    'endTime': '10:30',
    'estimatedMins': 90
  }
]

Rules:
- 'title' is a short task name
- 'description' is a 1-2 sentence actionable instruction for the task
- 'startTime' and 'endTime' are in 24-hour 'HH:MM' format
- 'estimatedMins' is the duration in minutes as an integer
- Order tasks by startTime
- Include breaks if they were discussed".

(** The message appended to the conversation. *)
Definition extractionRequest : Message :=
  mkMessage "user"
    "Please extract the final daily schedule we agreed upon as a JSON array only, no other text.".

Definition parse_failure : Response :=
  mkResponse 500
    (JObj [("error"%string, JStr "Failed to parse schedule from AI response")]).

(** The [try] block of lines 152-166: the response sent for the content
    the chat capability returned. *)
Definition extractSchedule (content : string) : Response :=
  match match_bracketed (chars content) with
  | Some jsonMatch =>
      match JSON.parse (text_of jsonMatch) with
      | Some schedule => mkResponse 200 (JObj [("schedule"%string, schedule)])
      | None => parse_failure
      end
  | None => parse_failure
  end.

Section Planner.

Variable chatWithOllama : list Message -> string -> bool -> Outcome.

(** [finalizePlan]: lines 111-171 of the planning controller, on the
    [conversationHistory] of the request body. *)
Definition finalizePlan (conversationHistory : option (list Message)) : Response :=
  match conversationHistory with
  | None | Some [] =>
      mkResponse 400 (JObj [("error"%string, JStr "Conversation history is required")])
  | Some history =>
      let messages := history ++ [extractionRequest] in
      match chatWithOllama messages systemPrompt true with
      | Returned content => extractSchedule content
      | Thrown message =>
          mkResponse 500
            (JObj [("error"%string, JStr "Failed to finalize schedule");
                   ("details"%string, JStr message)])
      end
  end.

End Planner.

(** ** Notions of the specification *)

(** The specification's reading of the extraction: the first bracketed
    group of the response, from its first opening bracket to the closing
    bracket that balances it. [depth] counts the brackets still open. *)
Fixpoint close_group (depth : nat) (cs : list ascii) : option (list ascii) :=
  match cs with
  | [] => None
  | c :: cs' =>
      if Ascii.eqb c "]"%char then
        match depth with
        | O => Some [c]
        | S d => option_map (cons c) (close_group d cs')
        end
      else if Ascii.eqb c "["%char then
        option_map (cons c) (close_group (S depth) cs')
      else option_map (cons c) (close_group depth cs')
  end.

Fixpoint first_bracket_group (cs : list ascii) : option (list ascii) :=
  match cs with
  | [] => None
  | c :: cs' =>
      if Ascii.eqb c "["%char then option_map (cons c) (close_group 0 cs')
      else first_bracket_group cs'
  end.

(** The response the specification's reading would send. *)
Definition extractFirstGroup (content : string) : Response :=
  match first_bracket_group (chars content) with
  | Some group =>
      match JSON.parse (text_of group) with
      | Some schedule => mkResponse 200 (JObj [("schedule"%string, schedule)])
      | None => parse_failure
      end
  | None => parse_failure
  end.

(** The specification's formula for the progress of a non-empty tree:
    [100 * completed / total] rounded to the nearest integer (a half
    rounds up, as [Math.round] does), in exact arithmetic. *)
Definition round_percent (completed total : nat) : Z :=
  ((2 * (100 * Z.of_nat completed) + Z.of_nat total) / (2 * Z.of_nat total))%Z.

(** The subtask tree a task's description decodes to. *)
Definition decoded_tree (task : Task) : list SubtaskNode :=
  map as_node (subtasks (parseDesc (description task))).

(** A flat tree of [total] nodes of which the first [done] are completed;
    the ids are the letters from "A" on. *)
Definition flat_tree (done total : nat) : list SubtaskNode :=
  map (fun k => mkSub (String (ascii_of_nat (65 + k)) "") "step"
                      (Nat.ltb k done) [])
      (seq 0 total).

(** The transcript of the specification's extraction scenario and the
    entry it holds. *)
Definition scenario_transcript : string := qq
  "Here is your plan: [{'title':'Write report','description':'Draft section 1','startTime':'09:00','endTime':'10:30','estimatedMins':90}] Let me know!".

Definition scenario_entry : json :=
  JObj [("title"%string, JStr "Write report");
        ("description"%string, JStr "Draft section 1");
        ("startTime"%string, JStr "09:00");
        ("endTime"%string, JStr "10:30");
        ("estimatedMins"%string, JNum 90 0)].

(** ** Notions used in the proofs *)

(** [percent_agrees_below n]: for every tree size below [n] and every
    number of completed nodes, the computed percentage is the
    specification's. *)
Definition percent_agrees_below (n : nat) : bool :=
  forallb
    (fun t =>
       forallb
         (fun c =>
            Z.eqb (Math.round (fmul (fdiv (of_int (Z.of_nat c)) (of_int (Z.of_nat t)))
                                    (of_int 100)))
                  (round_percent c t))
         (seq 0 (S t)))
    (seq 1 (n - 1)).

(** The record [mrs] locates the fraction [A / B]: its integer part is the
    mantissa and the two flags tell where the rest lies with respect to
    one half. *)
Definition located (A B : Z) (mrs : shr_record) : Prop :=
  let m := shr_m mrs in
  (0 <= m /\ 0 < B /\ m * B <= A < (m + 1) * B /\
   match shr_r mrs, shr_s mrs with
   | false, false => A = m * B
   | false, true => m * B < A /\ 2 * (A - m * B) < B
   | true, false => 2 * (A - m * B) = B
   | true, true => B < 2 * (A - m * B)
   end)%Z.

(** The mean of a list of values rounded to the nearest integer (a half
    rounds up), in exact arithmetic; [0] for the empty list. *)
Definition round_mean (values : list Z) : Z :=
  match values with
  | [] => 0%Z
  | _ :: _ =>
      let n := Z.of_nat (List.length values) in
      ((2 * fold_right Z.add 0 values + n) / (2 * n))%Z
  end.

(** ** Induction on JSON values *)

Section JsonInduction.

Variable P : json -> Prop.
Hypothesis null_case : P JNull.
Hypothesis bool_case : forall b, P (JBool b).
Hypothesis num_case : forall m e, P (JNum m e).
Hypothesis str_case : forall s, P (JStr s).
Hypothesis arr_case : forall vs, Forall P vs -> P (JArr vs).
Hypothesis obj_case : forall ms, Forall (fun kv => P (snd kv)) ms -> P (JObj ms).

Fixpoint json_forall_ind (v : json) : P v :=
  match v with
  | JNull => null_case
  | JBool b => bool_case b
  | JNum m e => num_case m e
  | JStr s => str_case s
  | JArr vs =>
      arr_case vs
        ((fix all (l : list json) : Forall P l :=
            match l with
            | [] => Forall_nil P
            | x :: l' => Forall_cons x (json_forall_ind x) (all l')
            end) vs)
  | JObj ms =>
      obj_case ms
        ((fix all (l : list (string * json))
            : Forall (fun kv => P (snd kv)) l :=
            match l with
            | [] => Forall_nil _
            | kv :: l' =>
                Forall_cons kv (json_forall_ind (snd kv)) (all l')
            end) ms)
  end.

End JsonInduction.

(** ** Induction on subtask trees *)

Section NodeInduction.

Variable P : SubtaskNode -> Prop.
Hypothesis step : forall i t c cs, Forall P cs -> P (mkSub i t c cs).

Fixpoint SubtaskNode_forall_ind (s : SubtaskNode) : P s :=
  match s with
  | mkSub i t c cs =>
      step i t c cs
        ((fix all (l : list SubtaskNode) : Forall P l :=
            match l with
            | [] => Forall_nil P
            | x :: l' => Forall_cons x (SubtaskNode_forall_ind x) (all l')
            end) cs)
  end.

End NodeInduction.

(** Number of nodes of the tree that carry the id [i]. *)
Definition occurrences (i : string) (subs : list SubtaskNode) : nat :=
  count_occ string_dec (map id (flattenSubs subs)) i.

(** ** Which nodes a by-id operation reaches *)

(** The specification's reading of [toggleById]: [completed] is flipped on
    the first node, in pre-order, that carries the id, and on no other.
    The flag threaded through the traversal tells whether that node has
    been passed. *)
Fixpoint toggleFirst_at (i : string) (s : SubtaskNode) (found : bool)
  : SubtaskNode * bool :=
  match s with
  | mkSub j t c cs =>
      if found then (s, true)
      else if String.eqb j i then (mkSub j t (negb c) cs, true)
      else
        let (cs', found') :=
          (fix go (l : list SubtaskNode) (found : bool)
             : list SubtaskNode * bool :=
             match l with
             | [] => ([], found)
             | x :: l' =>
                 let (x', f1) := toggleFirst_at i x found in
                 let (l'', f2) := go l' f1 in
                 (x' :: l'', f2)
             end) cs false in
        (mkSub j t c cs', found')
  end.

Fixpoint toggleFirst_list (i : string) (l : list SubtaskNode) (found : bool)
  : list SubtaskNode * bool :=
  match l with
  | [] => ([], found)
  | x :: l' =>
      let (x', f1) := toggleFirst_at i x found in
      let (l'', f2) := toggleFirst_list i l' f1 in
      (x' :: l'', f2)
  end.

Definition toggleFirstById (subs : list SubtaskNode) (i : string)
  : list SubtaskNode :=
  fst (toggleFirst_list i subs false).

(** For each node of the subtree of [s], in pre-order: does it carry the
    id [i] with no ancestor carrying it ([under] tells whether an ancestor
    of [s] does)? *)
Fixpoint reached_at (i : string) (under : bool) (s : SubtaskNode) : list bool :=
  match s with
  | mkSub j _ _ cs =>
      (String.eqb j i && negb under)
        :: flat_map (reached_at i (under || String.eqb j i)) cs
  end.

(** The mask of the nodes a by-id operation reaches, aligned with
    [flattenSubs]. *)
Definition reached (i : string) (subs : list SubtaskNode) : list bool :=
  flat_map (reached_at i false) subs.

Definition hits (i : string) (subs : list SubtaskNode) : nat :=
  List.length (filter (fun b => b) (reached i subs)).

(** The nodes that neither carry the id [i] nor lie below a node that
    does, in pre-order. *)
Fixpoint survivors_at (i : string) (s : SubtaskNode) : list SubtaskNode :=
  match s with
  | mkSub j _ _ cs =>
      if String.eqb j i then [] else s :: flat_map (survivors_at i) cs
  end.

Definition survivors (i : string) (subs : list SubtaskNode) : list SubtaskNode :=
  flat_map (survivors_at i) subs.

(** What a node shows of itself: its id, title and flag. *)
Definition label (s : SubtaskNode) : string * string * bool :=
  (id s, title s, completed s).

Definition flip_where (flags mask : list bool) : list bool :=
  map (fun p => xorb (fst p) (snd p)) (combine flags mask).

(** ** Notions used to state the parser's properties *)

(** What the digits of a number are: all digits, denoting the number,
    with a leading zero only for [0] itself. *)
Definition digits_for (n : N) (ds : list ascii) : Prop :=
  Forall (fun c => JSON.is_digit c = true) ds /\
  JSON.digits_val ds = Z.of_N n /\
  exists c tl, ds = c :: tl /\ (Ascii.eqb c "0" = true -> tl = []).

(** What may follow a number literal for it to end there. *)
Definition number_end (rest : list ascii) : bool :=
  match rest with
  | [] => true
  | c :: _ =>
      negb (JSON.is_digit c) && negb (Ascii.eqb c ".")
      && negb (Ascii.eqb c "e") && negb (Ascii.eqb c "E")
  end.

(** The text of the elements of an array and of the members of an object,
    between the brackets. *)
Fixpoint items_text (vs : list json) : list ascii :=
  match vs with
  | [] => []
  | v :: vs' =>
      JSON.stringify_chars v ++
      match vs' with
      | [] => []
      | _ :: _ => ","%char :: items_text vs'
      end
  end.

Fixpoint fields_text (ms : list (string * json)) : list ascii :=
  match ms with
  | [] => []
  | (k, v) :: ms' =>
      JSON.quote k ++ ":"%char :: JSON.stringify_chars v ++
      match ms' with
      | [] => []
      | _ :: _ => ","%char :: fields_text ms'
      end
  end.

(** A value's text starts with a character that is neither white space nor
    a closing bracket. *)
Definition value_start (c : ascii) : bool :=
  negb (JSON.is_ws c) && negb (Ascii.eqb c "]") && negb (Ascii.eqb c "}").

(** The parser reads back the text of [v], whatever follows it, given
    fuel for twice the length of the text. *)
Definition roundtrips (v : json) : Prop :=
  forall f rest,
    2 * List.length (JSON.stringify_chars v) <= f ->
    number_end rest = true ->
    JSON.parse_value f (JSON.stringify_chars v ++ rest) = Some (v, rest).

(** ** The subtask editor of the task and goal forms *)

(** [String.prototype.trim] on UTF-8 text.  The characters removed from
    both ends are the white space and line terminators of the language:
    U+0009 to U+000D, U+0020, U+00A0, U+1680, U+2000 to U+200A, U+2028,
    U+2029, U+202F, U+205F, U+3000 and U+FEFF, matched here by their one,
    two or three bytes. *)
Definition is_space1 (c : ascii) : bool :=
  let n := nat_of_ascii c in
  (Nat.leb 9 n && Nat.leb n 13) || Nat.eqb n 32.

Definition is_space2 (a b : ascii) : bool :=
  Nat.eqb (nat_of_ascii a) 194 && Nat.eqb (nat_of_ascii b) 160.

Definition is_space3 (a b c : ascii) : bool :=
  let x := nat_of_ascii a in
  let y := nat_of_ascii b in
  let z := nat_of_ascii c in
  (Nat.eqb x 225 && Nat.eqb y 154 && Nat.eqb z 128)
  || (Nat.eqb x 226 && Nat.eqb y 128
      && ((Nat.leb 128 z && Nat.leb z 138)
          || Nat.eqb z 168 || Nat.eqb z 169 || Nat.eqb z 175))
  || (Nat.eqb x 226 && Nat.eqb y 129 && Nat.eqb z 159)
  || (Nat.eqb x 227 && Nat.eqb y 128 && Nat.eqb z 128)
  || (Nat.eqb x 239 && Nat.eqb y 187 && Nat.eqb z 191).

Fixpoint trimStart (cs : list ascii) : list ascii :=
  match cs with
  | [] => []
  | a :: r1 =>
      if is_space1 a then trimStart r1
      else
        match r1 with
        | [] => cs
        | b :: r2 =>
            if is_space2 a b then trimStart r2
            else
              match r2 with
              | [] => cs
              | c :: r3 => if is_space3 a b c then trimStart r3 else cs
              end
        end
  end.

(** The same from the end, on the reversed text. *)
Fixpoint trimEnd_rev (rs : list ascii) : list ascii :=
  match rs with
  | [] => []
  | c :: r1 =>
      if is_space1 c then trimEnd_rev r1
      else
        match r1 with
        | [] => rs
        | b :: r2 =>
            if is_space2 b c then trimEnd_rev r2
            else
              match r2 with
              | [] => rs
              | a :: r3 => if is_space3 a b c then trimEnd_rev r3 else rs
              end
        end
  end.

Definition trim (s : string) : string :=
  text_of (rev (trimEnd_rev (rev (trimStart (chars s))))).

(** The node both forms create for a new subtask,
    [{ id: uid(), title, completed: false, children: [] }]; [u] is the
    value that [uid()] returned. *)
Definition newSub (u t : string) : SubtaskNode := mkSub u t false [].

(** The state hooks the task form and the goal form both declare, and the
    three editing functions both define in the same words (lines 137-161
    and 296-310 of Goals.jsx). *)
Module Form.

Record State : Type :=
  mkState { title : string;
            desc : string;
            date : string;
            priority : string;
            subtasks : list SubtaskNode;
            sub : string }.

(** The state a form opens with when no task is being edited. *)
Definition initial : State := mkState "" "" "" "MEDIUM" [] "".

Definition setSubtasks (f : list SubtaskNode -> list SubtaskNode) (st : State)
  : State :=
  mkState (title st) (desc st) (date st) (priority st) (f (subtasks st)) (sub st).

Definition setSub (s : string) (st : State) : State :=
  mkState (title st) (desc st) (date st) (priority st) (subtasks st) s.

Definition addRootSub (u : string) (st : State) : State :=
  if String.eqb (trim (sub st)) "" then st
  else setSub "" (setSubtasks (fun p => p ++ [newSub u (trim (sub st))]) st).

Definition addChild (u parentId text : string) (st : State) : State :=
  setSubtasks (fun p => addChildSub p parentId (newSub u text)) st.

Definition removeSub (i : string) (st : State) : State :=
  setSubtasks (fun p => removeSubById p i) st.

(** [handleAddChild] of the node editor (lines 89-94), which is how the
    forms' [addChild] is reached: [nodeId] is the id of the node whose
    button was pressed and [childText] the text typed under it.  (The
    text field and its visibility are state of the node editor, not of
    the form, and are left out.) *)
Definition handleAddChild (u nodeId childText : string) (st : State) : State :=
  if String.eqb (trim childText) "" then st
  else addChild u nodeId (trim childText) st.

(** What a user can do to an open form. *)
Inductive Action : Type :=
| Type_title (s : string)
| Type_desc (s : string)
| Pick_date (s : string)
| Pick_priority (s : string)
| Type_sub (s : string)
| Add_root (u : string)
| Add_child (u nodeId childText : string)
| Remove (i : string).

Definition act (st : State) (a : Action) : State :=
  match a with
  | Type_title s =>
      mkState s (desc st) (date st) (priority st) (subtasks st) (sub st)
  | Type_desc s =>
      mkState (title st) s (date st) (priority st) (subtasks st) (sub st)
  | Pick_date s =>
      mkState (title st) (desc st) s (priority st) (subtasks st) (sub st)
  | Pick_priority s =>
      mkState (title st) (desc st) (date st) s (subtasks st) (sub st)
  | Type_sub s => setSub s st
  | Add_root u => addRootSub u st
  | Add_child u nodeId childText => handleAddChild u nodeId childText st
  | Remove i => removeSub i st
  end.

Definition session (actions : list Action) : State :=
  fold_left act actions initial.

(** The ids that [uid()] returned in the course of the actions. *)
Definition minted (actions : list Action) : list string :=
  flat_map (fun a => match a with
                     | Add_root u => [u]
                     | Add_child u _ _ => [u]
                     | _ => []
                     end) actions.

End Form.

(** The object the task form submits. *)
Record TaskData : Type :=
  mkTaskData { task_title : string;
               task_description : option string;
               task_dueDate : option string;
               task_priority : string }.

(** The object the goal form submits. *)
Record GoalData : Type :=
  mkGoalData { goal_title : string;
               goal_description : option string;
               goal_targetDate : option string;
               goal_priority : string;
               goal_subtasks : list SubtaskNode }.

(** [x || null] for a string [x]. *)
Definition or_null (x : string) : option string :=
  if String.eqb x "" then None else Some x.

Module TaskModal.

(** [handleSubmit], lines 162-165: [None] when nothing is submitted. *)
Definition handleSubmit (st : Form.State) : option TaskData :=
  if String.eqb (trim (Form.title st)) "" then None
  else Some (mkTaskData (trim (Form.title st))
                        (encodeDesc (Form.desc st) (Form.subtasks st))
                        (or_null (Form.date st))
                        (Form.priority st)).

End TaskModal.

Module GoalModal.

(** [handleSubmit], lines 311-314. *)
Definition handleSubmit (st : Form.State) : option GoalData :=
  if String.eqb (trim (Form.title st)) "" then None
  else Some (mkGoalData (trim (Form.title st))
                        (or_null (trim (Form.desc st)))
                        (or_null (Form.date st))
                        (Form.priority st)
                        (Form.subtasks st)).

End GoalModal.

(** ** The task count of a goal card *)

(** A milestone as a goal of the list carries it: [count_tasks] is
    [m._count?.tasks] and [listed_tasks] is [m.tasks]. *)
Record MilestoneSummary : Type :=
  mkMilestoneSummary { count_tasks : option nat;
                       listed_tasks : option (list Task) }.

Record GoalSummary : Type :=
  mkGoalSummary { summary_milestones : option (list MilestoneSummary) }.

(** [x || y] for a count [x] that may be undefined. *)
Definition count_or (x : option nat) (y : nat) : nat :=
  match x with
  | Some (S n) => S n
  | _ => y
  end.

(** [getTaskCount]: line 65 of Goals.jsx. *)
Definition getTaskCount (goal : GoalSummary) : nat :=
  match summary_milestones goal with
  | None => 0
  | Some ms =>
      fold_left
        (fun sum m =>
           sum + count_or (count_tasks m)
                   (count_or (option_map (@List.length Task) (listed_tasks m)) 0))
        ms 0
  end.

(** The same goal as [allTasks] reads it. *)
Definition listed_goal (goal : GoalSummary) : Goal :=
  mkGoal (option_map (map (fun m => mkMilestone (listed_tasks m)))
                     (summary_milestones goal)).

(** ** Days left to a due date *)

(** [Math.ceil] of a finite number; as for [Math.round], infinities and
    NaN are given [0] and do not occur below. *)
Definition Math_ceil (x : number) : Z :=
  match x with
  | S754_finite s m e =>
      let v := if s then Zneg m else Zpos m in
      match e with
      | Zneg k => (- ((- v) / 2 ^ Zpos k))%Z
      | _ => (v * 2 ^ e)%Z
      end
  | _ => 0%Z
  end.

(** What [daysLeft] returns: [null], [NaN], or a whole number of days. *)
Inductive Days : Type :=
| NoDays
| NaNDays
| DaysCount (n : Z).

Section Clock.

(** [timeValue d] is the time value of [new Date(d)] in milliseconds,
    [None] for an invalid date; [now] is [Date.now()]. *)
Variable timeValue : string -> option Z.
Variable now : Z.

(** [daysLeft]: line 67 of Goals.jsx.  The difference of two time values
    is taken in [Z] and rounded once, as the subtraction of two doubles
    rounds it. *)
Definition daysLeft (d : option string) : Days :=
  match d with
  | None => NoDays
  | Some s =>
      if String.eqb s "" then NoDays
      else
        match timeValue s with
        | None => NaNDays
        | Some t =>
            DaysCount (Math_ceil (fdiv (of_int (t - now)) (of_int 86400000)))
        end
  end.

End Clock.

(** The ids of a tree, in pre-order. *)
Definition ids (subs : list SubtaskNode) : list string :=
  map id (flattenSubs subs).

(** The sum, over the nodes of a tree, of a weight that the id, the title
    and the flag of a node determine. *)
Definition weight (w : string * string * bool -> nat) (subs : list SubtaskNode)
  : nat :=
  list_sum (map (fun n => w (label n)) (flattenSubs subs)).

(** The children of the first node, in pre-order, that carries the id
    [i]; [None] when no node carries it. *)
Fixpoint childrenOf_at (i : string) (s : SubtaskNode) : option (list SubtaskNode) :=
  match s with
  | mkSub j _ _ cs =>
      if String.eqb j i then Some cs
      else
        (fix first (l : list SubtaskNode) : option (list SubtaskNode) :=
           match l with
           | [] => None
           | x :: l' =>
               match childrenOf_at i x with
               | Some r => Some r
               | None => first l'
               end
           end) cs
  end.

Fixpoint childrenOf (i : string) (subs : list SubtaskNode)
  : option (list SubtaskNode) :=
  match subs with
  | [] => None
  | x :: l =>
      match childrenOf_at i x with
      | Some r => Some r
      | None => childrenOf i l
      end
  end.

(** ** Creating a goal from the goal form *)

(** What awaiting a request gives: its result, or a rejection. *)
Inductive Awaited (A : Type) : Type :=
| Resolved (a : A)
| Rejected.

Arguments Resolved {A} a.
Arguments Rejected {A}.

(** What [handleCreateGoal] does, in order: the requests it sends, the
    error it logs and the state it sets. *)
Inductive Effect : Type :=
| CreateGoal (title : string) (description targetDate : option string)
| CreateMilestone (goalId title : string) (description targetDate : option string)
| CreateTask (milestoneId : string) (data : TaskData)
| ConsoleError
| SetShowGoalModal (shown : bool)
| FetchGoals.

(** [x || ''] for a string [x] that may be [null]. *)
Definition or_empty (x : option string) : string :=
  match x with
  | Some s => s
  | None => EmptyString
  end.

Section GoalsPage.

(** The goal store and the goal API, by what their calls resolve to:
    [createGoal] to the id of the new goal, or to nothing; [createMilestone]
    to the id of the new milestone. *)
Variable createGoal : string -> option string -> option string -> Awaited (option string).
Variable createMilestone : string -> string -> Awaited string.
Variable createTask : string -> TaskData -> Awaited unit.
Variable fetchGoals : Awaited unit.

(** [handleCreateGoal], lines 404-417: the effects in order, and whether
    the handler ran to its end ([false] when a request outside the [try]
    block was rejected). *)
Definition handleCreateGoal (goalData : GoalData) : list Effect * bool :=
  let title := goal_title goalData in
  let description := goal_description goalData in
  let targetDate := goal_targetDate goalData in
  let priority := goal_priority goalData in
  let subtasks := goal_subtasks goalData in
  if String.eqb (trim title) "" then ([], true)
  else
    let request := CreateGoal (trim title) description targetDate in
    match createGoal (trim title) description targetDate with
    | Rejected => ([request], false)
    | Resolved goal =>
        let initial :=
          match goal with
          | Some goalId =>
              if Nat.ltb 0 (List.length subtasks) then
                let milestone := CreateMilestone goalId "Tasks" None None in
                match createMilestone goalId "Tasks" with
                | Rejected => [milestone; ConsoleError]
                | Resolved milestoneId =>
                    let data :=
                      mkTaskData (trim title)
                        (encodeDesc (or_empty description) subtasks)
                        targetDate priority in
                    match createTask milestoneId data with
                    | Rejected =>
                        [milestone; CreateTask milestoneId data; ConsoleError]
                    | Resolved _ => [milestone; CreateTask milestoneId data]
                    end
                end
              else []
          | None => []
          end in
        (request :: initial ++ [SetShowGoalModal false; FetchGoals],
         match fetchGoals with Resolved _ => true | Rejected => false end)
    end.

End GoalsPage.

(** ** Notions used to state the properties of [trim] *)

(** The text does not start with a white space character. *)
Definition starts_clean (cs : list ascii) : bool :=
  match cs with
  | [] => true
  | a :: r1 =>
      negb (is_space1 a)
      && match r1 with
         | [] => true
         | b :: r2 =>
             negb (is_space2 a b)
             && match r2 with
                | [] => true
                | c :: _ => negb (is_space3 a b c)
                end
         end
  end.

(** The reversed text does not end with one. *)
Definition ends_clean_rev (rs : list ascii) : bool :=
  match rs with
  | [] => true
  | c :: r1 =>
      negb (is_space1 c)
      && match r1 with
         | [] => true
         | b :: r2 =>
             negb (is_space2 b c)
             && match r2 with
                | [] => true
                | a :: _ => negb (is_space3 a b c)
                end
         end
  end.

(** ** Positions in a tree *)

(** The node at a position.  A position is the path to the node: the
    index of its ancestor, or of itself, among the siblings at each
    level, from the top list down. *)
Fixpoint node_at (path : list nat) (subs : list SubtaskNode)
  : option SubtaskNode :=
  match path with
  | [] => None
  | k :: rest =>
      match nth_error subs k with
      | None => None
      | Some n =>
          match rest with
          | [] => Some n
          | _ :: _ => node_at rest (children n)
          end
      end
  end.

(** Whether a proper ancestor of the position carries the id [i]. *)
Fixpoint covered (i : string) (path : list nat) (subs : list SubtaskNode)
  : bool :=
  match path with
  | [] => false
  | k :: rest =>
      match nth_error subs k with
      | None => false
      | Some n =>
          match rest with
          | [] => false
          | _ :: _ => String.eqb (id n) i || covered i rest (children n)
          end
      end
  end.

(** Whether the node at the position carries the id [i] and no proper
    ancestor of it does: these are the nodes a by-id operation reaches. *)
Definition exposed (i : string) (path : list nat) (subs : list SubtaskNode)
  : bool :=
  match node_at path subs with
  | Some n => String.eqb (id n) i && negb (covered i path subs)
  | None => false
  end.

(** The outline of a tree: its nodes in pre-order, each with its depth,
    id, title and flag.  (A forest is determined by its outline.) *)
Fixpoint outline_at (depth : nat) (s : SubtaskNode)
  : list (nat * (string * string * bool)) :=
  match s with
  | mkSub j t c cs => (depth, (j, t, c)) :: flat_map (outline_at (S depth)) cs
  end.

Definition outline (subs : list SubtaskNode)
  : list (nat * (string * string * bool)) :=
  flat_map (outline_at 0) subs.

(** The outline of the nodes that neither carry the id [i] nor lie below
    a node that does. *)
Fixpoint kept_at (i : string) (depth : nat) (s : SubtaskNode)
  : list (nat * (string * string * bool)) :=
  match s with
  | mkSub j t c cs =>
      if String.eqb j i then []
      else (depth, (j, t, c)) :: flat_map (kept_at i (S depth)) cs
  end.

Definition kept (i : string) (subs : list SubtaskNode)
  : list (nat * (string * string * bool)) :=
  flat_map (kept_at i 0) subs.

(** ** Descriptions that hold trees of nodes *)

(** The shape the data model gives a subtask: an object whose
    [completed], if it has one, is a boolean, and whose [children], if it
    has them, are an array of such objects.  On these values the helpers
    read nothing but nodes: [flattenSubs] meets no [null] element, no
    string and no array-like object among the children. *)
Fixpoint node_shaped (v : json) : bool :=
  match v with
  | JObj ms =>
      match get "completed" ms with
      | None => true
      | Some (JBool _) => true
      | Some _ => false
      end
      && match
           (fix kids (ms : list (string * json)) : option bool :=
              match ms with
              | [] => None
              | (k, x) :: ms' =>
                  match kids ms' with
                  | Some r => Some r
                  | None =>
                      if String.eqb "children" k then
                        Some match x with
                             | JArr xs => forallb node_shaped xs
                             | _ => false
                             end
                      else None
                  end
              end) ms
         with
         | Some r => r
         | None => true
         end
  | _ => false
  end.

(** The description of the task is empty, a plain text, or an envelope
    whose subtasks are nodes at every depth. *)
Definition well_formed (task : Task) : bool :=
  forallb node_shaped (subtasks (parseDesc (description task))).

(** * Properties *)

(** ** Unfolding equations, as the source writes the functions *)

Lemma flattenSub_eq s : flattenSub s = s :: flattenSubs (children s).
Proof. destruct s; reflexivity. Qed.

Lemma flattenSubs_cons s rest :
  flattenSubs (s :: rest) = s :: flattenSubs (children s) ++ flattenSubs rest.
Proof. unfold flattenSubs; simpl; now rewrite flattenSub_eq. Qed.

Lemma flattenSubs_app l1 l2 :
  flattenSubs (l1 ++ l2) = flattenSubs l1 ++ flattenSubs l2.
Proof. unfold flattenSubs; apply flat_map_app. Qed.

Lemma removeSub_at_eq i j t c cs :
  removeSub_at i (mkSub j t c cs) =
  match cs with
  | [] => mkSub j t c cs
  | _ :: _ => mkSub j t c (removeSubById cs i)
  end.
Proof.
  destruct cs as [|x cs]; [reflexivity|].
  unfold removeSubById.
  change (removeSub_at i (mkSub j t c (x :: cs))) with
    (mkSub j t c
       ((fix keep (l : list SubtaskNode) : list SubtaskNode :=
           match l with
           | [] => []
           | y :: l' =>
               if negb (String.eqb (id y) i)
               then removeSub_at i y :: keep l'
               else keep l'
           end) (x :: cs))).
  f_equal.
  generalize (x :: cs) as l.
  induction l as [|y l IH]; [reflexivity|].
  simpl. destruct (negb (id y =? i)%string); simpl; now rewrite IH.
Qed.

Lemma removeSub_at_children i j t c cs :
  removeSub_at i (mkSub j t c cs) = mkSub j t c (removeSubById cs i).
Proof. rewrite removeSub_at_eq. destruct cs; reflexivity. Qed.

Lemma toggleSub_at_eq i j t c cs :
  toggleSub_at i (mkSub j t c cs) =
  if String.eqb j i then mkSub j t (negb c) cs
  else match cs with
       | [] => mkSub j t c cs
       | _ :: _ => mkSub j t c (toggleSubById cs i)
       end.
Proof. reflexivity. Qed.

Lemma addChildSub_at_eq i child j t c cs :
  addChildSub_at i child (mkSub j t c cs) =
  if String.eqb j i then mkSub j t c (cs ++ [child])
  else match cs with
       | [] => mkSub j t c cs
       | _ :: _ => mkSub j t c (addChildSub cs i child)
       end.
Proof. reflexivity. Qed.

Lemma removeSubById_cons s rest i :
  removeSubById (s :: rest) i =
  if String.eqb (id s) i then removeSubById rest i
  else removeSub_at i s :: removeSubById rest i.
Proof.
  unfold removeSubById; simpl.
  destruct (id s =? i)%string; reflexivity.
Qed.

Lemma occurrences_cons i s rest :
  occurrences i (s :: rest) =
  (if String.eqb (id s) i then 1 else 0)
  + occurrences i (children s) + occurrences i rest.
Proof.
  unfold occurrences. rewrite flattenSubs_cons. simpl.
  rewrite map_app, count_occ_app.
  destruct (string_dec (id s) i) as [e|n].
  - apply String.eqb_eq in e. rewrite e. reflexivity.
  - apply String.eqb_neq in n. rewrite n. reflexivity.
Qed.

Lemma countAllSubs_cons s rest :
  countAllSubs (s :: rest) = S (countAllSubs (children s)) + countAllSubs rest.
Proof.
  unfold countAllSubs. rewrite flattenSubs_cons. simpl.
  now rewrite length_app.
Qed.

Lemma countCompletedSubs_cons s rest :
  countCompletedSubs (s :: rest) =
  (if completed s then 1 else 0)
  + countCompletedSubs (children s) + countCompletedSubs rest.
Proof.
  unfold countCompletedSubs. rewrite flattenSubs_cons. simpl.
  destruct (completed s); simpl; now rewrite filter_app, length_app.
Qed.

(** ** Ids absent from the tree *)

Lemma toggleSub_at_absent i s :
  occurrences i [s] = 0 -> toggleSub_at i s = s.
Proof.
  induction s as [j t c cs IH] using SubtaskNode_forall_ind.
  rewrite occurrences_cons. simpl.
  destruct (String.eqb j i); [discriminate|].
  intros H. destruct cs as [|x cs]; [reflexivity|].
  f_equal.
  assert (Hc : occurrences i (x :: cs) = 0) by lia.
  clear H. revert Hc.
  induction IH as [|y l Hy _ IHl]; [reflexivity|].
  rewrite occurrences_cons. intros H. simpl. f_equal.
  - apply Hy. rewrite occurrences_cons. unfold occurrences at 2. simpl. lia.
  - apply IHl. lia.
Qed.

Lemma occurrences_nil i : occurrences i [] = 0.
Proof. reflexivity. Qed.

Lemma occurrences_single i s :
  occurrences i [s] =
  (if String.eqb (id s) i then 1 else 0) + occurrences i (children s).
Proof. rewrite occurrences_cons, occurrences_nil; lia. Qed.

(** A callback that fixes every node without [i] fixes every list
    without [i]. *)
Lemma map_absent (f : SubtaskNode -> SubtaskNode) i l :
  Forall (fun s => occurrences i [s] = 0 -> f s = s) l ->
  occurrences i l = 0 -> map f l = l.
Proof.
  induction 1 as [|y l Hy _ IHl]; [reflexivity|].
  rewrite occurrences_cons. intros H. simpl. f_equal.
  - apply Hy. rewrite occurrences_single. lia.
  - apply IHl. lia.
Qed.

Lemma addChildSub_at_absent i child s :
  occurrences i [s] = 0 -> addChildSub_at i child s = s.
Proof.
  induction s as [j t c cs IH] using SubtaskNode_forall_ind.
  rewrite occurrences_single. simpl.
  destruct (String.eqb j i); [discriminate|].
  intros H. destruct cs as [|x cs]; [reflexivity|].
  f_equal. apply (map_absent _ i); [exact IH | lia].
Qed.

Lemma filter_absent i l :
  occurrences i l = 0 ->
  filter (fun s => negb (String.eqb (id s) i)) l = l.
Proof.
  induction l as [|y l IHl]; [reflexivity|].
  rewrite occurrences_cons. simpl.
  destruct (String.eqb (id y) i); simpl; [discriminate|].
  intros H. f_equal. apply IHl. lia.
Qed.

Lemma removeSub_at_absent i s :
  occurrences i [s] = 0 -> removeSub_at i s = s.
Proof.
  induction s as [j t c cs IH] using SubtaskNode_forall_ind.
  rewrite occurrences_single, removeSub_at_eq. simpl.
  intros H. destruct cs as [|x cs]; [reflexivity|].
  f_equal. unfold removeSubById.
  rewrite filter_absent by (destruct (String.eqb j i); lia).
  apply (map_absent _ i); [exact IH | destruct (String.eqb j i); lia].
Qed.

Lemma Forall_all (P : SubtaskNode -> Prop) l : (forall s, P s) -> Forall P l.
Proof. intros H; induction l; constructor; auto. Qed.

Lemma toggleSubById_absent subs i :
  occurrences i subs = 0 -> toggleSubById subs i = subs.
Proof.
  apply map_absent, Forall_all. intros s; apply toggleSub_at_absent.
Qed.

Lemma addChildSub_absent subs i child :
  occurrences i subs = 0 -> addChildSub subs i child = subs.
Proof.
  apply map_absent, Forall_all. intros s; apply addChildSub_at_absent.
Qed.

Lemma removeSubById_absent subs i :
  occurrences i subs = 0 -> removeSubById subs i = subs.
Proof.
  intros H. unfold removeSubById. rewrite filter_absent by exact H.
  apply (map_absent _ i); [|exact H].
  apply Forall_all. intros s; apply removeSub_at_absent.
Qed.

Lemma occurrences_absent i subs :
  ~ In i (map id (flattenSubs subs)) -> occurrences i subs = 0.
Proof. intros H. apply count_occ_not_In. exact H. Qed.

(** C10 (absent id is a no-op).  For every tree and every id carried by no
    node of the tree, [addChildSub], [removeSubById] and [toggleSubById]
    return the tree itself: the functions are total and have no not-found
    result. *)
Theorem byId_absent_noop (subs : list SubtaskNode) (i : string)
  (child : SubtaskNode) :
  ~ In i (map id (flattenSubs subs)) ->
  addChildSub subs i child = subs /\
  removeSubById subs i = subs /\
  toggleSubById subs i = subs.
Proof.
  intros H. apply occurrences_absent in H.
  split; [|split].
  - now apply addChildSub_absent.
  - now apply removeSubById_absent.
  - now apply toggleSubById_absent.
Qed.

(** The scenario of C10: a child added under the nonexistent parent "zzz"
    of the tree [[{id:"a",children:[]}]]. *)
Lemma byId_absent_noop_witness :
  let tree := [mkSub "a" "" false []] in
  let child := mkSub "n" "new" false [] in
  ~ In "zzz"%string (map id (flattenSubs tree)) /\
  addChildSub tree "zzz" child = tree /\
  removeSubById tree "zzz" = tree /\
  toggleSubById tree "zzz" = tree.
Proof.
  intros tree child.
  assert (H : ~ In "zzz"%string (map id (flattenSubs tree))).
  { simpl. intros [H|[]]. discriminate H. }
  split; [exact H|].
  exact (byId_absent_noop tree "zzz" child H).
Defined.

(** ** Toggling twice *)

Lemma toggleSub_at_involutive i s : toggleSub_at i (toggleSub_at i s) = s.
Proof.
  induction s as [j t c cs IH] using SubtaskNode_forall_ind.
  simpl. destruct (String.eqb j i) eqn:E.
  - simpl. rewrite E, negb_involutive. reflexivity.
  - destruct cs as [|x cs].
    + simpl. rewrite E. reflexivity.
    + simpl. rewrite E. f_equal.
      inversion IH as [|? ? Hx Hcs]; subst.
      rewrite Hx. f_equal.
      rewrite map_map. clear - Hcs.
      induction Hcs as [|y l Hy _ IHl]; simpl; congruence.
Qed.

(** C8 (toggling twice).  For every tree and every id, present or not,
    [toggleSubById (toggleSubById tree id) id] is the tree itself. *)
Theorem toggleSubById_twice (subs : list SubtaskNode) (i : string) :
  toggleSubById (toggleSubById subs i) i = subs.
Proof.
  unfold toggleSubById. rewrite map_map.
  induction subs as [|s l IH]; simpl; [reflexivity|].
  now rewrite toggleSub_at_involutive, IH.
Qed.

(** ** Counting after a toggle or a removal *)

Lemma countAllSubs_single s : countAllSubs [s] = S (countAllSubs (children s)).
Proof. rewrite countAllSubs_cons. unfold countAllSubs at 2. simpl. lia. Qed.

Lemma countAllSubs_split s rest :
  countAllSubs (s :: rest) = countAllSubs [s] + countAllSubs rest.
Proof. rewrite countAllSubs_cons, countAllSubs_single. reflexivity. Qed.

Lemma countCompletedSubs_single s :
  countCompletedSubs [s] =
  (if completed s then 1 else 0) + countCompletedSubs (children s).
Proof. rewrite countCompletedSubs_cons. unfold countCompletedSubs at 2. simpl. lia. Qed.

Lemma countCompletedSubs_split s rest :
  countCompletedSubs (s :: rest) = countCompletedSubs [s] + countCompletedSubs rest.
Proof. rewrite countCompletedSubs_cons, countCompletedSubs_single. reflexivity. Qed.

Lemma occurrences_split i s rest :
  occurrences i (s :: rest) = occurrences i [s] + occurrences i rest.
Proof. rewrite occurrences_cons, occurrences_single. reflexivity. Qed.

Lemma occurrences_In i n subs :
  In n (flattenSubs subs) -> id n = i -> 1 <= occurrences i subs.
Proof.
  intros Hin Hid. unfold occurrences.
  apply (count_occ_In string_dec). subst i. now apply in_map.
Qed.

Lemma countAllSubs_map (f : SubtaskNode -> SubtaskNode) l :
  Forall (fun y => countAllSubs [f y] = countAllSubs [y]) l ->
  countAllSubs (map f l) = countAllSubs l.
Proof.
  induction 1 as [|y l Hy _ IHl]; [reflexivity|].
  simpl map. rewrite (countAllSubs_split y), (countAllSubs_split (f y)).
  now rewrite Hy, IHl.
Qed.

Lemma toggleSub_at_countAll i s :
  countAllSubs [toggleSub_at i s] = countAllSubs [s].
Proof.
  induction s as [j t c cs IH] using SubtaskNode_forall_ind.
  simpl. destruct (String.eqb j i); [now rewrite !countAllSubs_single|].
  destruct cs as [|x cs]; [reflexivity|].
  rewrite !countAllSubs_single. simpl children. f_equal.
  exact (countAllSubs_map (toggleSub_at i) (x :: cs) IH).
Qed.

Lemma toggleSubById_countAll subs i :
  countAllSubs (toggleSubById subs i) = countAllSubs subs.
Proof.
  apply countAllSubs_map, Forall_all. intros s. apply toggleSub_at_countAll.
Qed.

Section ToggleOnce.

Variable i : string.

Let incomplete (subs : list SubtaskNode) : Prop :=
  forall n, In n (flattenSubs subs) -> id n = i -> completed n = false.

Let node_goal (s : SubtaskNode) : Prop :=
  occurrences i [s] = 1 -> incomplete [s] ->
  countCompletedSubs [toggleSub_at i s] = countCompletedSubs [s] + 1.

Lemma incomplete_head s rest : incomplete (s :: rest) -> incomplete [s].
Proof.
  intros H n Hn. apply H. rewrite flattenSubs_cons.
  rewrite flattenSubs_cons in Hn. simpl in Hn. rewrite app_nil_r in Hn.
  destruct Hn as [Hn|Hn]; [now left|right]. apply in_or_app. now left.
Qed.

Lemma incomplete_tail s rest : incomplete (s :: rest) -> incomplete rest.
Proof.
  intros H n Hn. apply H. rewrite flattenSubs_cons.
  right. apply in_or_app. now right.
Qed.

Lemma incomplete_children s : incomplete [s] -> incomplete (children s).
Proof.
  intros H n Hn. apply H. rewrite flattenSubs_cons.
  right. apply in_or_app. now left.
Qed.

Lemma toggle_list_once l :
  Forall node_goal l ->
  occurrences i l = 1 -> incomplete l ->
  countCompletedSubs (toggleSubById l i) = countCompletedSubs l + 1.
Proof.
  induction 1 as [|y l Hy _ IHl]; [discriminate|].
  rewrite occurrences_split. intros Hocc Hinc.
  unfold toggleSubById in *. simpl map.
  rewrite (countCompletedSubs_split y), (countCompletedSubs_split (toggleSub_at i y)).
  destruct (occurrences i [y]) as [|[|k]] eqn:Ey; [| |lia].
  - rewrite toggleSub_at_absent by exact Ey.
    rewrite IHl; [lia | lia | eapply incomplete_tail; eauto].
  - fold (toggleSubById l i).
    rewrite toggleSubById_absent by lia.
    rewrite Hy; [lia | exact Ey | eapply incomplete_head; eauto].
Qed.

Lemma toggle_node_once s : node_goal s.
Proof.
  induction s as [j t c cs IH] using SubtaskNode_forall_ind.
  intros Hocc Hinc.
  rewrite occurrences_single in Hocc. simpl in Hocc.
  rewrite toggleSub_at_eq. destruct (String.eqb j i) eqn:E.
  - rewrite !countCompletedSubs_single. simpl.
    assert (Hc : c = false).
    { apply (Hinc (mkSub j t c cs)).
      - rewrite flattenSubs_cons. now left.
      - now apply String.eqb_eq. }
    subst c. simpl. lia.
  - destruct cs as [|x cs]; [discriminate|].
    rewrite !countCompletedSubs_single. cbn [completed children].
    rewrite toggle_list_once; [lia | exact IH | lia |].
    apply (incomplete_children (mkSub j t c (x :: cs))). exact Hinc.
Qed.

Lemma toggle_once subs :
  occurrences i subs = 1 -> incomplete subs ->
  countCompletedSubs (toggleSubById subs i) = countCompletedSubs subs + 1.
Proof.
  apply toggle_list_once, Forall_all. exact toggle_node_once.
Qed.

End ToggleOnce.

(** C6 (toggling an incomplete node).  For every tree and every id that
    identifies a node of it (exactly one node carries the id) whose
    [completed] flag is false, [toggleSubById] yields a tree with one more
    completed node and the same number of nodes. *)
Theorem toggle_incomplete_counts (subs : list SubtaskNode) (i : string) :
  occurrences i subs = 1 ->
  (forall n, In n (flattenSubs subs) -> id n = i -> completed n = false) ->
  countCompletedSubs (toggleSubById subs i) = countCompletedSubs subs + 1 /\
  countAllSubs (toggleSubById subs i) = countAllSubs subs.
Proof.
  intros Hocc Hinc. split.
  - now apply toggle_once.
  - apply toggleSubById_countAll.
Qed.

(** A nested tree in which the child "c" is incomplete: toggling it takes
    the completed count from 2 to 3 of 3. *)
Lemma toggle_incomplete_counts_witness :
  let tree := [mkSub "a" "A" true [mkSub "c" "C" false []]; mkSub "b" "B" true []] in
  occurrences "c" tree = 1 /\
  (forall n, In n (flattenSubs tree) -> id n = "c"%string -> completed n = false) /\
  countCompletedSubs (toggleSubById tree "c") = 3 /\
  countAllSubs (toggleSubById tree "c") = 3.
Proof.
  intros tree.
  assert (H1 : occurrences "c" tree = 1) by reflexivity.
  assert (H2 : forall n, In n (flattenSubs tree) -> id n = "c"%string ->
                         completed n = false).
  { simpl. intros n [H|[H|[H|[]]]] E; subst n; simpl in *;
      solve [reflexivity | discriminate E]. }
  split; [exact H1|]. split; [exact H2|].
  exact (toggle_incomplete_counts tree "c" H1 H2).
Defined.

Section RemoveOnce.

Variables (i : string) (n : SubtaskNode).
Hypothesis n_id : id n = i.

Let node_goal (s : SubtaskNode) : Prop :=
  String.eqb (id s) i = false ->
  occurrences i (children s) = 1 ->
  In n (flattenSubs (children s)) ->
  countAllSubs [removeSub_at i s] + countAllSubs [n] = countAllSubs [s].

Lemma remove_list_once l :
  Forall node_goal l ->
  occurrences i l = 1 -> In n (flattenSubs l) ->
  countAllSubs (removeSubById l i) + countAllSubs [n] = countAllSubs l.
Proof.
  induction 1 as [|y l Hy _ IHl]; [discriminate|].
  rewrite occurrences_cons, removeSubById_cons, flattenSubs_cons.
  destruct (String.eqb (id y) i) eqn:E; intros Hocc Hin.
  - (* the head is the node named [i]: [n] is the head *)
    assert (Hn : n = y).
    { destruct Hin as [Hin|Hin]; [now symmetry|].
      apply in_app_or in Hin. destruct Hin as [Hin|Hin];
        apply (occurrences_In i) in Hin; auto; exfalso; lia. }
    subst y. rewrite removeSubById_absent by lia.
    rewrite (countAllSubs_split n l). lia.
  - assert (Hny : n <> y).
    { intros ->. apply String.eqb_neq in E. now apply E. }
    destruct Hin as [Hin|Hin]; [congruence|].
    apply in_app_or in Hin.
    rewrite (countAllSubs_split y l),
      (countAllSubs_split (removeSub_at i y) (removeSubById l i)).
    destruct (occurrences i (children y)) as [|[|k]] eqn:Ey; [| |lia].
    + rewrite removeSub_at_absent
        by (rewrite occurrences_single, E, Ey; reflexivity).
      destruct Hin as [Hin|Hin].
      * apply (occurrences_In i) in Hin; auto; lia.
      * rewrite <- IHl; [lia | lia | exact Hin].
    + rewrite removeSubById_absent by lia.
      destruct Hin as [Hin|Hin].
      * rewrite <- (Hy E Ey Hin). lia.
      * apply (occurrences_In i) in Hin; auto; lia.
Qed.

Lemma remove_node_once s : node_goal s.
Proof.
  induction s as [j t c cs IH] using SubtaskNode_forall_ind.
  intros E Hocc Hin. cbn [children id] in *.
  rewrite removeSub_at_eq.
  destruct cs as [|x cs]; [discriminate|].
  rewrite (countAllSubs_single (mkSub j t c (x :: cs))),
    (countAllSubs_single (mkSub j t c (removeSubById (x :: cs) i))).
  cbn [children].
  rewrite <- (remove_list_once (x :: cs) IH Hocc Hin). lia.
Qed.

Lemma remove_once subs :
  occurrences i subs = 1 -> In n (flattenSubs subs) ->
  countAllSubs (removeSubById subs i) + countAllSubs [n] = countAllSubs subs.
Proof.
  apply remove_list_once, Forall_all. exact remove_node_once.
Qed.

End RemoveOnce.

(** C7 (deletion size).  For every tree and every id that identifies a
    node [n] of it (exactly one node carries the id), [removeSubById]
    yields a tree with exactly [k] nodes fewer, where [k] is the size of
    the subtree of [n], the node and all its descendants: the whole
    subtree is discarded. *)
Theorem remove_subtree_size (subs : list SubtaskNode) (i : string)
  (n : SubtaskNode) :
  occurrences i subs = 1 ->
  In n (flattenSubs subs) ->
  id n = i ->
  countAllSubs [n] <= countAllSubs subs /\
  countAllSubs (removeSubById subs i) = countAllSubs subs - countAllSubs [n].
Proof.
  intros Hocc Hin Hid.
  pose proof (remove_once i n Hid subs Hocc Hin) as H.
  split; lia.
Qed.

(** Removing "a", whose subtree has the two nodes "a" and "c", from a
    tree of four nodes leaves two. *)
Lemma remove_subtree_size_witness :
  let a := mkSub "a" "A" true [mkSub "c" "C" false []] in
  let tree := [mkSub "r" "R" false [a; mkSub "b" "B" true []]] in
  occurrences "a" tree = 1 /\ In a (flattenSubs tree) /\ id a = "a"%string /\
  countAllSubs [a] = 2 /\
  countAllSubs (removeSubById tree "a") = 2.
Proof.
  intros a tree.
  assert (H1 : occurrences "a" tree = 1) by reflexivity.
  assert (H2 : In a (flattenSubs tree)) by (simpl; right; left; reflexivity).
  assert (H3 : id a = "a"%string) by reflexivity.
  split; [exact H1|]. split; [exact H2|]. split; [exact H3|].
  split; [reflexivity|].
  exact (proj2 (remove_subtree_size tree "a" a H1 H2 H3)).
Defined.

(** ** Id collisions *)

Lemma reached_at_length i u s :
  List.length (reached_at i u s) = List.length (flattenSub s).
Proof.
  revert u. induction s as [j t c cs IH] using SubtaskNode_forall_ind.
  intros u. simpl. f_equal.
  induction IH as [|y l Hy _ IHl]; [reflexivity|].
  simpl. rewrite !length_app. now rewrite Hy, IHl.
Qed.

Lemma reached_length i subs :
  List.length (reached i subs) = List.length (flattenSubs subs).
Proof.
  unfold reached, flattenSubs.
  induction subs as [|s l IH]; [reflexivity|].
  simpl. rewrite !length_app. now rewrite reached_at_length, IH.
Qed.

Lemma flip_where_app f1 f2 m1 m2 :
  List.length f1 = List.length m1 ->
  flip_where (f1 ++ f2) (m1 ++ m2) = flip_where f1 m1 ++ flip_where f2 m2.
Proof.
  revert m1. induction f1 as [|a f1 IH]; intros [|b m1] H;
    try discriminate H; [reflexivity|].
  unfold flip_where in *. simpl. f_equal. apply IH. now injection H.
Qed.

(** Below a node that carries the id nothing is reached. *)
Lemma reached_at_under i s :
  flip_where (map completed (flattenSub s)) (reached_at i true s)
  = map completed (flattenSub s).
Proof.
  induction s as [j t c cs IH] using SubtaskNode_forall_ind.
  simpl. rewrite andb_false_r.
  change (flip_where (c :: ?f) (false :: ?m)) with (xorb c false :: flip_where f m).
  rewrite xorb_false_r. f_equal.
  induction IH as [|y l Hy _ IHl]; [reflexivity|].
  simpl. rewrite !map_app, flip_where_app.
  - now rewrite Hy, IHl.
  - now rewrite length_map, reached_at_length.
Qed.

Lemma reached_under_list i l :
  flip_where (map completed (flattenSubs l)) (flat_map (reached_at i true) l)
  = map completed (flattenSubs l).
Proof.
  unfold flattenSubs. induction l as [|y l IHl]; [reflexivity|].
  simpl. rewrite !map_app, flip_where_app.
  - now rewrite reached_at_under, IHl.
  - now rewrite length_map, reached_at_length.
Qed.

Lemma reached_at_under_none i s :
  filter (fun b : bool => b) (reached_at i true s) = [].
Proof.
  induction s as [j t c cs IH] using SubtaskNode_forall_ind.
  simpl. rewrite andb_false_r.
  induction IH as [|y l Hy _ IHl]; [reflexivity|].
  simpl. rewrite filter_app. now rewrite Hy, IHl.
Qed.

Lemma hits_under_none i l :
  filter (fun b : bool => b) (flat_map (reached_at i true) l) = [].
Proof.
  induction l as [|y l IHl]; [reflexivity|].
  simpl. rewrite filter_app. now rewrite reached_at_under_none, IHl.
Qed.

Lemma hits_cons i s rest : hits i (s :: rest) = hits i [s] + hits i rest.
Proof.
  unfold hits, reached. simpl. rewrite app_nil_r, filter_app, length_app.
  reflexivity.
Qed.

Lemma hits_single i j t c cs :
  hits i [mkSub j t c cs] =
  if String.eqb j i then 1 else hits i cs.
Proof.
  unfold hits, reached. simpl. rewrite app_nil_r, andb_true_r.
  destruct (String.eqb j i); simpl.
  - now rewrite hits_under_none.
  - reflexivity.
Qed.

(** *** Toggling reaches every exposed match *)

Lemma toggle_flags_list i l :
  Forall (fun s => map completed (flattenSub (toggleSub_at i s))
                   = flip_where (map completed (flattenSub s))
                                (reached_at i false s)) l ->
  map completed (flattenSubs (toggleSubById l i))
  = flip_where (map completed (flattenSubs l)) (reached i l).
Proof.
  unfold flattenSubs, toggleSubById, reached.
  induction 1 as [|y l Hy _ IHl]; [reflexivity|].
  simpl. rewrite !map_app, flip_where_app.
  - now rewrite Hy, IHl.
  - now rewrite length_map, reached_at_length.
Qed.

Lemma toggle_flags_at i s :
  map completed (flattenSub (toggleSub_at i s))
  = flip_where (map completed (flattenSub s)) (reached_at i false s).
Proof.
  induction s as [j t c cs IH] using SubtaskNode_forall_ind.
  rewrite toggleSub_at_eq.
  cbn [reached_at flattenSub map completed].
  change (flip_where (c :: ?f) (?b :: ?m)) with (xorb c b :: flip_where f m).
  destruct (String.eqb j i) eqn:E; cbn [orb andb negb].
  - rewrite flattenSub_eq. cbn [map completed children].
    rewrite xorb_true_r. f_equal.
    symmetry. apply reached_under_list.
  - rewrite xorb_false_r.
    destruct cs as [|x cs]; [reflexivity|].
    rewrite flattenSub_eq. cbn [map completed children]. f_equal.
    exact (toggle_flags_list i (x :: cs) IH).
Qed.

Lemma toggle_names_at i s :
  map (fun n => (id n, title n)) (flattenSub (toggleSub_at i s))
  = map (fun n => (id n, title n)) (flattenSub s).
Proof.
  induction s as [j t c cs IH] using SubtaskNode_forall_ind.
  rewrite toggleSub_at_eq.
  destruct (String.eqb j i); [reflexivity|].
  destruct cs as [|x cs]; [reflexivity|].
  rewrite !flattenSub_eq. cbn [map id title children]. f_equal.
  unfold toggleSubById, flattenSubs.
  induction IH as [|y l Hy _ IHl]; [reflexivity|].
  simpl. rewrite !map_app. now rewrite Hy, IHl.
Qed.

(** *** Adding a child reaches every exposed match *)

Lemma addChild_count_list i child l :
  Forall (fun s => countAllSubs [addChildSub_at i child s]
                   = countAllSubs [s] + hits i [s] * countAllSubs [child]) l ->
  countAllSubs (addChildSub l i child)
  = countAllSubs l + hits i l * countAllSubs [child].
Proof.
  unfold addChildSub.
  induction 1 as [|y l Hy _ IHl]; [reflexivity|].
  cbn [map].
  rewrite (countAllSubs_split y l),
    (countAllSubs_split (addChildSub_at i child y) (map (addChildSub_at i child) l)),
    (hits_cons i y l), Hy, IHl.
  lia.
Qed.

Lemma addChild_count_at i child s :
  countAllSubs [addChildSub_at i child s]
  = countAllSubs [s] + hits i [s] * countAllSubs [child].
Proof.
  induction s as [j t c cs IH] using SubtaskNode_forall_ind.
  rewrite addChildSub_at_eq, hits_single.
  destruct (String.eqb j i).
  - rewrite (countAllSubs_single (mkSub j t c (cs ++ [child]))),
      (countAllSubs_single (mkSub j t c cs)).
    cbn [children]. unfold countAllSubs at 1.
    rewrite flattenSubs_app, length_app. fold (countAllSubs cs).
    fold (countAllSubs [child]). lia.
  - destruct cs as [|x cs]; [reflexivity|].
    rewrite (countAllSubs_single (mkSub j t c (addChildSub (x :: cs) i child))),
      (countAllSubs_single (mkSub j t c (x :: cs))).
    cbn [children].
    rewrite (addChild_count_list i child (x :: cs) IH). lia.
Qed.

(** *** Removing takes every match *)

Lemma survivors_cons i s rest :
  survivors i (s :: rest) =
  (if String.eqb (id s) i then []
   else s :: survivors i (children s)) ++ survivors i rest.
Proof. unfold survivors. destruct s as [j t c cs]. reflexivity. Qed.

Lemma remove_labels_list i l :
  Forall (fun s => String.eqb (id s) i = false ->
                   map label (flattenSub (removeSub_at i s))
                   = map label (survivors_at i s)) l ->
  map label (flattenSubs (removeSubById l i)) = map label (survivors i l).
Proof.
  induction 1 as [|y l Hy _ IHl]; [reflexivity|].
  rewrite removeSubById_cons, survivors_cons.
  destruct (String.eqb (id y) i) eqn:E; [exact IHl|].
  unfold flattenSubs in *. cbn [flat_map]. rewrite !map_app.
  rewrite Hy, IHl by reflexivity. f_equal.
  destruct y as [j t c cs]. cbn [id] in E. cbn [survivors_at]. now rewrite E.
Qed.

Lemma remove_labels_at i s :
  String.eqb (id s) i = false ->
  map label (flattenSub (removeSub_at i s)) = map label (survivors_at i s).
Proof.
  induction s as [j t c cs IH] using SubtaskNode_forall_ind.
  cbn [id]. intros E. rewrite removeSub_at_eq. cbn [survivors_at]. rewrite E.
  destruct cs as [|x cs]; [reflexivity|].
  rewrite flattenSub_eq. cbn [map children]. f_equal.
  exact (remove_labels_list i (x :: cs) IH).
Qed.

Lemma survivors_at_named i s :
  Forall (fun n => id n <> i) (survivors_at i s).
Proof.
  induction s as [j t c cs IH] using SubtaskNode_forall_ind.
  cbn [survivors_at]. destruct (String.eqb j i) eqn:E; [constructor|].
  constructor; [now apply String.eqb_neq in E|].
  induction IH as [|y l Hy _ IHl]; [constructor|].
  simpl. apply Forall_app. now split.
Qed.

Lemma survivors_named i subs : Forall (fun n => id n <> i) (survivors i subs).
Proof.
  unfold survivors. induction subs as [|s l IH]; [constructor|].
  simpl. apply Forall_app. split; [apply survivors_at_named | exact IH].
Qed.

Lemma remove_labels i subs :
  map label (flattenSubs (removeSubById subs i)) = map label (survivors i subs).
Proof.
  apply remove_labels_list, Forall_all. intros s. apply remove_labels_at.
Qed.

Lemma remove_all_matches i subs : occurrences i (removeSubById subs i) = 0.
Proof.
  unfold occurrences. apply count_occ_not_In.
  replace (map id (flattenSubs (removeSubById subs i)))
    with (map (fun l => fst (fst l)) (map label (flattenSubs (removeSubById subs i))))
    by (rewrite map_map; reflexivity).
  rewrite remove_labels, map_map. cbn [label fst].
  intros Hin. apply in_map_iff in Hin. destruct Hin as [n [Hn Hin]].
  pose proof (survivors_named i subs) as F.
  rewrite Forall_forall in F. exact (F n Hin Hn).
Qed.

Lemma toggle_flags i subs :
  map completed (flattenSubs (toggleSubById subs i))
  = flip_where (map completed (flattenSubs subs)) (reached i subs).
Proof. apply toggle_flags_list, Forall_all. intros s. apply toggle_flags_at. Qed.

Lemma toggle_names i subs :
  map (fun n => (id n, title n)) (flattenSubs (toggleSubById subs i))
  = map (fun n => (id n, title n)) (flattenSubs subs).
Proof.
  unfold toggleSubById, flattenSubs.
  induction subs as [|s l IH]; [reflexivity|].
  simpl. rewrite !map_app. now rewrite toggle_names_at, IH.
Qed.

Lemma addChild_count i child subs :
  countAllSubs (addChildSub subs i child)
  = countAllSubs subs + hits i subs * countAllSubs [child].
Proof.
  apply addChild_count_list, Forall_all. intros s. apply addChild_count_at.
Qed.

(** *** The by-id operations, position by position *)

Lemma addChildSub_at_label i child s : label (addChildSub_at i child s) = label s.
Proof.
  destruct s as [j t c cs]. rewrite addChildSub_at_eq.
  destruct (String.eqb j i); [reflexivity|]. destruct cs; reflexivity.
Qed.

Lemma addChildSub_at_kids i child s :
  children (addChildSub_at i child s)
  = if String.eqb (id s) i then children s ++ [child]
    else addChildSub (children s) i child.
Proof.
  destruct s as [j t c cs]. rewrite addChildSub_at_eq. cbn [id children].
  destruct (String.eqb j i); [reflexivity|]. destruct cs; reflexivity.
Qed.

Lemma toggleSub_at_kids i s :
  children (toggleSub_at i s)
  = if String.eqb (id s) i then children s else toggleSubById (children s) i.
Proof.
  destruct s as [j t c cs]. rewrite toggleSub_at_eq. cbn [id children].
  destruct (String.eqb j i); [reflexivity|]. destruct cs; reflexivity.
Qed.

Lemma toggleSub_at_flag i s :
  completed (toggleSub_at i s) = xorb (completed s) (String.eqb (id s) i).
Proof.
  destruct s as [j t c cs]. rewrite toggleSub_at_eq. cbn [id completed].
  destruct (String.eqb j i).
  - cbn [completed]. now rewrite xorb_true_r.
  - rewrite xorb_false_r. destruct cs; reflexivity.
Qed.

Lemma toggleSub_at_name i s :
  id (toggleSub_at i s) = id s /\ title (toggleSub_at i s) = title s.
Proof.
  destruct s as [j t c cs]. rewrite toggleSub_at_eq.
  destruct (String.eqb j i); [split; reflexivity|]. destruct cs; split; reflexivity.
Qed.

Lemma node_at_app path l extra n :
  node_at path l = Some n -> node_at path (l ++ extra) = Some n.
Proof.
  destruct path as [|k rest]; [discriminate|]. cbn [node_at].
  destruct (nth_error l k) as [m|] eqn:E; [|discriminate].
  rewrite nth_error_app1 by (apply nth_error_Some; congruence).
  now rewrite E.
Qed.

(** Every node of the tree is found at its position after [addChildSub],
    with its id, title and flag; below a node that carries the id nothing
    has changed; a node that carries the id and lies below no such node
    has the child as its new last child, after its own children; every
    other node has as many children as before. *)
Lemma addChildSub_at_position i child path :
  forall subs n,
    node_at path subs = Some n ->
    exists n',
      node_at path (addChildSub subs i child) = Some n'
      /\ label n' = label n
      /\ (covered i path subs = true -> n' = n)
      /\ (exposed i path subs = true -> children n' = children n ++ [child])
      /\ (exposed i path subs = false ->
          List.length (children n') = List.length (children n)).
Proof.
  induction path as [|k rest IH]; intros subs n Hn; [discriminate|].
  unfold exposed. rewrite Hn. cbn [node_at covered] in *.
  unfold addChildSub at 1. rewrite nth_error_map.
  destruct (nth_error subs k) as [m|] eqn:Ek; [|discriminate].
  cbn [option_map].
  destruct rest as [|k' rest'].
  - injection Hn as <-.
    exists (addChildSub_at i child m).
    split; [reflexivity|]. split; [apply addChildSub_at_label|].
    split; [discriminate|].
    rewrite andb_true_r, addChildSub_at_kids.
    destruct (String.eqb (id m) i); split; try discriminate; try reflexivity.
    intros _. unfold addChildSub. apply length_map.
  - rewrite addChildSub_at_kids.
    destruct (String.eqb (id m) i) eqn:Em.
    + exists n. split; [now apply node_at_app|]. split; [reflexivity|].
      split; [reflexivity|]. cbn [orb negb]. rewrite andb_false_r.
      split; [discriminate | reflexivity].
    + destruct (IH (children m) n Hn) as [n' [H1 [H2 [H3 [H4 H5]]]]].
      exists n'. split; [exact H1|]. split; [exact H2|].
      cbn [orb]. split; [exact H3|].
      unfold exposed in H4, H5. rewrite Hn in H4, H5.
      split; assumption.
Qed.

(** The same for [toggleSubById]: the flag is flipped exactly on the
    nodes that carry the id and lie below no node that carries it. *)
Lemma toggleSubById_at_position i path :
  forall subs n,
    node_at path subs = Some n ->
    exists n',
      node_at path (toggleSubById subs i) = Some n'
      /\ id n' = id n /\ title n' = title n
      /\ completed n' = xorb (completed n) (exposed i path subs)
      /\ List.length (children n') = List.length (children n)
      /\ (covered i path subs = true -> n' = n).
Proof.
  induction path as [|k rest IH]; intros subs n Hn; [discriminate|].
  unfold exposed. rewrite Hn. cbn [node_at covered] in *.
  unfold toggleSubById at 1. rewrite nth_error_map.
  destruct (nth_error subs k) as [m|] eqn:Ek; [|discriminate].
  cbn [option_map].
  destruct rest as [|k' rest'].
  - injection Hn as <-.
    exists (toggleSub_at i m).
    destruct (toggleSub_at_name i m) as [Hid Ht].
    split; [reflexivity|]. split; [exact Hid|]. split; [exact Ht|].
    rewrite andb_true_r. split; [apply toggleSub_at_flag|].
    split; [|discriminate].
    rewrite toggleSub_at_kids.
    destruct (String.eqb (id m) i); [reflexivity|].
    unfold toggleSubById. apply length_map.
  - rewrite toggleSub_at_kids.
    destruct (String.eqb (id m) i) eqn:Em.
    + exists n. split; [exact Hn|]. split; [reflexivity|]. split; [reflexivity|].
      cbn [orb negb]. rewrite andb_false_r, xorb_false_r.
      split; [reflexivity|]. split; reflexivity.
    + destruct (IH (children m) n Hn) as [n' [H1 [H2 [H3 [H4 [H5 H6]]]]]].
      exists n'. split; [exact H1|]. split; [exact H2|]. split; [exact H3|].
      cbn [orb]. unfold exposed in H4. rewrite Hn in H4.
      split; [exact H4|]. split; [exact H5 | exact H6].
Qed.

Lemma remove_outline_list i d l :
  Forall (fun s => forall d, String.eqb (id s) i = false ->
                   outline_at d (removeSub_at i s) = kept_at i d s) l ->
  flat_map (outline_at d) (removeSubById l i) = flat_map (kept_at i d) l.
Proof.
  induction 1 as [|y l Hy _ IHl]; [reflexivity|].
  rewrite removeSubById_cons. cbn [flat_map].
  destruct (String.eqb (id y) i) eqn:E.
  - rewrite IHl. destruct y as [j t c cs]. cbn [id] in E. cbn [kept_at].
    now rewrite E.
  - cbn [flat_map]. now rewrite Hy, IHl.
Qed.

Lemma remove_outline_at i s :
  forall d, String.eqb (id s) i = false ->
            outline_at d (removeSub_at i s) = kept_at i d s.
Proof.
  induction s as [j t c cs IH] using SubtaskNode_forall_ind.
  intros d E. cbn [id] in E.
  rewrite removeSub_at_children. cbn [outline_at kept_at]. rewrite E.
  f_equal. now apply remove_outline_list.
Qed.

Lemma remove_outline i subs : outline (removeSubById subs i) = kept i subs.
Proof.
  apply remove_outline_list, Forall_all. intros s. apply remove_outline_at.
Qed.

(** C2, as the code has it.  On an id collision the by-id operations do
    not stop at the first match; they reach every node that carries the
    id and has no ancestor carrying it.

    [toggleSubById] flips the flag of exactly these nodes: every node of
    the tree is found at its position afterwards, with its id, its title
    and as many children, and with its flag flipped if it is one of them
    and unchanged if it is not.

    [addChildSub] appends the child as the last child of each of these
    nodes, after the children the node has, which are unchanged: every
    node of the tree is found at its position afterwards, with its id,
    title and flag; the nodes below a node that carries the id are
    unchanged; the other nodes have as many children as before; and the
    tree grows by the size of the child once per node reached, so there
    is nothing new but these children.

    [removeSubById] removes every node that carries the id, with all the
    nodes below it: no node carrying the id is left, and what remains are
    the nodes that neither carry the id nor lie below a node that does,
    in their order and at their depth, with their ids, titles and
    flags. *)
Theorem byId_reaches_every_exposed_match (subs : list SubtaskNode)
  (i : string) (child : SubtaskNode) :
  (map completed (flattenSubs (toggleSubById subs i))
   = flip_where (map completed (flattenSubs subs)) (reached i subs)
   /\ map (fun n => (id n, title n)) (flattenSubs (toggleSubById subs i))
      = map (fun n => (id n, title n)) (flattenSubs subs)
   /\ (forall path n,
          node_at path subs = Some n ->
          exists n',
            node_at path (toggleSubById subs i) = Some n'
            /\ id n' = id n /\ title n' = title n
            /\ completed n' = xorb (completed n) (exposed i path subs)
            /\ List.length (children n') = List.length (children n)
            /\ (covered i path subs = true -> n' = n)))
  /\ (countAllSubs (addChildSub subs i child)
      = countAllSubs subs + hits i subs * countAllSubs [child]
      /\ (forall path n,
             node_at path subs = Some n ->
             exists n',
               node_at path (addChildSub subs i child) = Some n'
               /\ label n' = label n
               /\ (covered i path subs = true -> n' = n)
               /\ (exposed i path subs = true ->
                   children n' = children n ++ [child])
               /\ (exposed i path subs = false ->
                   List.length (children n') = List.length (children n))))
  /\ (occurrences i (removeSubById subs i) = 0
      /\ map label (flattenSubs (removeSubById subs i))
         = map label (survivors i subs)
      /\ outline (removeSubById subs i) = kept i subs).
Proof.
  split; [split; [|split]|split; [split|split; [|split]]].
  - apply toggle_flags.
  - apply toggle_names.
  - intros path n. apply toggleSubById_at_position.
  - apply addChild_count.
  - intros path n. apply addChildSub_at_position.
  - apply remove_all_matches.
  - apply remove_labels.
  - apply remove_outline.
Qed.

(** C2 as stated fails: with two siblings named "a", toggling "a" flips
    the second as well as the first, removing "a" removes both, and a
    child added under "a" is added under both. *)
Lemma first_match_only_counterexample :
  let tree := [mkSub "a" "first" false []; mkSub "a" "second" false []] in
  let child := mkSub "n" "new" false [] in
  occurrences "a" tree = 2 /\
  toggleFirstById tree "a"
    = [mkSub "a" "first" true []; mkSub "a" "second" false []] /\
  toggleSubById tree "a"
    = [mkSub "a" "first" true []; mkSub "a" "second" true []] /\
  toggleSubById tree "a" <> toggleFirstById tree "a" /\
  removeSubById tree "a" = [] /\
  addChildSub tree "a" child
    = [mkSub "a" "first" false [child]; mkSub "a" "second" false [child]].
Proof.
  cbv zeta. repeat split; try reflexivity.
  intros H. discriminate H.
Qed.

(** ** [JSON.parse] after [JSON.stringify] *)

Module JSONFacts.
Import JSON.

Lemma text_of_chars s : text_of (chars s) = s.
Proof. apply string_of_list_ascii_of_string. Qed.

Lemma chars_text_of cs : chars (text_of cs) = cs.
Proof. apply list_ascii_of_string_of_list_ascii. Qed.

Lemma skip_ws_head c cs : is_ws c = false -> skip_ws (c :: cs) = c :: cs.
Proof. intros H. simpl. now rewrite H. Qed.

(** *** Strings *)

Lemma parse_escape_char c tl :
  parse_string_body (escape_char c ++ tl) = prepend [c] (parse_string_body tl).
Proof.
  destruct c as [[] [] [] [] [] [] [] []]; reflexivity.
Qed.

Lemma parse_string_escaped cs rest :
  parse_string_body (flat_map escape_char cs ++ dquote :: rest) = Some (cs, rest).
Proof.
  induction cs as [|c cs IH]; [reflexivity|].
  simpl flat_map. rewrite <- app_assoc, parse_escape_char, IH. reflexivity.
Qed.

Lemma parse_quote s rest :
  parse_string_body (tl (quote s) ++ rest) = Some (chars s, rest).
Proof.
  unfold quote. cbn [tl]. rewrite <- app_assoc. apply parse_string_escaped.
Qed.

(** *** Numbers *)

Lemma span_digits_app ds tl :
  Forall (fun c => is_digit c = true) ds ->
  match tl with [] => True | c :: _ => is_digit c = false end ->
  span_digits (ds ++ tl) = (ds, tl).
Proof.
  intros Hd Ht. induction Hd as [|c ds Hc _ IH].
  - destruct tl as [|c tl]; [reflexivity|]. simpl. now rewrite Ht.
  - simpl. now rewrite Hc, IH.
Qed.

Lemma digits_val_snoc ds d :
  digits_val (ds ++ [d]) = (10 * digits_val ds + digit_val d)%Z.
Proof. unfold digits_val. now rewrite fold_left_app. Qed.

Lemma digit_char k :
  (k < 10)%N ->
  is_digit (ascii_of_N (48 + k)) = true /\
  digit_val (ascii_of_N (48 + k)) = Z.of_N k /\
  (Ascii.eqb (ascii_of_N (48 + k)) "0" = true -> k = 0%N).
Proof.
  intros H.
  assert (C : In k [0;1;2;3;4;5;6;7;8;9]%N).
  { destruct k as [|p]; [now left|].
    do 9 (destruct p as [p|p|]; try lia; simpl; auto 11). }
  simpl in C.
  repeat (destruct C as [<-|C]; [repeat split; try reflexivity; discriminate|]).
  destruct C.
Qed.

Lemma digits_fuel_spec fuel :
  forall n acc, (n < 2 ^ N.of_nat fuel)%N -> 0 < fuel ->
  exists ds, digits_of_pos_fuel fuel n acc = ds ++ acc /\ digits_for n ds.
Proof.
  induction fuel as [|f IH]; intros n acc Hn Hf; [inversion Hf|].
  clear Hf.
  - cbn [digits_of_pos_fuel].
    assert (Hmod : (n mod 10 < 10)%N) by (apply N.mod_lt; lia).
    destruct (digit_char (n mod 10) Hmod) as [Hd [Hv Hz]].
    destruct (N.ltb_spec n 10) as [Hlt|Hge].
    + exists [ascii_of_N (48 + n mod 10)]. split; [reflexivity|].
      rewrite N.mod_small in * by exact Hlt.
      split; [|split].
      * constructor; [exact Hd | constructor].
      * unfold digits_val. cbn [fold_left]. rewrite Hv. lia.
      * eexists _, []. split; reflexivity.
    + rewrite Nat2N.inj_succ, N.pow_succ_r' in Hn.
      assert (Hdiv : (n / 10 < 2 ^ N.of_nat f)%N).
      { apply N.Div0.div_lt_upper_bound. lia. }
      assert (Hf : 0 < f).
      { destruct f; [|lia]. simpl in Hdiv.
        assert (1 <= n / 10)%N by (apply N.div_le_lower_bound; lia). lia. }
      destruct (IH (n / 10)%N (ascii_of_N (48 + n mod 10) :: acc) Hdiv Hf)
        as [ds' [Eq [Hall [Hval [c [tl [Hds Hzero]]]]]]].
      exists (ds' ++ [ascii_of_N (48 + n mod 10)]). split.
      { rewrite Eq, <- app_assoc. reflexivity. }
      split; [|split].
      * apply Forall_app. split; [exact Hall|]. constructor; [exact Hd|constructor].
      * rewrite digits_val_snoc, Hval, Hv.
        pose proof (N.div_mod n 10). lia.
      * subst ds'. exists c, (tl ++ [ascii_of_N (48 + n mod 10)]).
        split; [reflexivity|]. intros Hc. exfalso.
        specialize (Hzero Hc). subst tl.
        apply Ascii.eqb_eq in Hc. subst c.
        change (digits_val ["0"%char]) with 0%Z in Hval.
        assert (1 <= n / 10)%N by (apply N.div_le_lower_bound; lia).
        lia.
Qed.

Lemma digits_of_N_spec n : digits_for n (digits_of_N n).
Proof.
  unfold digits_of_N.
  destruct (digits_fuel_spec (S (N.to_nat (N.log2 n))) n []) as [ds [Eq H]].
  - rewrite Nat2N.inj_succ, N2Nat.id.
    destruct n as [|p]; [reflexivity|].
    apply N.log2_spec. reflexivity.
  - lia.
  - rewrite Eq, app_nil_r. exact H.
Qed.

Lemma digits_for_nonempty n ds :
  digits_for n ds ->
  match ds with [] => true | _ :: _ => starts_with_zero ds end = false.
Proof.
  intros [_ [_ [c [tl [-> Hz]]]]].
  destruct tl as [|x tl]; [reflexivity|]. simpl.
  destruct (Ascii.eqb c "0"); [|reflexivity].
  discriminate (Hz eq_refl).
Qed.

Lemma digits_for_head n ds :
  digits_for n ds ->
  exists c tl, ds = c :: tl /\ is_digit c = true.
Proof.
  intros [Hall [_ [c [tl [-> _]]]]]. exists c, tl. split; [reflexivity|].
  now inversion Hall.
Qed.

Lemma number_end_digit rest :
  number_end rest = true ->
  match rest with [] => True | c :: _ => is_digit c = false end.
Proof.
  destruct rest as [|c rest]; [trivial|]. simpl.
  destruct (is_digit c); [discriminate | reflexivity].
Qed.

Lemma parse_frac_none rest :
  match rest with [] => True | c :: _ => Ascii.eqb c "." = false end ->
  parse_frac rest = Some ([], rest).
Proof. destruct rest as [|c rest]; [reflexivity|]. simpl. now intros ->. Qed.

Lemma digits_of_Z_split z :
  digits_of_Z z =
  (if Z.ltb z 0 then ["-"%char] else []) ++ digits_of_N (Z.abs_N z).
Proof. unfold digits_of_Z. destruct (Z.ltb z 0); reflexivity. Qed.

Lemma parse_exp_none rest :
  number_end rest = true -> parse_exp rest = Some (0%Z, rest).
Proof.
  destruct rest as [|c rest]; [reflexivity|]. simpl.
  destruct (Ascii.eqb c "e"), (Ascii.eqb c "E");
    rewrite ?andb_false_r; try discriminate. reflexivity.
Qed.

Lemma parse_exp_text e rest :
  number_end rest = true ->
  parse_exp ("e"%char :: digits_of_Z e ++ rest) = Some (e, rest).
Proof.
  intros Hr. cbn [parse_exp Ascii.eqb Bool.eqb orb].
  change (Ascii.eqb "e" "e") with true. cbn [orb].
  rewrite digits_of_Z_split, <- app_assoc.
  destruct (digits_of_N_spec (Z.abs_N e)) as [Hall [Hval Hhead]].
  destruct (digits_for_head _ _ (digits_of_N_spec (Z.abs_N e)))
    as [c [tl [Hds Hc]]].
  pose proof (span_digits_app _ rest Hall (number_end_digit rest Hr)) as Hspan.
  destruct (Z.ltb_spec e 0) as [Hneg|Hpos].
  - cbn [app]. change (Ascii.eqb "-" "-") with true. cbn iota.
    rewrite Hspan, Hds. rewrite <- Hds, Hval. do 2 f_equal. lia.
  - cbn [app]. rewrite Hds. cbn [app].
    replace (Ascii.eqb c "-") with false.
    2:{ symmetry. apply Ascii.eqb_neq. intros ->. discriminate Hc. }
    replace (Ascii.eqb c "+") with false.
    2:{ symmetry. apply Ascii.eqb_neq. intros ->. discriminate Hc. }
    change (c :: tl ++ rest) with ((c :: tl) ++ rest).
    rewrite <- Hds, Hspan, Hds. rewrite <- Hds, Hval. do 2 f_equal. lia.
Qed.

Lemma parse_number_text m e rest :
  number_end rest = true ->
  parse_number (number_text m e ++ rest) = Some (JNum m e, rest).
Proof.
  intros Hr. unfold number_text.
  set (tail := if Z.eqb e 0 then rest else "e"%char :: digits_of_Z e ++ rest).
  assert (Etext : (if Z.eqb e 0 then digits_of_Z m
                   else digits_of_Z m ++ "e"%char :: digits_of_Z e) ++ rest
                  = digits_of_Z m ++ tail).
  { unfold tail. destruct (Z.eqb e 0); [reflexivity|].
    rewrite <- app_assoc. reflexivity. }
  rewrite Etext. clear Etext.
  assert (Hexp : parse_exp tail = Some (e, rest)).
  { unfold tail. destruct (Z.eqb_spec e 0) as [->|_].
    - now apply parse_exp_none.
    - now apply parse_exp_text. }
  assert (Htail : match tail with
                  | [] => True
                  | c :: _ => is_digit c = false /\ Ascii.eqb c "." = false
                  end).
  { unfold tail. destruct (Z.eqb e 0).
    - destruct rest as [|c rest]; [trivial|]. simpl in Hr.
      destruct (is_digit c), (Ascii.eqb c "."); try discriminate. now split.
    - now split. }
  destruct (digits_of_N_spec (Z.abs_N m)) as [Hall [Hval Hhead]].
  destruct (digits_for_head _ _ (digits_of_N_spec (Z.abs_N m)))
    as [c [tl [Hds Hc]]].
  assert (Hspan : span_digits (digits_of_N (Z.abs_N m) ++ tail)
                  = (digits_of_N (Z.abs_N m), tail)).
  { apply span_digits_app; [exact Hall|].
    destruct tail; [trivial|]. apply Htail. }
  assert (Hfrac : parse_frac tail = Some ([], tail)).
  { apply parse_frac_none. destruct tail; [trivial|]. apply Htail. }
  pose proof (digits_for_nonempty _ _ (digits_of_N_spec (Z.abs_N m))) as Hne.
  rewrite digits_of_Z_split, <- app_assoc.
  unfold parse_number.
  destruct (Z.ltb_spec m 0) as [Hneg|Hpos].
  - cbn [app]. change (Ascii.eqb "-" "-") with true. cbn iota.
    rewrite Hspan, Hne, Hfrac, Hexp, app_nil_r, Hval.
    cbn [List.length Z.of_nat]. do 2 f_equal. f_equal; lia.
  - cbn [app]. rewrite Hds. cbn [app].
    replace (Ascii.eqb c "-") with false.
    2:{ symmetry. apply Ascii.eqb_neq. intros ->. discriminate Hc. }
    change (c :: tl ++ tail) with ((c :: tl) ++ tail).
    rewrite <- Hds, Hspan, Hne, Hfrac, Hexp, app_nil_r, Hval.
    cbn [List.length Z.of_nat]. do 2 f_equal. f_equal; lia.
Qed.

(** *** Values *)

Lemma stringify_arr vs :
  stringify_chars (JArr vs) = "["%char :: items_text vs ++ ["]"%char].
Proof. reflexivity. Qed.

Lemma stringify_obj ms :
  stringify_chars (JObj ms) = "{"%char :: fields_text ms ++ ["}"%char].
Proof. reflexivity. Qed.

Lemma number_start_value c :
  is_digit c || Ascii.eqb c "-" = true -> value_start c = true.
Proof.
  destruct c as [[] [] [] [] [] [] [] []]; try discriminate; reflexivity.
Qed.

Lemma parse_value_number f c tl :
  is_digit c || Ascii.eqb c "-" = true ->
  parse_value (S f) (c :: tl) = parse_number (c :: tl).
Proof.
  destruct c as [[] [] [] [] [] [] [] []]; try discriminate; reflexivity.
Qed.

Lemma number_text_head m e :
  exists c tl, number_text m e = c :: tl /\
               is_digit c || Ascii.eqb c "-" = true.
Proof.
  destruct (digits_for_head _ _ (digits_of_N_spec (Z.abs_N m)))
    as [c [tl [Hds Hc]]].
  unfold number_text. rewrite digits_of_Z_split.
  destruct (Z.ltb m 0); cbn [app].
  - destruct (Z.eqb e 0); eexists _, _; split; reflexivity.
  - rewrite Hds. destruct (Z.eqb e 0); eexists _, _;
      (split; [reflexivity | now rewrite Hc]).
Qed.

Lemma stringify_head v :
  exists c tl, stringify_chars v = c :: tl /\ value_start c = true.
Proof.
  destruct v as [|[]|m e|s|vs|ms];
    try (eexists _, _; split; reflexivity).
  destruct (number_text_head m e) as [c [tl [E H]]].
  exists c, tl. split; [exact E | now apply number_start_value].
Qed.

Lemma value_start_skip c tl : value_start c = true -> skip_ws (c :: tl) = c :: tl.
Proof.
  intros H. apply skip_ws_head. unfold value_start in H.
  destruct (is_ws c); [discriminate | reflexivity].
Qed.

Lemma parse_elements_text vs :
  Forall roundtrips vs -> vs <> [] ->
  forall f rest,
    2 * List.length (items_text vs) + 1 <= f ->
    parse_elements f (items_text vs ++ "]"%char :: rest) = Some (vs, rest).
Proof.
  induction 1 as [|v vs Hv Hvs IH]; [congruence|]. intros _ f rest Hf.
  destruct f as [|f]; [lia|].
  cbn [items_text] in *. rewrite length_app in Hf.
  cbn [parse_elements]. rewrite <- app_assoc.
  destruct vs as [|w vs].
  - cbn [app]. rewrite (Hv f ("]"%char :: rest)) by (try reflexivity; lia).
    reflexivity.
  - cbn [app List.length] in *.
    rewrite (Hv f (","%char :: items_text (w :: vs) ++ "]"%char :: rest))
      by (try reflexivity; lia).
    rewrite skip_ws_head by reflexivity.
    change (Ascii.eqb "," ",") with true. cbn iota.
    rewrite IH by (try congruence; lia). reflexivity.
Qed.

Lemma parse_members_text ms :
  Forall (fun kv => roundtrips (snd kv)) ms -> ms <> [] ->
  forall f rest,
    2 * List.length (fields_text ms) + 1 <= f ->
    parse_members f (fields_text ms ++ "}"%char :: rest) = Some (ms, rest).
Proof.
  induction 1 as [|[k v] ms Hv Hms IH]; [congruence|]. intros _ f rest Hf.
  destruct f as [|f]; [lia|].
  cbn [fields_text snd] in *.
  rewrite length_app in Hf. cbn [List.length] in Hf. rewrite length_app in Hf.
  cbn [parse_members].
  unfold quote at 1. cbn [app skip_ws].
  change (is_ws dquote) with false. cbn iota.
  change (Ascii.eqb dquote dquote) with true. cbn iota.
  rewrite <- !app_assoc. cbn [app].
  rewrite parse_string_escaped, text_of_chars.
  cbn [skip_ws]. change (is_ws ":") with false. cbn iota.
  change (Ascii.eqb ":" ":") with true. cbn iota.
  rewrite <- app_assoc.
  destruct ms as [|w ms].
  - cbn [app]. rewrite (Hv f ("}"%char :: rest)) by (try reflexivity; lia).
    reflexivity.
  - cbn [app List.length] in *.
    rewrite (Hv f (","%char :: fields_text (w :: ms) ++ "}"%char :: rest))
      by (try reflexivity; lia).
    rewrite skip_ws_head by reflexivity.
    change (Ascii.eqb "," ",") with true. cbn iota.
    rewrite IH by (try congruence; lia). reflexivity.
Qed.

Lemma items_text_head v vs :
  exists c tl, items_text (v :: vs) = c :: tl /\ value_start c = true.
Proof.
  destruct (stringify_head v) as [c [tl [E H]]].
  cbn [items_text]. rewrite E. eexists _, _. split; [reflexivity | exact H].
Qed.

Lemma fields_text_head k v ms :
  exists tl, fields_text ((k, v) :: ms) = dquote :: tl.
Proof. cbn [fields_text]. unfold quote. eexists. reflexivity. Qed.

Lemma stringify_roundtrips v : roundtrips v.
Proof.
  induction v as [|b|m e|s|vs IH|ms IH] using json_forall_ind;
    intros f rest Hf Hr.
  - destruct f; [simpl in Hf; lia | reflexivity].
  - destruct b; (destruct f; [simpl in Hf; lia | reflexivity]).
  - cbn [stringify_chars] in *.
    destruct (number_text_head m e) as [c [tl [E H]]].
    destruct f as [|f]; [rewrite E in Hf; simpl in Hf; lia|].
    pose proof (parse_number_text m e rest Hr) as Hn.
    rewrite E in *. cbn [app] in *.
    rewrite parse_value_number by exact H. exact Hn.
  - destruct f; [simpl in Hf; lia|].
    cbn [stringify_chars]. unfold quote. cbn [app parse_value skip_ws].
    change (is_ws dquote) with false. cbn iota.
    change (Ascii.eqb dquote dquote) with true. cbn iota.
    rewrite <- app_assoc. cbn [app].
    rewrite parse_string_escaped, text_of_chars. reflexivity.
  - rewrite stringify_arr in *.
    destruct f as [|f]; [simpl in Hf; lia|].
    cbn [List.length] in Hf. rewrite length_app in Hf. cbn [List.length] in Hf.
    cbn [app]. rewrite <- app_assoc. cbn [app].
    destruct vs as [|v vs]; [reflexivity|].
    destruct (items_text_head v vs) as [c [tl [E H]]].
    pose proof (parse_elements_text (v :: vs) IH ltac:(congruence) f rest
                  ltac:(lia)) as He.
    rewrite E in *. cbn [app] in *.
    cbn [parse_value skip_ws]. change (is_ws "[") with false. cbn iota.
    change (Ascii.eqb "[" dquote) with false.
    change (Ascii.eqb "[" "[") with true. cbn iota.
    rewrite value_start_skip by exact H.
    unfold value_start in H.
    destruct (Ascii.eqb c "]"); [now rewrite andb_false_r in H|].
    rewrite He. reflexivity.
  - rewrite stringify_obj in *.
    destruct f as [|f]; [simpl in Hf; lia|].
    cbn [List.length] in Hf. rewrite length_app in Hf. cbn [List.length] in Hf.
    cbn [app]. rewrite <- app_assoc. cbn [app].
    destruct ms as [|[k v] ms]; [reflexivity|].
    pose proof (parse_members_text ((k, v) :: ms) IH ltac:(congruence) f rest
                  ltac:(lia)) as He.
    destruct (fields_text_head k v ms) as [tl E].
    rewrite E in *. cbn [app] in *.
    cbn [parse_value skip_ws]. change (is_ws "{") with false. cbn iota.
    change (Ascii.eqb "{" dquote) with false.
    change (Ascii.eqb "{" "[") with false.
    change (Ascii.eqb "{" "{") with true. cbn iota.
    rewrite skip_ws_head by reflexivity.
    change (Ascii.eqb dquote "}") with false. cbn iota.
    rewrite He. reflexivity.
Qed.

Theorem parse_stringify v : parse (stringify v) = Some v.
Proof.
  unfold parse, stringify. rewrite chars_text_of.
  pose proof (stringify_roundtrips v (2 * List.length (stringify_chars v) + 2) []
                ltac:(lia) eq_refl) as H.
  rewrite app_nil_r in H. rewrite H. reflexivity.
Qed.

(** *** The fuel of [parse] is enough for every text *)

Lemma skip_ws_length cs : List.length (skip_ws cs) <= List.length cs.
Proof.
  induction cs as [|c cs IH]; [reflexivity|]. simpl.
  destruct (is_ws c); simpl; lia.
Qed.

Lemma prepend_some p r s rest :
  prepend p r = Some (s, rest) -> exists s', r = Some (s', rest).
Proof.
  destruct r as [[s' rest']|]; [|discriminate]. simpl.
  intros [= _ <-]. now exists s'.
Qed.

Lemma parse_string_body_shorter n :
  forall cs s r, List.length cs <= n ->
                 parse_string_body cs = Some (s, r) ->
                 List.length r < List.length cs.
Proof.
  induction n as [|n IH]; intros cs s r Hn H.
  - destruct cs; [discriminate H | simpl in Hn; lia].
  - destruct cs as [|c cs]; [discriminate H|]. cbn [parse_string_body] in H.
    simpl in Hn.
    destruct (Ascii.eqb c dquote).
    { injection H as _ <-. simpl. lia. }
    destruct (Ascii.eqb c backslash).
    + destruct cs as [|x cs]; [discriminate H|].
      destruct (Ascii.eqb x "u").
      * destruct cs as [|h1 [|h2 [|h3 [|h4 cs]]]]; try discriminate H.
        destruct (hex4 h1 h2 h3 h4) as [n0|]; [|discriminate H].
        assert (Hplain : forall p,
                   prepend p (parse_string_body cs) = Some (s, r) ->
                   List.length r < List.length cs).
        { intros p H0. apply prepend_some in H0. destruct H0 as [s' H0].
          apply IH in H0; simpl in *; lia. }
        assert (Hgoal : List.length r < List.length cs -> 
                        List.length r < List.length (c :: x :: h1 :: h2 :: h3 :: h4 :: cs))
          by (simpl; lia).
        apply Hgoal.
        destruct (is_high_surrogate n0); [|exact (Hplain _ H)].
        destruct cs as [|b [|u [|g1 [|g2 [|g3 [|g4 cs4]]]]]];
          try exact (Hplain _ H).
        destruct (hex4 g1 g2 g3 g4) as [n1|]; [|exact (Hplain _ H)].
        destruct (Ascii.eqb b backslash && Ascii.eqb u "u" && is_low_surrogate n1);
          [|exact (Hplain _ H)].
        apply prepend_some in H. destruct H as [s' H].
        apply IH in H; simpl in *; lia.
      * destruct (unescape x); [|discriminate H].
        apply prepend_some in H. destruct H as [s' H].
        apply IH in H; simpl in *; lia.
    + destruct (Nat.ltb (nat_of_ascii c) 32); [discriminate H|].
      apply prepend_some in H. destruct H as [s' H].
      apply IH in H; simpl in *; lia.
Qed.

Lemma span_digits_length cs ds r :
  span_digits cs = (ds, r) ->
  List.length ds + List.length r = List.length cs.
Proof.
  revert ds r. induction cs as [|c cs IH]; intros ds r H; simpl in H.
  - injection H as <- <-. reflexivity.
  - destruct (is_digit c).
    + destruct (span_digits cs) as [ds' r'] eqn:E.
      injection H as <- <-. specialize (IH _ _ eq_refl). simpl. lia.
    + injection H as <- <-. reflexivity.
Qed.

Lemma parse_frac_length cs fs r :
  parse_frac cs = Some (fs, r) -> List.length r <= List.length cs.
Proof.
  unfold parse_frac. destruct cs as [|c cs].
  - intros [= <- <-]. reflexivity.
  - destruct (Ascii.eqb c ".").
    + destruct (span_digits cs) as [fs' r'] eqn:E.
      apply span_digits_length in E.
      destruct fs'; [discriminate|]. intros [= <- <-]. simpl in *. lia.
    + intros [= <- <-]. reflexivity.
Qed.

Lemma parse_exp_length cs ex r :
  parse_exp cs = Some (ex, r) -> List.length r <= List.length cs.
Proof.
  unfold parse_exp. destruct cs as [|c cs].
  - intros [= <- <-]. reflexivity.
  - destruct (Ascii.eqb c "e" || Ascii.eqb c "E").
    + assert (Hs : forall r1 eneg,
                 List.length r1 <= List.length cs ->
                 (let (es, r2) := span_digits r1 in
                  match es with
                  | [] => None
                  | _ :: _ =>
                      Some (if eneg : bool then (- digits_val es)%Z
                            else digits_val es, r2)
                  end) = Some (ex, r) ->
                 List.length r <= S (List.length cs)).
      { intros r1 eneg Hr1 H.
        destruct (span_digits r1) as [es r2] eqn:E.
        apply span_digits_length in E.
        destruct es; [discriminate|]. injection H as _ <-. simpl in *. lia. }
      destruct cs as [|s cs']; [apply (Hs [] false); simpl; lia|].
      destruct (Ascii.eqb s "-"); [apply (Hs cs' true); simpl; lia|].
      destruct (Ascii.eqb s "+"); [apply (Hs cs' false); simpl; lia|].
      apply (Hs (s :: cs') false). simpl; lia.
    + intros [= <- <-]. reflexivity.
Qed.

Lemma parse_number_shorter cs v r :
  parse_number cs = Some (v, r) -> List.length r < List.length cs.
Proof.
  unfold parse_number.
  set (sign := match cs with
               | [] => (false, cs)
               | c :: r0 => if Ascii.eqb c "-" then (true, r0) else (false, cs)
               end).
  assert (Hsign : List.length (snd sign) <= List.length cs).
  { unfold sign. destruct cs as [|c cs]; [reflexivity|].
    destruct (Ascii.eqb c "-"); simpl; lia. }
  destruct sign as [neg cs1]. cbn [snd] in Hsign.
  destruct (span_digits cs1) as [ds cs2] eqn:E.
  apply span_digits_length in E.
  destruct ds as [|d ds]; [discriminate|].
  destruct (starts_with_zero (d :: ds)); [discriminate|].
  destruct (parse_frac cs2) as [[fs cs3]|] eqn:Ef; [|discriminate].
  apply parse_frac_length in Ef.
  destruct (parse_exp cs3) as [[ex cs4]|] eqn:Ee; [|discriminate].
  apply parse_exp_length in Ee.
  intros [= _ <-]. simpl in *. lia.
Qed.

Lemma strip_prefix_length p cs r :
  strip_prefix p cs = Some r -> List.length r + List.length p = List.length cs.
Proof.
  revert cs. induction p as [|a p IH]; intros cs H.
  - simpl in H. injection H as <-. simpl; lia.
  - destruct cs as [|c cs]; [discriminate H|]. simpl in H.
    destruct (Ascii.eqb a c); [|discriminate H].
    apply IH in H. simpl. lia.
Qed.

Lemma parse_literal_shorter cs v r :
  parse_literal cs = Some (v, r) -> List.length r < List.length cs.
Proof.
  unfold parse_literal.
  destruct (strip_prefix (chars "null") cs) eqn:E1.
  { intros [= _ <-]. apply strip_prefix_length in E1. simpl in E1. lia. }
  destruct (strip_prefix (chars "true") cs) eqn:E2.
  { intros [= _ <-]. apply strip_prefix_length in E2. simpl in E2. lia. }
  destruct (strip_prefix (chars "false") cs) eqn:E3.
  { intros [= _ <-]. apply strip_prefix_length in E3. simpl in E3. lia. }
  apply parse_number_shorter.
Qed.

Lemma parse_string_shorter cs s r :
  parse_string_body cs = Some (s, r) -> List.length r < List.length cs.
Proof. apply (parse_string_body_shorter (List.length cs)). lia. Qed.

Lemma parse_shorter f :
  (forall cs v r, parse_value f cs = Some (v, r) ->
                  List.length r < List.length cs) /\
  (forall cs vs r, parse_elements f cs = Some (vs, r) ->
                   List.length r < List.length cs) /\
  (forall cs ms r, parse_members f cs = Some (ms, r) ->
                   List.length r < List.length cs).
Proof.
  induction f as [|f [IHv [IHe IHm]]];
    [repeat split; intros; discriminate|].
  split; [|split].
  - intros cs v r H. cbn [parse_value] in H.
    pose proof (skip_ws_length cs) as Hws.
    destruct (skip_ws cs) as [|c r0]; [discriminate H|]. simpl in Hws.
    destruct (Ascii.eqb c dquote).
    { destruct (parse_string_body r0) as [[s r']|] eqn:Es; [|discriminate H].
      apply parse_string_shorter in Es. injection H as _ <-. lia. }
    destruct (Ascii.eqb c "[").
    { pose proof (skip_ws_length r0) as Hws'.
      destruct (skip_ws r0) as [|c' r']; [discriminate H|]. simpl in Hws'.
      destruct (Ascii.eqb c' "]"); [injection H as _ <-; lia|].
      destruct (parse_elements f (c' :: r')) as [[vs r'']|] eqn:Ee;
        [|discriminate H].
      apply IHe in Ee. injection H as _ <-. simpl in Ee. lia. }
    destruct (Ascii.eqb c "{").
    { pose proof (skip_ws_length r0) as Hws'.
      destruct (skip_ws r0) as [|c' r']; [discriminate H|]. simpl in Hws'.
      destruct (Ascii.eqb c' "}"); [injection H as _ <-; lia|].
      destruct (parse_members f (c' :: r')) as [[ms r'']|] eqn:Em;
        [|discriminate H].
      apply IHm in Em. injection H as _ <-. simpl in Em. lia. }
    apply parse_literal_shorter in H. simpl in H. lia.
  - intros cs vs r H. cbn [parse_elements] in H.
    destruct (parse_value f cs) as [[v r1]|] eqn:Ev; [|discriminate H].
    apply IHv in Ev.
    pose proof (skip_ws_length r1) as Hws.
    destruct (skip_ws r1) as [|c r']; [discriminate H|]. simpl in Hws.
    destruct (Ascii.eqb c ",").
    { destruct (parse_elements f r') as [[vs' r'']|] eqn:Ee; [|discriminate H].
      apply IHe in Ee. injection H as _ <-. lia. }
    destruct (Ascii.eqb c "]"); [|discriminate H].
    injection H as _ <-. lia.
  - intros cs ms r H. cbn [parse_members] in H.
    pose proof (skip_ws_length cs) as Hws.
    destruct (skip_ws cs) as [|q r0]; [discriminate H|]. simpl in Hws.
    destruct (Ascii.eqb q dquote); [|discriminate H].
    destruct (parse_string_body r0) as [[k r1]|] eqn:Es; [|discriminate H].
    apply parse_string_shorter in Es.
    pose proof (skip_ws_length r1) as Hws1.
    destruct (skip_ws r1) as [|c1 r2]; [discriminate H|]. simpl in Hws1.
    destruct (Ascii.eqb c1 ":"); [|discriminate H].
    destruct (parse_value f r2) as [[v r3]|] eqn:Ev; [|discriminate H].
    apply IHv in Ev.
    pose proof (skip_ws_length r3) as Hws3.
    destruct (skip_ws r3) as [|c r4]; [discriminate H|]. simpl in Hws3.
    destruct (Ascii.eqb c ",").
    { destruct (parse_members f r4) as [[ms' r5]|] eqn:Em; [|discriminate H].
      apply IHm in Em. injection H as _ <-. lia. }
    destruct (Ascii.eqb c "}"); [|discriminate H].
    injection H as _ <-. lia.
Qed.

(** With fuel for twice the length of the text and a little more, the
    result does not depend on the fuel. *)
Lemma parse_fuel f :
  forall g,
    (forall cs, 2 * List.length cs + 2 <= f -> 2 * List.length cs + 2 <= g ->
                parse_value f cs = parse_value g cs) /\
    (forall cs, 2 * List.length cs + 3 <= f -> 2 * List.length cs + 3 <= g ->
                parse_elements f cs = parse_elements g cs) /\
    (forall cs, 2 * List.length cs + 3 <= f -> 2 * List.length cs + 3 <= g ->
                parse_members f cs = parse_members g cs).
Proof.
  induction f as [|f IH]; intros g;
    [repeat split; intros; lia|].
  destruct g as [|g]; [repeat split; intros; lia|].
  destruct (IH g) as [IHv [IHe IHm]].
  destruct (parse_shorter f) as [Sv _].
  split; [|split].
  - intros cs Hf Hg. cbn [parse_value].
    pose proof (skip_ws_length cs) as Hws.
    destruct (skip_ws cs) as [|c r0]; [reflexivity|]. simpl in Hws.
    destruct (Ascii.eqb c dquote); [reflexivity|].
    pose proof (skip_ws_length r0) as Hws'.
    destruct (Ascii.eqb c "[").
    { destruct (skip_ws r0) as [|c' r']; [reflexivity|]. simpl in Hws'.
      destruct (Ascii.eqb c' "]"); [reflexivity|].
      rewrite (IHe (c' :: r')) by (simpl; lia). reflexivity. }
    destruct (Ascii.eqb c "{"); [|reflexivity].
    destruct (skip_ws r0) as [|c' r']; [reflexivity|]. simpl in Hws'.
    destruct (Ascii.eqb c' "}"); [reflexivity|].
    rewrite (IHm (c' :: r')) by (simpl; lia). reflexivity.
  - intros cs Hf Hg. cbn [parse_elements].
    rewrite <- (IHv cs) by lia.
    destruct (parse_value f cs) as [[v r1]|] eqn:Ev; [|reflexivity].
    apply Sv in Ev.
    pose proof (skip_ws_length r1) as Hws.
    destruct (skip_ws r1) as [|c r']; [reflexivity|]. simpl in Hws.
    destruct (Ascii.eqb c ","); [|reflexivity].
    rewrite (IHe r') by lia. reflexivity.
  - intros cs Hf Hg. cbn [parse_members].
    pose proof (skip_ws_length cs) as Hws.
    destruct (skip_ws cs) as [|q r0]; [reflexivity|]. simpl in Hws.
    destruct (Ascii.eqb q dquote); [|reflexivity].
    destruct (parse_string_body r0) as [[k r1]|] eqn:Es; [|reflexivity].
    apply parse_string_shorter in Es.
    pose proof (skip_ws_length r1) as Hws1.
    destruct (skip_ws r1) as [|c1 r2]; [reflexivity|]. simpl in Hws1.
    destruct (Ascii.eqb c1 ":"); [|reflexivity].
    rewrite <- (IHv r2) by lia.
    destruct (parse_value f r2) as [[v r3]|] eqn:Ev; [|reflexivity].
    apply Sv in Ev.
    pose proof (skip_ws_length r3) as Hws3.
    destruct (skip_ws r3) as [|c r4]; [reflexivity|]. simpl in Hws3.
    destruct (Ascii.eqb c ","); [|reflexivity].
    rewrite (IHm r4) by lia. reflexivity.
Qed.

(** [parse] gives the result of the parser run with any larger fuel: it
    answers [None] only for a text that is not JSON. *)
Theorem parse_fuel_enough s f :
  2 * List.length (chars s) + 2 <= f ->
  parse s =
  match parse_value f (chars s) with
  | Some (v, r) => match skip_ws r with [] => Some v | _ :: _ => None end
  | None => None
  end.
Proof.
  intros Hf. unfold parse.
  now rewrite (proj1 (parse_fuel _ f) (chars s) (Nat.le_refl _) Hf).
Qed.


End JSONFacts.

(** ** The description codec *)

Lemma text_or_empty t : (if String.eqb t "" then ""%string else t) = t.
Proof. destruct (String.eqb_spec t ""); congruence. Qed.

Lemma stringify_nonempty v : String.eqb (JSON.stringify v) "" = false.
Proof.
  unfold JSON.stringify.
  destruct (JSONFacts.stringify_head v) as [c [tl [E _]]].
  rewrite E. reflexivity.
Qed.

(** Decoding the envelope of a non-empty subtask list gives back the text
    and the list. *)
Lemma parseDesc_encodeDesc_subtasks t s :
  s <> [] ->
  parseDesc (encodeDesc t s) = mkParsed (JStr t) (map node_to_json s).
Proof.
  intros Hs. destruct s as [|x s]; [congruence|].
  unfold encodeDesc. cbn [List.length Nat.eqb andb].
  rewrite text_or_empty. unfold parseDesc.
  rewrite stringify_nonempty, JSONFacts.parse_stringify.
  cbn [truthy prop]. cbn [get].
  change (String.eqb "subtasks" "subtasks") with true.
  change (String.eqb "text" "subtasks") with false.
  change (String.eqb "text" "text") with true. cbn iota.
  cbn [truthy]. destruct (String.eqb_spec t ""); subst; reflexivity.
Qed.

(** C1, as the code has it.  [parseDesc (encodeDesc t s)] is
    [{ text: t, subtasks: s }] for every text [t] and subtask list [s],
    with [encodeDesc "" []] being [null] and [parseDesc null] the empty
    pair, except when [s] is empty and [t] is itself the JSON text of an
    object whose [subtasks] property is an array: such a text is stored as
    it is and decoded as an envelope. *)
Theorem parseDesc_encodeDesc (t : string) (s : list SubtaskNode) :
  (s = [] -> forall v l, JSON.parse t = Some v -> prop v "subtasks" <> Some (JArr l)) ->
  parseDesc (encodeDesc t s) = mkParsed (JStr t) (map node_to_json s)
  /\ encodeDesc "" [] = None
  /\ parseDesc None = mkParsed (JStr "") [].
Proof.
  intros H. split; [|split; reflexivity].
  destruct s as [|x s].
  - specialize (H eq_refl). unfold encodeDesc. cbn [List.length Nat.eqb andb map].
    destruct (String.eqb_spec t "") as [->|Hne]; [reflexivity|].
    unfold parseDesc. apply String.eqb_neq in Hne. rewrite Hne.
    destruct (JSON.parse t) as [v|]; [|reflexivity].
    specialize (H v).
    destruct (truthy v); [|reflexivity].
    destruct (prop v "subtasks") as [[| | | |l|]|]; try reflexivity.
    exfalso. apply (H l); reflexivity.
  - apply parseDesc_encodeDesc_subtasks. discriminate.
Qed.

(** A plain text without subtasks, which is not JSON at all. *)
Lemma parseDesc_encodeDesc_witness :
  let t := "Draft section 1"%string in
  (@nil SubtaskNode = [] ->
   forall v l, JSON.parse t = Some v -> prop v "subtasks" <> Some (JArr l)) /\
  parseDesc (encodeDesc t []) = mkParsed (JStr t) [].
Proof.
  intros t.
  assert (H : @nil SubtaskNode = [] ->
              forall v l, JSON.parse t = Some v -> prop v "subtasks" <> Some (JArr l)).
  { intros _ v l Hp. vm_compute in Hp. discriminate Hp. }
  split; [exact H|].
  exact (proj1 (parseDesc_encodeDesc t [] H)).
Defined.

(** C1 as stated fails: the text [{"subtasks":[]}] with no subtasks is
    encoded as itself and decoded as an envelope with an empty text. *)
Lemma parseDesc_encodeDesc_counterexample :
  let t := qq "{'subtasks':[]}" in
  encodeDesc t [] = Some t /\
  parseDesc (encodeDesc t []) = mkParsed (JStr "") [] /\
  parseDesc (encodeDesc t []) <> mkParsed (JStr t) (map node_to_json []).
Proof.
  cbv zeta. split; [reflexivity|]. split; [reflexivity|].
  intros H. vm_compute in H. discriminate H.
Qed.

(** C5 (decoding is total and falls back to plain text).  [parseDesc]
    returns a pair for every input: the empty pair for [null] and for the
    empty string; the input as text, with no subtasks, when the input is
    not valid JSON, and when it is valid JSON whose value has no
    array-typed [subtasks] property. *)
Theorem parseDesc_total_fallback (desc : option string) :
  (exists t s, parseDesc desc = mkParsed t s) /\
  (desc = None \/ desc = Some ""%string ->
   parseDesc desc = mkParsed (JStr "") []) /\
  (forall d, desc = Some d -> JSON.parse d = None ->
             parseDesc desc = mkParsed (JStr d) []) /\
  (forall d v, desc = Some d -> JSON.parse d = Some v ->
               (forall l, prop v "subtasks" <> Some (JArr l)) ->
               parseDesc desc = mkParsed (JStr d) []).
Proof.
  split; [|split; [|split]].
  - destruct (parseDesc desc) as [t s]. now exists t, s.
  - intros [->| ->]; reflexivity.
  - intros d -> Hp. unfold parseDesc. rewrite Hp.
    destruct (String.eqb_spec d ""); [subst; reflexivity | reflexivity].
  - intros d v -> Hp Hs. unfold parseDesc. rewrite Hp.
    destruct (String.eqb_spec d ""); [subst; reflexivity|].
    destruct (truthy v); [|reflexivity].
    destruct (prop v "subtasks") as [[| | | |l|]|]; try reflexivity.
    exfalso. apply (Hs l); reflexivity.
Qed.

(** [null], a legacy plain text, and a JSON text without [subtasks]. *)
Lemma parseDesc_total_fallback_witness :
  parseDesc None = mkParsed (JStr "") [] /\
  (JSON.parse "call the bank" = None /\
   parseDesc (Some "call the bank"%string) = mkParsed (JStr "call the bank") []) /\
  (JSON.parse (qq "{'text':'x'}") = Some (JObj [("text"%string, JStr "x")]) /\
   parseDesc (Some (qq "{'text':'x'}")) = mkParsed (JStr (qq "{'text':'x'}")) []).
Proof.
  split; [|split].
  - exact (proj1 (proj2 (parseDesc_total_fallback None)) (or_introl eq_refl)).
  - assert (H : JSON.parse "call the bank" = None) by reflexivity.
    split; [exact H|].
    exact (proj1 (proj2 (proj2 (parseDesc_total_fallback (Some "call the bank"%string))))
             _ eq_refl H).
  - assert (H : JSON.parse (qq "{'text':'x'}") = Some (JObj [("text"%string, JStr "x")]))
      by reflexivity.
    split; [exact H|].
    refine (proj2 (proj2 (proj2 (parseDesc_total_fallback (Some (qq "{'text':'x'}")))))
              _ _ eq_refl H _).
    intros l E. discriminate E.
Defined.

(** ** Schedule extraction *)

Lemma upto_last_close_none cs :
  upto_last_close cs = None <-> ~ In "]"%char cs.
Proof.
  induction cs as [|c cs IH]; simpl.
  - split; [intros _ [] | reflexivity].
  - destruct (upto_last_close cs) as [m|].
    + split; [discriminate|]. intros H. exfalso.
      assert (Hn : ~ In "]"%char cs) by tauto.
      apply IH in Hn. discriminate Hn.
    + destruct (Ascii.eqb_spec c "]") as [->|Hc].
      * split; [discriminate|]. intros H. exfalso. apply H. now left.
      * split; [|reflexivity]. intros _ [H|H]; [congruence|].
        now apply (proj1 IH).
Qed.

Lemma upto_last_close_some cs m :
  upto_last_close cs = Some m <->
  exists mid post, cs = mid ++ "]"%char :: post /\ ~ In "]"%char post /\
                   m = mid ++ ["]"%char].
Proof.
  revert m. induction cs as [|c cs IH]; intros m; simpl.
  - split; [discriminate|]. intros [mid [post [H _]]].
    destruct mid; discriminate H.
  - destruct (upto_last_close cs) as [m'|] eqn:E.
    + split.
      * intros [= <-]. destruct (proj1 (IH m') eq_refl) as [mid [post [-> [Hp ->]]]].
        exists (c :: mid), post. repeat split; auto.
      * intros [mid [post [H [Hp ->]]]].
        destruct mid as [|x mid].
        -- simpl in H. injection H as -> ->.
           apply upto_last_close_none in Hp. congruence.
        -- simpl in H. injection H as -> ->. simpl. do 2 f_equal.
           assert (Hs : Some m' = Some (mid ++ ["]"%char])).
           { apply IH. exists mid, post. auto. }
           now injection Hs.
    + apply upto_last_close_none in E.
      destruct (Ascii.eqb_spec c "]") as [->|Hc].
      * split.
        -- intros [= <-]. exists [], cs. auto.
        -- intros [mid [post [H [Hp ->]]]].
           destruct mid as [|x mid]; [reflexivity|].
           simpl in H. injection H as _ ->.
           exfalso. apply E. apply in_or_app. right. now left.
      * split; [discriminate|].
        intros [mid [post [H [Hp ->]]]]. exfalso.
        destruct mid as [|x mid]; simpl in H; injection H as -> ->.
        -- congruence.
        -- apply E. apply in_or_app. right. now left.
Qed.

Lemma match_bracketed_no_close cs :
  ~ In "]"%char cs -> match_bracketed cs = None.
Proof.
  induction cs as [|c cs IH]; [reflexivity|]. intros H. simpl.
  assert (Hn : ~ In "]"%char cs) by (intros Hi; apply H; now right).
  rewrite (proj2 (upto_last_close_none cs) Hn), (IH Hn).
  destruct (Ascii.eqb c "["); reflexivity.
Qed.

(** The match of the pattern runs from the first opening bracket of the
    text to its last closing bracket. *)
Lemma match_bracketed_some cs m :
  match_bracketed cs = Some m <->
  exists pre mid post,
    cs = pre ++ "["%char :: mid ++ "]"%char :: post /\
    ~ In "["%char pre /\ ~ In "]"%char post /\
    m = "["%char :: mid ++ ["]"%char].
Proof.
  revert m. induction cs as [|c cs IH]; intros m.
  - split; [discriminate|]. intros [pre [mid [post [H _]]]].
    destruct pre; discriminate H.
  - simpl. destruct (Ascii.eqb_spec c "[") as [->|Hc].
    + destruct (upto_last_close cs) as [m'|] eqn:E.
      * split.
        -- intros [= <-].
           destruct (proj1 (upto_last_close_some cs m') E)
             as [mid [post [-> [Hp ->]]]].
           exists [], mid, post. repeat split; auto.
        -- intros [pre [mid [post [H [Hpre [Hp ->]]]]]].
           destruct pre as [|x pre].
           ++ simpl in H. injection H as H. subst cs. f_equal. f_equal.
              assert (Hs : upto_last_close (mid ++ "]"%char :: post)
                           = Some (mid ++ ["]"%char])).
              { apply upto_last_close_some. exists mid, post. auto. }
              congruence.
           ++ simpl in H. injection H as Hx _. subst x.
              exfalso. apply Hpre. now left.
      * apply upto_last_close_none in E.
        rewrite (match_bracketed_no_close cs E).
        split; [discriminate|].
        intros [pre [mid [post [H [Hpre [Hp ->]]]]]]. exfalso.
        destruct pre as [|x pre]; simpl in H; injection H as H; subst cs.
        -- apply E. apply in_or_app. right. now left.
        -- apply E. apply in_or_app. right. right.
           apply in_or_app. right. now left.
    + rewrite IH. split.
      * intros [pre [mid [post [-> [Hpre [Hp ->]]]]]].
        exists (c :: pre), mid, post. repeat split; auto.
        intros [H|H]; [congruence | contradiction].
      * intros [pre [mid [post [H [Hpre [Hp ->]]]]]].
        destruct pre as [|x pre]; simpl in H; injection H as Hx Hcs.
        -- congruence.
        -- subst x cs. exists pre, mid, post. repeat split; auto.
           intros Hi. apply Hpre. now right.
Qed.

Lemma extractSchedule_cases content :
  extractSchedule content = parse_failure \/
  exists m schedule,
    match_bracketed (chars content) = Some m /\
    JSON.parse (text_of m) = Some schedule /\
    extractSchedule content = mkResponse 200 (JObj [("schedule"%string, schedule)]).
Proof.
  unfold extractSchedule.
  destruct (match_bracketed (chars content)) as [m|]; [|now left].
  destruct (JSON.parse (text_of m)) as [v|] eqn:Ev; [|now left].
  right. exists m, v. auto.
Qed.

Lemma finalizePlan_returned chatWithOllama history content :
  history <> [] ->
  chatWithOllama (history ++ [extractionRequest]) systemPrompt true
  = Returned content ->
  finalizePlan chatWithOllama (Some history) = extractSchedule content.
Proof.
  intros Hh Hchat. unfold finalizePlan.
  destruct history as [|x h]; [congruence|]. now rewrite Hchat.
Qed.

Lemma match_bracketed_no_open cs :
  ~ In "["%char cs -> match_bracketed cs = None.
Proof.
  induction cs as [|c cs IH]; [reflexivity|]. intros H. simpl.
  destruct (Ascii.eqb_spec c "[") as [->|_].
  - exfalso. apply H. now left.
  - apply IH. intros Hi. apply H. now right.
Qed.

(** C3, as the code has it.  For every content the chat capability
    returns, [finalizePlan] takes the part of the content from its first
    opening bracket through its last closing bracket and parses it as
    JSON.  It answers with the parsed schedule exactly when the content
    has an opening bracket with a closing bracket after it and that part
    is valid JSON; in every other case it answers the parse failure
    (status 500, "Failed to parse schedule from AI response"), never a
    schedule of its own.  For the transcript of the scenario the answer
    is the schedule of exactly the one entry, and for a content without
    an opening bracket it is the parse failure. *)
Theorem finalizePlan_extracts
  (chatWithOllama : list Message -> string -> bool -> Outcome)
  (history : list Message) :
  history <> [] ->
  (forall content,
      chatWithOllama (history ++ [extractionRequest]) systemPrompt true
      = Returned content ->
      (forall schedule,
          finalizePlan chatWithOllama (Some history)
          = mkResponse 200 (JObj [("schedule"%string, schedule)])
          <->
          exists pre mid post,
            chars content = pre ++ "["%char :: mid ++ "]"%char :: post /\
            ~ In "["%char pre /\ ~ In "]"%char post /\
            JSON.parse (text_of ("["%char :: mid ++ ["]"%char])) = Some schedule)
      /\ ((exists schedule,
             finalizePlan chatWithOllama (Some history)
             = mkResponse 200 (JObj [("schedule"%string, schedule)]))
          \/ finalizePlan chatWithOllama (Some history) = parse_failure)
      /\ (~ In "["%char (chars content) ->
          finalizePlan chatWithOllama (Some history) = parse_failure))
  /\ (chatWithOllama (history ++ [extractionRequest]) systemPrompt true
      = Returned scenario_transcript ->
      finalizePlan chatWithOllama (Some history)
      = mkResponse 200 (JObj [("schedule"%string, JArr [scenario_entry])])).
Proof.
  intros Hh. split.
  - intros content Hchat.
    rewrite (finalizePlan_returned _ _ _ Hh Hchat). split; [|split].
    + intros schedule. unfold extractSchedule. split.
      * destruct (match_bracketed (chars content)) as [m|] eqn:Em;
          [|discriminate].
        destruct (JSON.parse (text_of m)) as [v|] eqn:Ev; [|discriminate].
        intros [= <-].
        apply match_bracketed_some in Em.
        destruct Em as [pre [mid [post [H1 [H2 [H3 ->]]]]]].
        now exists pre, mid, post.
      * intros [pre [mid [post [H1 [H2 [H3 H4]]]]]].
        assert (Em : match_bracketed (chars content)
                     = Some ("["%char :: mid ++ ["]"%char])).
        { apply match_bracketed_some. now exists pre, mid, post. }
        now rewrite Em, H4.
    + destruct (extractSchedule_cases content) as [H|[m [v [_ [_ H]]]]].
      * now right.
      * left. now exists v.
    + intros Hno. unfold extractSchedule.
      now rewrite (match_bracketed_no_open _ Hno).
  - intros Hchat. rewrite (finalizePlan_returned _ _ _ Hh Hchat). reflexivity.
Qed.

(** The scenario: the capability returns the transcript with the one
    entry. *)
Lemma finalizePlan_extracts_witness :
  let chat := fun (_ : list Message) (_ : string) (_ : bool) =>
                Returned scenario_transcript in
  let history := [mkMessage "user" "Plan my day tomorrow"] in
  history <> [] /\
  chat (history ++ [extractionRequest]) systemPrompt true
  = Returned scenario_transcript /\
  finalizePlan chat (Some history)
  = mkResponse 200 (JObj [("schedule"%string, JArr [scenario_entry])]).
Proof.
  intros chat history.
  assert (Hh : history <> []) by discriminate.
  split; [exact Hh|]. split; [reflexivity|].
  exact (proj2 (finalizePlan_extracts chat history Hh) eq_refl).
Defined.

(** C3 as stated fails: in a content with two bracketed arrays the first
    bracketed group is valid JSON, yet [finalizePlan] answers the parse
    failure, because it parses everything from the first opening bracket
    to the last closing bracket. *)
Lemma first_bracket_group_counterexample :
  let content := qq "Plan A: [{'title':'Read'}] or plan B: [{'title':'Run'}]" in
  let chat := fun (_ : list Message) (_ : string) (_ : bool) => Returned content in
  let history := [mkMessage "user" "Plan my day tomorrow"] in
  first_bracket_group (chars content) = Some (chars (qq "[{'title':'Read'}]")) /\
  JSON.parse (qq "[{'title':'Read'}]")
  = Some (JArr [JObj [("title"%string, JStr "Read")]]) /\
  extractFirstGroup content
  = mkResponse 200
      (JObj [("schedule"%string, JArr [JObj [("title"%string, JStr "Read")]])]) /\
  match_bracketed (chars content)
  = Some (chars (qq "[{'title':'Read'}] or plan B: [{'title':'Run'}]")) /\
  finalizePlan chat (Some history) = parse_failure /\
  finalizePlan chat (Some history) <> extractFirstGroup content.
Proof.
  cbv zeta. repeat split; try reflexivity.
  intros H. vm_compute in H. discriminate H.
Qed.

(** ** binary64 arithmetic in the normal range *)

Module Binary64.
Local Open Scope Z_scope.

Lemma digits2_pos_bounds p :
  2 ^ (Zpos (digits2_pos p) - 1) <= Zpos p < 2 ^ Zpos (digits2_pos p).
Proof.
  induction p as [p IH|p IH|]; cbn [digits2_pos].
  - rewrite Pos2Z.inj_succ.
    replace (Z.succ (Zpos (digits2_pos p)) - 1) with (Z.succ (Zpos (digits2_pos p) - 1)) by lia.
    rewrite !Z.pow_succ_r by lia. lia.
  - rewrite Pos2Z.inj_succ.
    replace (Z.succ (Zpos (digits2_pos p)) - 1) with (Z.succ (Zpos (digits2_pos p) - 1)) by lia.
    rewrite !Z.pow_succ_r by lia. lia.
  - simpl. lia.
Qed.

Lemma digits2_pos_unique p d :
  2 ^ (d - 1) <= Zpos p < 2 ^ d -> Zpos (digits2_pos p) = d.
Proof.
  intros [Hl Hu]. pose proof (digits2_pos_bounds p) as [Bl Bu].
  set (D := Zpos (digits2_pos p)) in *.
  assert (0 < d).
  { destruct (Z.ltb_spec 0 d); [assumption|].
    rewrite Z.pow_neg_r in Hl by lia.
    destruct (Z.eq_dec d 0) as [->|]; [simpl in Hu; lia|].
    rewrite Z.pow_neg_r in Hu by lia. lia. }
  destruct (Z.lt_trichotomy D d) as [Hlt|[Heq|Hgt]]; [|assumption|]; exfalso.
  - assert (2 ^ D <= 2 ^ (d - 1)) by (apply Z.pow_le_mono_r; lia). lia.
  - assert (2 ^ d <= 2 ^ (D - 1)) by (apply Z.pow_le_mono_r; lia). lia.
Qed.

(** *** Shifting right with a rounding record *)

Lemma iter_pos_nat {A} (f : A -> A) p x :
  iter_pos f p x = Nat.iter (Pos.to_nat p) f x.
Proof.
  revert x. induction p as [p IH|p IH|]; intros x; cbn [iter_pos].
  - rewrite !IH, Pos2Nat.inj_xI.
    replace (S (2 * Pos.to_nat p))%nat with (Pos.to_nat p + S (Pos.to_nat p))%nat by lia.
    rewrite Nat.iter_add. f_equal. rewrite Nat.iter_succ_r. reflexivity.
  - rewrite !IH, Pos2Nat.inj_xO.
    replace (2 * Pos.to_nat p)%nat with (Pos.to_nat p + Pos.to_nat p)%nat by lia.
    now rewrite Nat.iter_add.
  - reflexivity.
Qed.

Lemma shr_1_nonneg m r s :
  0 <= m ->
  shr_1 (Build_shr_record m r s) = Build_shr_record (Z.div2 m) (Z.odd m) (r || s).
Proof.
  intros H. destruct m as [|[p|p|]|p]; try reflexivity. lia.
Qed.

Lemma located_shr_1 A B mrs :
  located A B mrs -> located A (2 * B) (shr_1 mrs).
Proof.
  destruct mrs as [m r s]. unfold located. cbn [shr_m shr_r shr_s].
  intros [Hm [HB [Hin Hfl]]]. rewrite shr_1_nonneg by exact Hm.
  cbn [shr_m shr_r shr_s].
  pose proof (Z.div2_odd m) as Hdiv.
  assert (Hh : 0 <= Z.div2 m) by (apply Z.div2_nonneg; exact Hm).
  revert Hdiv Hh. generalize (Z.div2 m) as h. intros h Hdiv Hh.
  destruct (Z.odd m); cbn [Z.b2z] in Hdiv; subst m;
    destruct r, s; cbn [orb]; repeat split; nia.
Qed.

Lemma located_shr_n A B mrs n :
  located A B mrs ->
  located A (2 ^ Z.of_nat n * B) (Nat.iter n shr_1 mrs).
Proof.
  intros H. induction n as [|n IH].
  - change (2 ^ Z.of_nat 0) with 1. rewrite Z.mul_1_l. exact H.
  - rewrite Nat2Z.inj_succ, Z.pow_succ_r by lia. cbn [Nat.iter].
    replace (2 * 2 ^ Z.of_nat n * B) with (2 * (2 ^ Z.of_nat n * B)) by lia.
    now apply located_shr_1.
Qed.

Lemma located_floor A B mrs : located A B mrs -> shr_m mrs = A / B.
Proof.
  intros [Hm [HB [Hin _]]]. apply Z.div_unique with (r := A - shr_m mrs * B); lia.
Qed.

(** Rounding a located fraction to nearest gives an integer at most one
    half away from it, among the two integers around it. *)
Lemma round_nearest_located A B mrs :
  located A B mrs ->
  let N := round_nearest_even (shr_m mrs) (loc_of_shr_record mrs) in
  (N = A / B \/ N = A / B + 1) /\ 2 * Z.abs (N * B - A) <= B.
Proof.
  intros H. pose proof (located_floor A B mrs H) as Hf.
  destruct mrs as [m r s]. destruct H as [Hm [HB [Hin Hfl]]].
  cbn [shr_m shr_r shr_s] in *. subst m.
  destruct r, s; cbn [loc_of_shr_record round_nearest_even].
  - split; [now right | nia].
  - destruct (Z.even (A / B)); (split; [auto | nia]).
  - split; [now left | nia].
  - split; [now left | nia].
Qed.

Lemma fexp_normal e : -1074 <= e - 53 -> fexp 53 1024 e = e - 53.
Proof. unfold fexp, emin. lia. Qed.

Lemma shr_nat mrs e k :
  0 <= k -> shr mrs e k = (Nat.iter (Z.to_nat k) shr_1 mrs, e + k).
Proof.
  intros Hk. destruct k as [|p|p]; [| |lia].
  - simpl. now rewrite Z.add_0_r.
  - cbn [shr]. now rewrite iter_pos_nat.
Qed.

Lemma shr_record_of_loc_m mx lx :
  shr_m (shr_record_of_loc mx lx) = mx.
Proof. destruct lx as [|[]]; reflexivity. Qed.

Lemma Zdigits2_pos p : Zdigits2 (Zpos p) = Zpos (digits2_pos p).
Proof. reflexivity. Qed.

(** Rounding, in the normal range, a located fraction whose integer part
    has at least 53 digits: the result is a 53-digit mantissa with an
    exponent, denoting an integer multiple [N] of the unit in the last
    place that is within one half of the scaled fraction. *)
Lemma binary_round_aux_normal mx ex lx A B :
  located A B (shr_record_of_loc mx lx) ->
  0 < mx ->
  let d := Zdigits2 mx in
  let e1 := ex + (d - 53) in
  let D := 2 ^ (d - 53) * B in
  53 <= d -> -1074 <= e1 -> e1 + 1 <= 971 ->
  exists M E N,
    binary_round_aux 53 1024 false mx ex lx = S754_finite false M E /\
    2 ^ 52 <= Zpos M < 2 ^ 53 /\
    e1 <= E <= e1 + 1 /\
    Zpos M * 2 ^ (E - e1) = N /\
    (N = A / D \/ N = A / D + 1) /\
    2 * Z.abs (N * D - A) <= D.
Proof.
  intros Hloc Hmx d e1 D Hd Hlo Hhi.
  unfold binary_round_aux, shr_fexp.
  fold d. rewrite fexp_normal by (fold e1 in Hlo |- *; lia).
  replace (d + ex - 53 - ex) with (d - 53) by lia.
  rewrite shr_nat by lia. fold e1.
  set (n := Z.to_nat (d - 53)).
  pose proof (located_shr_n A B _ n Hloc) as Hn.
  replace (2 ^ Z.of_nat n) with (2 ^ (d - 53)) in Hn
    by (unfold n; rewrite Z2Nat.id by lia; reflexivity).
  fold D in Hn.
  set (mrs1 := Nat.iter n shr_1 (shr_record_of_loc mx lx)) in *.
  pose proof (round_nearest_located A D mrs1 Hn) as [HN Hnear].
  pose proof (located_floor A D mrs1 Hn) as Hm1.
  set (N := round_nearest_even (shr_m mrs1) (loc_of_shr_record mrs1)) in *.
  (* the shifted mantissa has 53 digits *)
  assert (HB : 0 < B) by (destruct Hloc as [_ [HB _]]; exact HB).
  assert (Hfl : mx = A / B).
  { rewrite <- (shr_record_of_loc_m mx lx). now apply located_floor. }
  assert (Hpow : 0 < 2 ^ (d - 53)) by (apply Z.pow_pos_nonneg; lia).
  assert (Hdiv : A / D = mx / 2 ^ (d - 53)).
  { unfold D. rewrite Hfl, Z.mul_comm. symmetry. apply Z.div_div; lia. }
  assert (Hdig : 2 ^ (d - 1) <= mx < 2 ^ d).
  { destruct mx as [|p|p]; try lia. unfold d. rewrite Zdigits2_pos.
    apply digits2_pos_bounds. }
  assert (Hsplit : 2 ^ (d - 1) = 2 ^ 52 * 2 ^ (d - 53)).
  { rewrite <- Z.pow_add_r by lia. f_equal. lia. }
  assert (Hsplit' : 2 ^ d = 2 ^ 53 * 2 ^ (d - 53)).
  { rewrite <- Z.pow_add_r by lia. f_equal. lia. }
  assert (Hm1b : 2 ^ 52 <= A / D < 2 ^ 53).
  { rewrite Hdiv. split.
    - apply Z.div_le_lower_bound; lia.
    - apply Z.div_lt_upper_bound; lia. }
  assert (HNb : 2 ^ 52 <= N <= 2 ^ 53) by lia.
  destruct (Z.eq_dec N (2 ^ 53)) as [Etop|Ntop].
  - (* the rounding carried into a 54th digit *)
    rewrite Etop.
    change (Zdigits2 (2 ^ 53)) with 54.
    rewrite fexp_normal by lia.
    replace (54 + e1 - 53 - e1) with 1 by lia.
    cbn [shr shr_record_of_loc iter_pos].
    change (shr_1 {| shr_m := 2 ^ 53; shr_r := false; shr_s := false |})
      with {| shr_m := 2 ^ 52; shr_r := false; shr_s := false |}.
    cbn [shr_m]. change (2 ^ 52) with (Zpos (Z.to_pos (2 ^ 52))) at 1.
    cbv iota beta.
    replace (e1 + 1 <=? 1024 - 53) with true by (symmetry; apply Z.leb_le; lia).
    exists (Z.to_pos (2 ^ 52)), (e1 + 1), N.
    split; [reflexivity|]. split; [simpl; lia|]. split; [lia|].
    split; [|split; assumption].
    replace (e1 + 1 - e1) with 1 by lia. rewrite Etop. reflexivity.
  - assert (HNlt : 2 ^ 52 <= N < 2 ^ 53) by lia.
    destruct N as [|p|p] eqn:EN; try (exfalso; simpl in HNlt; lia).
    rewrite Zdigits2_pos, (digits2_pos_unique p 53) by exact HNlt.
    rewrite fexp_normal by lia.
    replace (53 + e1 - 53 - e1) with 0 by lia.
    cbn [shr shr_record_of_loc shr_m].
    replace (e1 <=? 1024 - 53) with true by (symmetry; apply Z.leb_le; lia).
    exists p, e1, (Zpos p).
    split; [reflexivity|]. split; [exact HNlt|]. split; [lia|].
    split; [|split; assumption].
    replace (e1 - e1) with 0 by lia. simpl. lia.
Qed.

(** *** Integers as binary64 numbers *)

Lemma Pos_iter_xO p k : Zpos (Pos.iter xO p k) = Zpos p * 2 ^ Zpos k.
Proof.
  induction k as [|k IH] using Pos.peano_ind.
  - simpl. lia.
  - rewrite Pos.iter_succ, Pos2Z.inj_succ, Z.pow_succ_r by lia.
    change (Zpos (Pos.iter xO p k)~0) with (2 * Zpos (Pos.iter xO p k)).
    rewrite IH. lia.
Qed.

Lemma located_exact m : 0 <= m -> located m 1 (shr_record_of_loc m loc_Exact).
Proof. intros H. unfold located. cbn. lia. Qed.

(** A positive integer below 2^53 is represented exactly, with a 53-digit
    mantissa. *)
Lemma of_int_normal n :
  0 < n < 2 ^ 53 ->
  exists M E,
    of_int n = S754_finite false M E /\
    2 ^ 52 <= Zpos M < 2 ^ 53 /\ -52 <= E <= 0 /\
    Zpos M = n * 2 ^ (- E).
Proof.
  intros [Hpos Hlt]. destruct n as [|p|p]; try lia.
  unfold of_int, binary_normalize, binary_round.
  pose proof (digits2_pos_bounds p) as Hd.
  set (d := Zpos (digits2_pos p)) in *.
  assert (Hd53 : 1 <= d <= 53).
  { split; [unfold d; lia|].
    destruct (Z.le_gt_cases d 53) as [|Hgt]; [assumption|exfalso].
    assert (2 ^ 53 <= 2 ^ (d - 1)) by (apply Z.pow_le_mono_r; lia). lia. }
  rewrite fexp_normal by lia.
  unfold shl_align. rewrite Z.add_0_r, Z.sub_0_r.
  assert (Hcase : exists mz ez,
             (match d - 53 with
              | Zneg k => (Pos.iter xO p k, d - 53)
              | _ => (p, 0)
              end) = (mz, ez) /\
             Zpos mz = Zpos p * 2 ^ (- ez) /\ ez = d - 53).
  { destruct (d - 53) as [|k|k] eqn:Ek; try lia.
    - exists p, 0. repeat split; simpl; lia.
    - exists (Pos.iter xO p k), (Zneg k). repeat split.
      rewrite Pos_iter_xO. reflexivity. }
  destruct Hcase as [mz [ez [-> [Hmz Hez]]]].
  assert (Hmzb : 2 ^ 52 <= Zpos mz < 2 ^ 53).
  { rewrite Hmz, Hez. replace (- (d - 53)) with (53 - d) by lia.
    assert (E52 : 2 ^ 52 = 2 ^ (d - 1) * 2 ^ (53 - d)).
    { rewrite <- Z.pow_add_r by lia. f_equal. lia. }
    assert (E53 : 2 ^ 53 = 2 ^ d * 2 ^ (53 - d)).
    { rewrite <- Z.pow_add_r by lia. f_equal. lia. }
    assert (0 < 2 ^ (53 - d)) by (apply Z.pow_pos_nonneg; lia).
    rewrite E52, E53. nia. }
  assert (Hdz : Zdigits2 (Zpos mz) = 53).
  { rewrite Zdigits2_pos. now apply digits2_pos_unique. }
  destruct (binary_round_aux_normal (Zpos mz) ez loc_Exact (Zpos mz) 1)
    as [M [E [N [Hr [HM [HE [HN [_ Hnear]]]]]]]].
  - apply located_exact. lia.
  - lia.
  - rewrite Hdz. lia.
  - rewrite Hdz. lia.
  - rewrite Hdz. lia.
  - rewrite Hdz in *.
    replace (ez + (53 - 53)) with ez in * by lia.
    change (2 ^ (53 - 53) * 1) with 1 in Hnear.
    assert (N = Zpos mz) by lia. subst N.
    assert (E = ez).
    { destruct (Z.eq_dec E ez) as [|Hne]; [assumption|exfalso].
      assert (E = ez + 1) by lia. subst E.
      replace (ez + 1 - ez) with 1 in H by lia. change (2 ^ 1) with 2 in H. lia. }
    subst E. replace (ez - ez) with 0 in H by lia. change (2 ^ 0) with 1 in H.
    exists M, ez. rewrite Hr. repeat split; try lia.
Qed.

(** *** Division *)

Lemma new_location_located A B :
  0 <= A -> 0 < B ->
  located A B (shr_record_of_loc (A / B) (new_location B (A mod B))).
Proof.
  intros HA HB.
  pose proof (Z.div_mod A B ltac:(lia)) as Hdm.
  pose proof (Z.mod_pos_bound A B HB) as Hr.
  pose proof (Z.div_pos A B HA HB) as Hq.
  set (q := A / B) in *. set (r := A mod B) in *.
  unfold new_location, new_location_even, new_location_odd.
  destruct (Z.even B) eqn:Ev.
  - destruct (Z.eqb_spec r 0) as [E0|N0].
    + unfold located; cbn [shr_m shr_r shr_s shr_record_of_loc]; nia.
    + destruct (Z.compare_spec (2 * r) B); unfold located; cbn [shr_m shr_r shr_s shr_record_of_loc]; nia.
  - assert (Hodd : Z.odd B = true) by (rewrite <- Z.negb_even, Ev; reflexivity).
    apply Z.odd_spec in Hodd. destruct Hodd as [h Hh].
    destruct (Z.eqb_spec r 0) as [E0|N0].
    + unfold located; cbn [shr_m shr_r shr_s shr_record_of_loc]; nia.
    + destruct (Z.compare_spec (2 * r + 1) B); unfold located; cbn [shr_m shr_r shr_s shr_record_of_loc]; nia.
Qed.

Lemma div_eucl_div_mod a b : Z.div_eucl a b = (a / b, a mod b).
Proof. unfold Z.div, Z.modulo. now destruct (Z.div_eucl a b). Qed.

(** The quotient of two positive integers below 2^53: a 53-digit mantissa
    [M] and an exponent [E] that denote, in units of [2^-k], an integer
    [N] within one half of [a * 2^k / b]. *)
Lemma fdiv_of_int a b :
  0 < a < 2 ^ 53 -> 0 < b < 2 ^ 53 ->
  exists M E N k,
    fdiv (of_int a) (of_int b) = S754_finite false M E /\
    2 ^ 52 <= Zpos M < 2 ^ 53 /\
    0 <= k <= 105 /\ - k <= E <= - k + 1 /\
    Zpos M * 2 ^ (E + k) = N /\
    2 * Z.abs (N * b - a * 2 ^ k) <= b.
Proof.
  intros Ha Hb.
  destruct (of_int_normal a Ha) as [M1 [E1 [-> [HM1 [HE1 Hv1]]]]].
  destruct (of_int_normal b Hb) as [M2 [E2 [-> [HM2 [HE2 Hv2]]]]].
  unfold fdiv, SFdiv, SFdiv_core_binary.
  rewrite !Zdigits2_pos, (digits2_pos_unique M1 53), (digits2_pos_unique M2 53)
    by assumption.
  rewrite fexp_normal by lia.
  replace (Z.min (53 + E1 - (53 + E2) - 53) (E1 - E2)) with (E1 - E2 - 53) by lia.
  replace (E1 - E2 - (E1 - E2 - 53)) with 53 by lia.
  cbv iota. rewrite Z.shiftl_mul_pow2 by lia.
  rewrite div_eucl_div_mod.
  set (A := Zpos M1 * 2 ^ 53). set (B := Zpos M2).
  assert (HA : 0 <= A) by (unfold A; lia).
  assert (HB : 0 < B) by (unfold B; lia).
  assert (Hq : 2 ^ 52 <= A / B < 2 ^ 54).
  { split.
    - apply Z.div_le_lower_bound; [exact HB|]. unfold A, B. nia.
    - apply Z.div_lt_upper_bound; [exact HB|]. unfold A, B. nia. }
  set (d := Zdigits2 (A / B)).
  assert (Hd : 53 <= d <= 54).
  { unfold d. destruct (A / B) as [|p|p] eqn:Eq; try lia.
    rewrite Zdigits2_pos. pose proof (digits2_pos_bounds p) as Hp.
    set (dp := Zpos (digits2_pos p)) in *.
    split.
    - destruct (Z.le_gt_cases 53 dp) as [|Hlt]; [assumption|exfalso].
      assert (2 ^ dp <= 2 ^ 52) by (apply Z.pow_le_mono_r; lia). lia.
    - destruct (Z.le_gt_cases dp 54) as [|Hgt]; [assumption|exfalso].
      assert (2 ^ 54 <= 2 ^ (dp - 1)) by (apply Z.pow_le_mono_r; lia). lia. }
  destruct (binary_round_aux_normal (A / B) (E1 - E2 - 53)
              (new_location B (A mod B)) A B)
    as [M [E [N [Hr [HM [HE [HN [_ Hnear]]]]]]]].
  - now apply new_location_located.
  - lia.
  - fold d. lia.
  - fold d. lia.
  - fold d. lia.
  - fold d in HE, HN, Hnear.
    set (k := 106 - d - E1 + E2).
    exists M, E, N, k. cbn [xorb]. rewrite Hr.
    split; [reflexivity|]. split; [exact HM|].
    split; [unfold k; lia|]. split; [unfold k; lia|]. split.
    + rewrite <- HN. f_equal. f_equal. unfold k. lia.
    + (* cancel the common power of two *)
      set (c := 2 ^ (d - 53) * 2 ^ (- E2)).
      assert (Hc : 0 < c).
      { unfold c. apply Z.mul_pos_pos; apply Z.pow_pos_nonneg; lia. }
      assert (HD : 2 ^ (d - 53) * B = c * b).
      { unfold c, B. rewrite Hv2. ring. }
      assert (HAc : A = c * (a * 2 ^ k)).
      { unfold A, c, k. rewrite Hv1.
        replace (2 ^ (d - 53) * 2 ^ (- E2) * (a * 2 ^ (106 - d - E1 + E2)))
          with (a * (2 ^ (d - 53) * 2 ^ (- E2) * 2 ^ (106 - d - E1 + E2))) by ring.
        rewrite <- !Z.pow_add_r by lia.
        replace (a * 2 ^ (- E1) * 2 ^ 53) with (a * (2 ^ (- E1) * 2 ^ 53)) by ring.
        rewrite <- Z.pow_add_r by lia. do 2 f_equal. lia. }
      rewrite HD, HAc in Hnear.
      replace (N * (c * b) - c * (a * 2 ^ k)) with (c * (N * b - a * 2 ^ k))
        in Hnear by ring.
      rewrite Z.abs_mul, (Z.abs_eq c) in Hnear by lia.
      nia.
Qed.

(** *** [Math.round] of a rounded quotient *)

Lemma Math_round_units M E N k :
  1 <= k -> - k <= E <= - k + 1 ->
  Zpos M * 2 ^ (E + k) = N ->
  Math.round (S754_finite false M E) = (N + 2 ^ (k - 1)) / 2 ^ k.
Proof.
  intros Hk HE HN. unfold Math.round.
  destruct (Z.eq_dec E (- k)) as [->|Hne].
  - replace (- k + k) with 0 in HN by lia. change (2 ^ 0) with 1 in HN.
    destruct k as [|p|p]; try lia. cbn [Z.opp]. subst N.
    now rewrite Z.mul_1_r.
  - assert (E = - k + 1) by lia. subst E.
    replace (- k + 1 + k) with 1 in HN by lia. change (2 ^ 1) with 2 in HN.
    subst N.
    destruct (Z.eq_dec k 1) as [->|Hk1].
    + cbn [Z.opp Z.add Z.pos_sub]. change (2 ^ 0) with 1. change (2 ^ (1 - 1)) with 1.
      change (2 ^ 1) with 2. rewrite Z.mul_1_r.
      apply Z.div_unique with (r := 1); lia.
    + destruct (- k + 1) as [|p|p] eqn:Ep; try lia.
      assert (Zpos p = k - 1) by lia.
      replace (2 ^ k) with (2 * 2 ^ Zpos p)
        by (rewrite <- Z.pow_succ_r by lia; f_equal; lia).
      replace (2 ^ (k - 1)) with (2 * 2 ^ (Zpos p - 1))
        by (rewrite <- Z.pow_succ_r by lia; f_equal; lia).
      replace (Zpos M * 2 + 2 * 2 ^ (Zpos p - 1))
        with (2 * (Zpos M + 2 ^ (Zpos p - 1))) by ring.
      rewrite Z.div_mul_cancel_l; [reflexivity| |lia].
      apply Z.pow_nonzero; lia.
Qed.

(** An integer [N] of at least 53 digits within one half of
    [a * 2^k / b], for [a] below 2^52, rounds as [a / b] does. *)
Lemma round_nearest_quotient a b N k :
  0 < a < 2 ^ 52 -> 0 < b -> 0 <= k -> 2 ^ 52 <= N ->
  2 * Z.abs (N * b - a * 2 ^ k) <= b ->
  1 <= k /\ (N + 2 ^ (k - 1)) / 2 ^ k = (2 * a + b) / (2 * b).
Proof.
  intros Ha Hb Hk HN Hnear.
  assert (Hk1 : 1 <= k).
  { destruct (Z.eq_dec k 0) as [->|]; [|lia]. exfalso.
    change (2 ^ 0) with 1 in Hnear. nia. }
  split; [exact Hk1|].
  set (T := 2 ^ (k - 1)).
  assert (HT : 0 < T) by (apply Z.pow_pos_nonneg; lia).
  assert (E2T : 2 ^ k = 2 * T).
  { unfold T. rewrite <- Z.pow_succ_r by lia. f_equal. lia. }
  rewrite E2T in *.
  set (n := (2 * a + b) / (2 * b)).
  assert (Hn1 : 2 * b * n <= 2 * a + b) by (apply Z.mul_div_le; lia).
  assert (Hn2 : 2 * a + b < 2 * b * Z.succ n) by (apply Z.mul_succ_div_gt; lia).
  assert (F1 : 2 * (N * b) - 2 * (a * (2 * T)) <= b) by lia.
  assert (F2 : 2 * (a * (2 * T)) - 2 * (N * b) <= b) by lia.
  assert (F3 : b < 2 * T) by nia.
  symmetry. apply Z.div_unique with (r := N + T - 2 * T * n).
  - left. split.
    + assert (2 * b * (2 * T * n - N - T) <= b) by nia. nia.
    + assert (2 * b * (N + T) < 2 * b * (2 * T * (n + 1))) by nia. nia.
  - ring.
Qed.

(** The quotient of two integers, rounded by [Math.round], is the exact
    quotient rounded half up. *)
Lemma round_fdiv_of_int a b :
  0 <= a < 2 ^ 52 -> 0 < b < 2 ^ 53 ->
  Math.round (fdiv (of_int a) (of_int b)) = (2 * a + b) / (2 * b).
Proof.
  intros Ha Hb. destruct (Z.eq_dec a 0) as [->|Hnz].
  - destruct (of_int_normal b Hb) as [M [E [-> _]]].
    change (of_int 0) with (S754_zero false). unfold fdiv.
    cbn [SFdiv xorb Math.round]. rewrite Z.mul_0_r, Z.add_0_l.
    symmetry. apply Z.div_small. lia.
  - destruct (fdiv_of_int a b ltac:(lia) Hb)
      as [M [E [N [k [-> [HM [Hk [HE [HN Hnear]]]]]]]]].
    assert (HN52 : 2 ^ 52 <= N).
    { rewrite <- HN.
      assert (0 < 2 ^ (E + k)) by (apply Z.pow_pos_nonneg; lia). nia. }
    destruct (round_nearest_quotient a b N k ltac:(lia) ltac:(lia) ltac:(lia)
                HN52 Hnear) as [Hk1 Hq].
    rewrite (Math_round_units M E N k Hk1 HE HN). exact Hq.
Qed.

(** *** Multiplication *)

Lemma fmul_normal M1 E1 M2 E2 :
  2 ^ 52 <= Zpos M1 < 2 ^ 53 -> 2 ^ 52 <= Zpos M2 < 2 ^ 53 ->
  -400 <= E1 + E2 <= 400 ->
  exists M E N j,
    fmul (S754_finite false M1 E1) (S754_finite false M2 E2)
    = S754_finite false M E /\
    2 ^ 52 <= Zpos M < 2 ^ 53 /\
    52 <= j <= 53 /\
    E1 + E2 + j <= E <= E1 + E2 + j + 1 /\
    Zpos M * 2 ^ (E - (E1 + E2 + j)) = N /\
    2 * Z.abs (N * 2 ^ j - Zpos M1 * Zpos M2) <= 2 ^ j.
Proof.
  intros H1 H2 HE. unfold fmul, SFmul. cbn [xorb].
  set (A := Zpos (M1 * M2)).
  assert (HA : A = Zpos M1 * Zpos M2) by reflexivity.
  assert (Hb : 2 ^ 104 <= A < 2 ^ 106).
  { rewrite HA. change (2 ^ 104) with (2 ^ 52 * 2 ^ 52).
    change (2 ^ 106) with (2 ^ 53 * 2 ^ 53). nia. }
  set (d := Zdigits2 A).
  assert (Hd : 105 <= d <= 106).
  { unfold d, A. rewrite Zdigits2_pos.
    pose proof (digits2_pos_bounds (M1 * M2)) as Hp. fold A in Hp.
    set (dp := Zpos (digits2_pos (M1 * M2))) in *.
    split.
    - destruct (Z.le_gt_cases 105 dp) as [|Hlt]; [assumption|exfalso].
      assert (2 ^ dp <= 2 ^ 104) by (apply Z.pow_le_mono_r; lia). lia.
    - destruct (Z.le_gt_cases dp 106) as [|Hgt]; [assumption|exfalso].
      assert (2 ^ 106 <= 2 ^ (dp - 1)) by (apply Z.pow_le_mono_r; lia). lia. }
  destruct (binary_round_aux_normal A (E1 + E2) loc_Exact A 1)
    as [M [E [N [Hr [HM [HEb [HN [_ Hnear]]]]]]]].
  - apply located_exact. lia.
  - lia.
  - fold d. lia.
  - fold d. lia.
  - fold d. lia.
  - fold d in HEb, HN, Hnear.
    exists M, E, N, (d - 53). rewrite Hr.
    split; [reflexivity|]. split; [exact HM|]. split; [lia|].
    replace (E1 + E2 + (d - 53)) with (E1 + E2 + (d - 53)) by lia.
    split; [lia|]. split; [exact HN|].
    rewrite Z.mul_1_r in Hnear. rewrite <- HA. exact Hnear.
Qed.

(** *** The percentage of a task *)

Lemma nearest_le_bound N P W L :
  0 < P -> 2 * Z.abs (N * P - W) <= P -> W <= L * P -> N <= L.
Proof.
  intros HP Hn HW.
  destruct (Z.le_gt_cases N L) as [|Hgt]; [assumption|exfalso].
  assert (P <= (N - L) * P) by nia. lia.
Qed.

Lemma of_int_100 : of_int 100 = S754_finite false 7036874417766400 (-46).
Proof. reflexivity. Qed.

Lemma abs_scale c0 X b :
  0 < c0 -> 2 * Z.abs X <= b -> 2 * Z.abs (c0 * X) <= c0 * b.
Proof. intros Hc H. rewrite Z.abs_mul, (Z.abs_eq c0) by lia. nia. Qed.

Lemma abs_sum a b e1 e2 :
  2 * Z.abs a <= e1 -> 2 * Z.abs b <= e2 -> 2 * Z.abs (b + a) <= e1 + e2.
Proof. lia. Qed.

Lemma abs_cancel P X t :
  0 < P -> 2 * Z.abs (P * X) <= 3 * (P * t) -> 2 * Z.abs X <= 3 * t.
Proof. intros HP H. rewrite Z.abs_mul, (Z.abs_eq P) in H by lia. nia. Qed.

(** [c / t * 100] for [0 < c <= t]: the product is, in units of [2^-k'],
    an integer [N'] that is within three halves of [100 * c * 2^k' / t]. *)
Lemma percent_units c t :
  0 < c <= t -> 0 < t < 2 ^ 53 ->
  exists N' k',
    Math.round (fmul (fdiv (of_int c) (of_int t)) (of_int 100))
    = (N' + 2 ^ (k' - 1)) / 2 ^ k' /\
    45 <= k' /\ 0 <= N' /\
    2 * Z.abs (N' * t - 100 * c * 2 ^ k') <= 3 * t.
Proof.
  intros Hc Ht. rewrite of_int_100.
  destruct (fdiv_of_int c t ltac:(lia) Ht)
    as [M [E [N [k [-> [HM [Hk [HE [HN Hnear]]]]]]]]].
  assert (Hp : 0 < 2 ^ k) by (apply Z.pow_pos_nonneg; lia).
  assert (HNk : N <= 2 ^ k) by nia.
  assert (HE52 : E <= -52).
  { destruct (Z.le_gt_cases E (-52)) as [|Hgt]; [assumption|exfalso].
    assert (0 < 2 ^ (E + k)) by (apply Z.pow_pos_nonneg; lia).
    destruct (Z.eq_dec (E + k) 0) as [E0|E1].
    - rewrite E0 in HN. change (2 ^ 0) with 1 in HN.
      assert (2 ^ k <= 2 ^ 51) by (apply Z.pow_le_mono_r; lia).
      change (2 ^ 51) with 2251799813685248 in *.
      change (2 ^ 52) with 4503599627370496 in *. lia.
    - replace (E + k) with 1 in HN by lia. change (2 ^ 1) with 2 in HN.
      assert (2 ^ k <= 2 ^ 52) by (apply Z.pow_le_mono_r; lia).
      change (2 ^ 52) with 4503599627370496 in *. lia. }
  destruct (fmul_normal M E 7036874417766400 (-46) HM ltac:(simpl; lia)
              ltac:(lia))
    as [M' [E' [N' [j [-> [HM' [Hj [HE' [HN' Hnear']]]]]]]]].
  set (k' := - (E + -46 + j)) in *.
  assert (Hk' : 45 <= k') by (unfold k'; lia).
  exists N', k'. split; [|split; [exact Hk'|split]].
  - apply Math_round_units; [lia | unfold k'; lia |].
    rewrite <- HN'.
    replace (E' + k') with (E' - (E + -46 + j)) by (unfold k'; lia).
    reflexivity.
  - rewrite <- HN'. apply Z.mul_nonneg_nonneg; [lia|].
    apply Z.pow_nonneg. lia.
  - (* both rounding errors, in units of 2^-(k' + j + s) *)
    set (s := E + k) in *.
    set (P := 2 ^ (j + s)).
    assert (HP : 2 ^ 52 <= P).
    { unfold P. apply Z.pow_le_mono_r; lia. }
    assert (EP : P = 2 ^ j * 2 ^ s).
    { unfold P. apply Z.pow_add_r; lia. }
    assert (EK : 2 ^ k * 2 ^ 46 = 2 ^ k' * P).
    { unfold P. rewrite <- !Z.pow_add_r by lia. f_equal. unfold k', s. lia. }
    assert (Hs : 0 < 2 ^ s) by (apply Z.pow_pos_nonneg; lia).
    assert (Hpj : 0 < 2 ^ j) by (apply Z.pow_pos_nonneg; lia).
    change 7036874417766400 with (100 * 2 ^ 46) in Hnear'.
    set (Q := 2 ^ 46) in *.
    assert (HQ : 100 * Q <= 2 * P).
    { unfold Q. change (2 ^ 52) with (64 * 2 ^ 46) in HP. lia. }
    assert (HQ0 : 0 < Q) by (unfold Q; lia).
    (* first error, scaled by 100 * 2^46 *)
    assert (D1 : 2 * Z.abs (100 * Q * (Zpos M * 2 ^ s * t - c * 2 ^ k))
                 <= 100 * Q * t).
    { apply abs_scale; [lia|]. rewrite HN. exact Hnear. }
    (* second error, scaled by 2^s * t *)
    assert (D2 : 2 * Z.abs (2 ^ s * t * (N' * 2 ^ j - Zpos M * (100 * Q)))
                 <= 2 ^ s * t * 2 ^ j).
    { apply abs_scale; [|exact Hnear']. apply Z.mul_pos_pos; lia. }
    assert (D3 : 2 * Z.abs (P * (N' * t - 100 * c * 2 ^ k'))
                 <= 100 * Q * t + 2 ^ s * t * 2 ^ j).
    { replace (P * (N' * t - 100 * c * 2 ^ k'))
        with (2 ^ s * t * (N' * 2 ^ j - Zpos M * (100 * Q))
              + 100 * Q * (Zpos M * 2 ^ s * t - c * 2 ^ k)).
      - apply abs_sum; assumption.
      - rewrite EP.
        replace (2 ^ j * 2 ^ s * (N' * t - 100 * c * 2 ^ k'))
          with (2 ^ s * t * (N' * 2 ^ j) - 100 * c * (2 ^ k' * (2 ^ j * 2 ^ s)))
          by ring.
        rewrite <- EP, <- EK. ring. }
    apply (abs_cancel P); [lia|].
    eapply Z.le_trans; [exact D3|].
    replace (2 ^ s * t * 2 ^ j) with (P * t) by (rewrite EP; ring).
    assert (100 * Q * t <= 2 * P * t)
      by (apply Z.mul_le_mono_nonneg_r; lia).
    replace (3 * (P * t)) with (2 * P * t + P * t) by ring.
    apply Z.add_le_mono_r. assumption.
Qed.

(** [c / t * 100] rounded, for [c] of [t] nodes completed, is a percentage. *)
Lemma round_percentage c t :
  0 <= c <= t -> 0 < t < 2 ^ 53 ->
  0 <= Math.round (fmul (fdiv (of_int c) (of_int t)) (of_int 100)) <= 100.
Proof.
  intros Hc Ht.
  destruct (Z.eq_dec c 0) as [->|Hnz].
  - destruct (of_int_normal t Ht) as [M [E [-> _]]]. rewrite of_int_100.
    change (of_int 0) with (S754_zero false). cbn. lia.
  - destruct (percent_units c t ltac:(lia) Ht) as [N' [k' [-> [Hk' [HN0 Hd]]]]].
    assert (Hpk1 : 0 < 2 ^ (k' - 1)) by (apply Z.pow_pos_nonneg; lia).
    assert (Epk : 2 ^ k' = 2 * 2 ^ (k' - 1)).
    { rewrite <- Z.pow_succ_r by lia. f_equal. lia. }
    assert (H4 : 4 <= 2 ^ (k' - 1)).
    { change 4 with (2 ^ 2). apply Z.pow_le_mono_r; lia. }
    rewrite Epk in *. set (T := 2 ^ (k' - 1)) in *.
    split.
    + apply Z.div_pos; lia.
    + assert ((N' + T) / (2 * T) < 101); [|lia].
      apply Z.div_lt_upper_bound; [lia|].
      assert (2 * (N' * t) <= 2 * (100 * c * (2 * T)) + 3 * t) by lia.
      assert (N' * t <= 200 * T * t + 2 * t) by nia.
      assert (N' <= 200 * T + 2) by nia. lia.
Qed.

(** [c / t * 100] rounded is never above the exact percentage rounded half
    up, is at most one below it, and is equal to it whenever
    [100 * c / t] is not half-way between two integers. *)
Lemma round_percentage_near c t :
  0 <= c <= t -> 0 < t < 2 ^ 32 ->
  let r := Math.round (fmul (fdiv (of_int c) (of_int t)) (of_int 100)) in
  let n := (2 * (100 * c) + t) / (2 * t) in
  n - 1 <= r <= n /\ ((2 * (100 * c) + t) mod (2 * t) <> 0 -> r = n).
Proof.
  intros Hc Ht r n.
  change (2 ^ 32) with 4294967296 in Ht.
  destruct (Z.eq_dec c 0) as [E0|Hnz].
  - assert (Hr : r = 0).
    { unfold r. subst c.
      destruct (of_int_normal t ltac:(change (2 ^ 53) with 9007199254740992; lia))
        as [M [E [-> _]]].
      rewrite of_int_100. change (of_int 0) with (S754_zero false). reflexivity. }
    assert (Hn : n = 0).
    { unfold n. subst c. apply Z.div_small. lia. }
    rewrite Hr, Hn. split; [lia | reflexivity].
  - destruct (percent_units c t ltac:(lia)
                ltac:(change (2 ^ 53) with 9007199254740992; lia))
      as [N' [k' [Hr [Hk' [HN0 Hd]]]]].
    fold r in Hr.
    assert (Epk : 2 ^ k' = 2 * 2 ^ (k' - 1)).
    { rewrite <- Z.pow_succ_r by lia. f_equal. lia. }
    assert (HT : 2 ^ 44 <= 2 ^ (k' - 1)) by (apply Z.pow_le_mono_r; lia).
    change (2 ^ 44) with 17592186044416 in HT.
    rewrite Epk in Hr. set (T := 2 ^ (k' - 1)) in *.
    rewrite Epk in Hd.
    assert (Hn1 : 2 * t * n <= 2 * (100 * c) + t) by (apply Z.mul_div_le; lia).
    assert (Hn2 : 2 * (100 * c) + t < 2 * t * Z.succ n)
      by (apply Z.mul_succ_div_gt; lia).
    assert (Hn0 : 0 <= n) by (apply Z.div_pos; lia).
    assert (Hup : 2 * (N' * t) <= 2 * (100 * c * (2 * T)) + 3 * t) by lia.
    assert (Hlo : 2 * (100 * c * (2 * T)) - 3 * t <= 2 * (N' * t)) by lia.
    assert (Hle : r <= n).
    { assert (r < n + 1); [|lia]. rewrite Hr.
      apply Z.div_lt_upper_bound; [lia|].
      assert (2 * (N' * t) < (2 * n + 1) * (2 * T) * t) by nia.
      assert (N' < (2 * n + 1) * T) by nia. lia. }
    split; [split; [|exact Hle]|].
    + rewrite Hr. apply Z.div_le_lower_bound; [lia|].
      assert ((2 * n - 1) * (2 * T) * t - 3 * t <= 2 * (N' * t)) by nia.
      assert ((2 * n - 1) * (2 * T) - 3 <= 2 * N') by nia. lia.
    + intros Hmod.
      assert (Hstrict : 2 * t * n < 2 * (100 * c) + t).
      { destruct (Z.eq_dec (2 * t * n) (2 * (100 * c) + t)) as [Eq|]; [|lia].
        exfalso. apply Hmod. rewrite <- Eq, Z.mul_comm. apply Z.mod_mul. lia. }
      assert (n <= r); [|lia]. rewrite Hr.
      apply Z.div_le_lower_bound; [lia|].
      assert ((2 * n - 1) * (2 * T) * t < 2 * (N' * t)) by nia.
      assert ((2 * n - 1) * (2 * T) < 2 * N') by nia. lia.
Qed.

End Binary64.

(** ** Task progress *)

Lemma countCompleted_le_all subs : countCompletedSubs subs <= countAllSubs subs.
Proof. unfold countCompletedSubs, countAllSubs. apply filter_length_le. Qed.

Lemma taskProg_eq task :
  taskProg task =
  let tree := decoded_tree task in
  if Nat.ltb 0 (countAllSubs tree) then
    Math.round (fmul (fdiv (of_int (Z.of_nat (countCompletedSubs tree)))
                           (of_int (Z.of_nat (countAllSubs tree))))
                     (of_int 100))
  else match status task with
       | COMPLETED => 100%Z
       | IN_PROGRESS => 50%Z
       | PENDING => 0%Z
       end.
Proof. reflexivity. Qed.

(** With an empty tree the progress comes from the status. *)
Lemma taskProg_empty_tree task :
  decoded_tree task = [] ->
  taskProg task = match status task with
                  | COMPLETED => 100%Z
                  | IN_PROGRESS => 50%Z
                  | PENDING => 0%Z
                  end.
Proof. intros H. rewrite taskProg_eq, H. reflexivity. Qed.

(** The nested scenario: three nodes, two completed, progress 67; and the
    flat scenario: two nodes, one completed, progress 50. *)
Lemma taskProg_scenarios :
  taskProg (mkTask (Some (qq
    "{'text':'','subtasks':[{'id':'a','completed':true,'children':[{'id':'c','completed':false}]},{'id':'b','completed':true}]}"))
    PENDING) = 67%Z /\
  taskProg (mkTask (Some (qq
    "{'text':'','subtasks':[{'id':'a','completed':true},{'id':'b','completed':false}]}"))
    PENDING) = 50%Z /\
  taskProg (mkTask None IN_PROGRESS) = 50%Z.
Proof. repeat split; vm_compute; reflexivity. Qed.

(** Below 40 nodes the progress of a non-empty tree is the
    specification's [round (100 * completed / total)]. *)
Lemma percent_agrees_below_40 : percent_agrees_below 40 = true.
Proof. vm_compute. reflexivity. Qed.

Lemma percent_agrees_spec n :
  percent_agrees_below n = true ->
  forall t c, 0 < t < n -> c <= t ->
    Math.round (fmul (fdiv (of_int (Z.of_nat c)) (of_int (Z.of_nat t))) (of_int 100))
    = round_percent c t.
Proof.
  unfold percent_agrees_below. intros H t c Ht Hc.
  rewrite forallb_forall in H.
  assert (Hin : In t (seq 1 (n - 1))) by (apply in_seq; lia).
  specialize (H t Hin). rewrite forallb_forall in H.
  apply Z.eqb_eq. apply H. apply in_seq. lia.
Qed.

Lemma taskProg_small_tree task :
  0 < countAllSubs (decoded_tree task) < 40 ->
  taskProg task
  = round_percent (countCompletedSubs (decoded_tree task))
                  (countAllSubs (decoded_tree task)).
Proof.
  intros H. rewrite taskProg_eq. cbv zeta.
  destruct (Nat.ltb_spec 0 (countAllSubs (decoded_tree task))) as [_|]; [|lia].
  apply (percent_agrees_spec 40 percent_agrees_below_40); [exact H|].
  apply countCompleted_le_all.
Qed.

(** For a non-empty tree of fewer than 2^32 nodes the progress is never
    above the specification's value and at most one below it; the two
    are equal whenever [100 * completed / total] is not half-way between
    two integers. *)
Lemma taskProg_near_percent task :
  let tree := decoded_tree task in
  0 < countAllSubs tree ->
  (Z.of_nat (countAllSubs tree) < 2 ^ 32)%Z ->
  (round_percent (countCompletedSubs tree) (countAllSubs tree) - 1
   <= taskProg task
   <= round_percent (countCompletedSubs tree) (countAllSubs tree))%Z
  /\ (((2 * (100 * Z.of_nat (countCompletedSubs tree))
        + Z.of_nat (countAllSubs tree))
       mod (2 * Z.of_nat (countAllSubs tree)) <> 0)%Z ->
      taskProg task
      = round_percent (countCompletedSubs tree) (countAllSubs tree)).
Proof.
  intros tree Hpos Hsize. rewrite taskProg_eq. cbv zeta. fold tree.
  destruct (Nat.ltb_spec 0 (countAllSubs tree)) as [_|]; [|lia].
  apply Binary64.round_percentage_near.
  - pose proof (countCompleted_le_all tree). lia.
  - lia.
Qed.

(** C4 at a tie.  A task with 40 subtasks of which 23 are completed:
    [100 * 23 / 40] is 57.5, which rounds to 58, but [23 / 40 * 100] is
    the binary64 number 57.49999999999999 (8092405580431359 * 2^-47), so
    [taskProg] gives 57. *)
Theorem taskProg_tie_rounds_down :
  let tree := flat_tree 23 40 in
  let task := mkTask (encodeDesc "" tree) PENDING in
  decoded_tree task = tree /\
  countAllSubs tree = 40 /\
  countCompletedSubs tree = 23 /\
  fmul (fdiv (of_int 23) (of_int 40)) (of_int 100)
  = S754_finite false 8092405580431359 (-47) /\
  taskProg task = 57%Z /\
  round_percent 23 40 = 58%Z.
Proof. cbv zeta. repeat split; vm_compute; reflexivity. Qed.

(** ** Goal progress *)

(** The progress of a task is a percentage. *)
Lemma taskProg_range task :
  (Z.of_nat (countAllSubs (decoded_tree task)) < 2 ^ 53)%Z ->
  (0 <= taskProg task <= 100)%Z.
Proof.
  intros Hsize. rewrite taskProg_eq. cbv zeta.
  destruct (Nat.ltb_spec 0 (countAllSubs (decoded_tree task))) as [Hpos|_].
  - apply Binary64.round_percentage.
    + pose proof (countCompleted_le_all (decoded_tree task)). lia.
    + lia.
  - destruct (status task); lia.
Qed.

Lemma fold_left_sum (f : Task -> Z) l acc :
  fold_left (fun s tk => (s + f tk)%Z) l acc
  = (acc + fold_right Z.add 0%Z (map f l))%Z.
Proof.
  revert acc. induction l as [|x l IH]; intros acc; simpl.
  - lia.
  - rewrite IH. lia.
Qed.

Lemma sum_percentages l :
  Forall (fun v => 0 <= v <= 100)%Z l ->
  (0 <= fold_right Z.add 0 l <= 100 * Z.of_nat (List.length l))%Z.
Proof.
  induction 1 as [|v l Hv _ IH].
  - simpl. lia.
  - cbn [fold_right List.length]. rewrite Nat2Z.inj_succ. lia.
Qed.

(** C9 (goal progress).  For every goal whose tasks have descriptions
    that hold trees of nodes (or no tree at all), [goalProg] is [0] when
    the goal has no tasks, and otherwise the mean of [taskProg] over all
    the tasks of all its milestones taken together, each counted once,
    rounded to the nearest integer.  (A JavaScript array has fewer than
    2^32 elements: this bounds the number of tasks and the number of
    nodes of a subtask tree.  On a description whose subtasks are not all
    nodes, a [null] among them for one, the helpers throw or count
    something else, and nothing is stated.) *)
Theorem goalProg_rounded_mean (goal : option Goal) :
  (forall tk, In tk (allTasks goal) -> well_formed tk = true) ->
  (Z.of_nat (List.length (allTasks goal)) < 2 ^ 32)%Z ->
  (forall tk, In tk (allTasks goal) ->
              (Z.of_nat (countAllSubs (decoded_tree tk)) < 2 ^ 32)%Z) ->
  goalProg goal = round_mean (map taskProg (allTasks goal))
  /\ (allTasks goal = [] -> goalProg goal = 0%Z)
  /\ allTasks goal
     = match goal with
       | Some g =>
           match milestones g with
           | Some ms =>
               List.concat (map (fun m => match tasks m with
                                     | Some ts => ts
                                     | None => []
                                     end) ms)
           | None => []
           end
       | None => []
       end.
Proof.
  intros _ Hlen Hsize. split; [|split].
  - unfold goalProg. cbv zeta.
    destruct (allTasks goal) as [|tk l] eqn:El; [reflexivity|].
    cbn [List.length Nat.eqb negb].
    rewrite fold_left_sum, Z.add_0_l.
    assert (Hall : Forall (fun v => 0 <= v <= 100)%Z (map taskProg (tk :: l))).
    { apply Forall_map, Forall_forall. intros x Hx. apply taskProg_range.
      specialize (Hsize x Hx). change (2 ^ 32)%Z with 4294967296%Z in Hsize.
      change (2 ^ 53)%Z with 9007199254740992%Z. lia. }
    pose proof (sum_percentages _ Hall) as Hsum.
    rewrite length_map in Hsum.
    change (2 ^ 32)%Z with 4294967296%Z in Hlen.
    rewrite Binary64.round_fdiv_of_int.
    + unfold round_mean. cbn [map List.length]. rewrite length_map. reflexivity.
    + change (2 ^ 52)%Z with 4503599627370496%Z. lia.
    + change (2 ^ 53)%Z with 9007199254740992%Z.
      cbn [List.length] in *. lia.
  - intros E. unfold goalProg. rewrite E. reflexivity.
  - unfold allTasks. destruct goal as [g|]; [|reflexivity].
    destruct (milestones g) as [ms|]; [|reflexivity].
    apply flat_map_concat_map.
Qed.

(** A goal with two milestones and three tasks, of progress 100, 50 and
    67: the mean 72.33 rounds to 72. *)
Lemma goalProg_rounded_mean_witness :
  let nested := mkTask (Some (qq
    "{'text':'','subtasks':[{'id':'a','completed':true,'children':[{'id':'c','completed':false}]},{'id':'b','completed':true}]}"))
    PENDING in
  let goal := Some (mkGoal (Some
    [mkMilestone (Some [mkTask None COMPLETED; mkTask (Some "notes"%string) IN_PROGRESS]);
     mkMilestone (Some [nested])])) in
  (forall tk, In tk (allTasks goal) -> well_formed tk = true) /\
  (Z.of_nat (List.length (allTasks goal)) < 2 ^ 32)%Z /\
  (forall tk, In tk (allTasks goal) ->
              (Z.of_nat (countAllSubs (decoded_tree tk)) < 2 ^ 32)%Z) /\
  map taskProg (allTasks goal) = [100; 50; 67]%Z /\
  goalProg goal = 72%Z.
Proof.
  intros nested goal.
  assert (H0 : forall tk, In tk (allTasks goal) -> well_formed tk = true).
  { intros tk [<-|[<-|[<-|[]]]]; vm_compute; reflexivity. }
  assert (H1 : (Z.of_nat (List.length (allTasks goal)) < 2 ^ 32)%Z)
    by (vm_compute; reflexivity).
  assert (H2 : forall tk, In tk (allTasks goal) ->
                          (Z.of_nat (countAllSubs (decoded_tree tk)) < 2 ^ 32)%Z).
  { intros tk [<-|[<-|[<-|[]]]]; vm_compute; reflexivity. }
  split; [exact H0|]. split; [exact H1|]. split; [exact H2|].
  split; [vm_compute; reflexivity|].
  rewrite (proj1 (goalProg_rounded_mean goal H0 H1 H2)).
  vm_compute. reflexivity.
Defined.
(** ** How the by-id operations compose *)

Lemma toggleSub_at_comm i j s :
  toggleSub_at i (toggleSub_at j s) = toggleSub_at j (toggleSub_at i s).
Proof.
  induction s as [k t c cs IH] using SubtaskNode_forall_ind.
  rewrite (toggleSub_at_eq j), (toggleSub_at_eq i).
  destruct (String.eqb k j) eqn:Ej, (String.eqb k i) eqn:Ei.
  - rewrite !toggleSub_at_eq, Ei, Ej. reflexivity.
  - rewrite toggleSub_at_eq, Ei.
    destruct cs as [|x cs]; rewrite toggleSub_at_eq, Ej; reflexivity.
  - rewrite toggleSub_at_eq, Ej.
    destruct cs as [|x cs]; rewrite toggleSub_at_eq, Ei; reflexivity.
  - destruct cs as [|x cs].
    + rewrite !toggleSub_at_eq, Ei, Ej. reflexivity.
    + rewrite !toggleSub_at_eq, Ei, Ej.
      unfold toggleSubById. cbn [map]. f_equal.
      inversion IH as [|? ? Hx Hcs]; subst. f_equal; [exact Hx|].
      clear Hx IH. induction Hcs as [|y l Hy _ IHl]; [reflexivity|].
      cbn [map]. now rewrite Hy, IHl.
Qed.

(** X1.  Toggling two ids gives the same tree in either order, for every
    tree, also one in which an id occurs more than once or one of the
    nodes lies below the other. *)
Theorem toggleSubById_commutes (subs : list SubtaskNode) (i j : string) :
  toggleSubById (toggleSubById subs i) j
  = toggleSubById (toggleSubById subs j) i.
Proof.
  unfold toggleSubById. rewrite !map_map.
  apply map_ext. intros s. apply toggleSub_at_comm.
Qed.

Lemma removeSub_at_id i s : id (removeSub_at i s) = id s.
Proof. destruct s as [j t c cs]. rewrite removeSub_at_eq. destruct cs; reflexivity. Qed.

Lemma toggleSub_at_id i s : id (toggleSub_at i s) = id s.
Proof.
  destruct s as [j t c cs]. rewrite toggleSub_at_eq.
  destruct (String.eqb j i); [reflexivity|]. destruct cs; reflexivity.
Qed.

Lemma addChildSub_at_id i child s : id (addChildSub_at i child s) = id s.
Proof.
  destruct s as [j t c cs]. rewrite addChildSub_at_eq.
  destruct (String.eqb j i); [reflexivity|]. destruct cs; reflexivity.
Qed.

Lemma toggleSub_at_children i j t c cs :
  String.eqb j i = false ->
  toggleSub_at i (mkSub j t c cs) = mkSub j t c (toggleSubById cs i).
Proof. intros E. rewrite toggleSub_at_eq, E. destruct cs; reflexivity. Qed.

Lemma addChildSub_at_children i child j t c cs :
  String.eqb j i = false ->
  addChildSub_at i child (mkSub j t c cs) = mkSub j t c (addChildSub cs i child).
Proof. intros E. rewrite addChildSub_at_eq, E. destruct cs; reflexivity. Qed.

Lemma removeSubById_app l1 l2 i :
  removeSubById (l1 ++ l2) i = removeSubById l1 i ++ removeSubById l2 i.
Proof. unfold removeSubById. now rewrite filter_app, map_app. Qed.

Lemma removeSub_comm_list i j l :
  Forall (fun s => removeSub_at j (removeSub_at i s)
                   = removeSub_at i (removeSub_at j s)) l ->
  removeSubById (removeSubById l i) j = removeSubById (removeSubById l j) i.
Proof.
  induction 1 as [|y l Hy _ IHl]; [reflexivity|].
  rewrite (removeSubById_cons y l i), (removeSubById_cons y l j).
  destruct (String.eqb (id y) i) eqn:Ei, (String.eqb (id y) j) eqn:Ej.
  - exact IHl.
  - rewrite removeSubById_cons, removeSub_at_id, Ei. exact IHl.
  - rewrite removeSubById_cons, removeSub_at_id, Ej. exact IHl.
  - rewrite !removeSubById_cons, !removeSub_at_id, Ei, Ej.
    now rewrite Hy, IHl.
Qed.

Lemma removeSub_at_comm i j s :
  removeSub_at j (removeSub_at i s) = removeSub_at i (removeSub_at j s).
Proof.
  induction s as [k t c cs IH] using SubtaskNode_forall_ind.
  rewrite !removeSub_at_children. f_equal.
  now apply removeSub_comm_list.
Qed.

(** X2.  Removing two ids gives the same tree in either order, and
    removing an id a second time changes nothing. *)
Theorem removeSubById_commutes (subs : list SubtaskNode) (i j : string) :
  removeSubById (removeSubById subs i) j
  = removeSubById (removeSubById subs j) i
  /\ removeSubById (removeSubById subs i) i = removeSubById subs i.
Proof.
  split.
  - apply removeSub_comm_list, Forall_all. intros s. apply removeSub_at_comm.
  - apply removeSubById_absent, remove_all_matches.
Qed.

Lemma toggle_remove_list i j l :
  Forall (fun s => removeSub_at j (toggleSub_at i s)
                   = toggleSub_at i (removeSub_at j s)) l ->
  removeSubById (toggleSubById l i) j = toggleSubById (removeSubById l j) i.
Proof.
  induction 1 as [|y l Hy _ IHl]; [reflexivity|].
  change (toggleSubById (y :: l) i)
    with (toggleSub_at i y :: toggleSubById l i).
  rewrite !removeSubById_cons, toggleSub_at_id.
  destruct (String.eqb (id y) j); [exact IHl|].
  change (toggleSubById (?a :: ?b) i)
    with (toggleSub_at i a :: toggleSubById b i).
  now rewrite Hy, IHl.
Qed.

Lemma toggle_remove_at i j s :
  removeSub_at j (toggleSub_at i s) = toggleSub_at i (removeSub_at j s).
Proof.
  induction s as [k t c cs IH] using SubtaskNode_forall_ind.
  rewrite (removeSub_at_children j k t c cs).
  destruct (String.eqb k i) eqn:Ei.
  - rewrite !toggleSub_at_eq, Ei. apply removeSub_at_children.
  - rewrite !toggleSub_at_children by exact Ei.
    rewrite removeSub_at_children. f_equal.
    now apply toggle_remove_list.
Qed.

(** X3.  Toggling one id and removing another (or the same) gives the
    same tree in either order. *)
Theorem toggle_remove_commute (subs : list SubtaskNode) (i j : string) :
  removeSubById (toggleSubById subs i) j
  = toggleSubById (removeSubById subs j) i.
Proof.
  apply toggle_remove_list, Forall_all. intros s. apply toggle_remove_at.
Qed.

Lemma add_remove_list p child l :
  Forall (fun s => occurrences (id child) [s] = 0 ->
                   removeSub_at (id child) (addChildSub_at p child s) = s) l ->
  occurrences (id child) l = 0 ->
  removeSubById (addChildSub l p child) (id child) = l.
Proof.
  induction 1 as [|y l Hy _ IHl]; [reflexivity|].
  rewrite occurrences_cons. intros Ho.
  change (addChildSub (y :: l) p child)
    with (addChildSub_at p child y :: addChildSub l p child).
  rewrite removeSubById_cons, addChildSub_at_id.
  destruct (String.eqb (id y) (id child)) eqn:E; [lia|].
  rewrite Hy, IHl; [reflexivity | lia |].
  rewrite occurrences_single, E. lia.
Qed.

Lemma add_remove_at p child s :
  occurrences (id child) [s] = 0 ->
  removeSub_at (id child) (addChildSub_at p child s) = s.
Proof.
  induction s as [k t c cs IH] using SubtaskNode_forall_ind.
  rewrite occurrences_single. cbn [id children].
  destruct (String.eqb k (id child)) eqn:Ek; [discriminate|].
  intros Ho. cbn [Nat.add] in Ho.
  destruct (String.eqb k p) eqn:Ep.
  - rewrite addChildSub_at_eq, Ep, removeSub_at_children. f_equal.
    rewrite removeSubById_app, (removeSubById_absent cs) by exact Ho.
    rewrite removeSubById_cons, String.eqb_refl. apply app_nil_r.
  - rewrite addChildSub_at_children by exact Ep.
    rewrite removeSub_at_children. f_equal.
    now apply add_remove_list.
Qed.

(** X4.  Removing a child that was just added restores the tree: for a
    child whose id no node of the tree carries,
    [removeSubById (addChildSub subs p child) (id child)] is [subs],
    wherever and however often the parent id [p] occurs. *)
Theorem addChildSub_then_remove (subs : list SubtaskNode) (p : string)
  (child : SubtaskNode) :
  ~ In (id child) (ids subs) ->
  removeSubById (addChildSub subs p child) (id child) = subs.
Proof.
  intros H. apply add_remove_list.
  - apply Forall_all. intros s. apply add_remove_at.
  - apply occurrences_absent. exact H.
Qed.

Lemma addChildSub_then_remove_witness :
  let tree := [mkSub "a" "first" false [mkSub "b" "inner" true []];
               mkSub "c" "second" false []] in
  let child := newSub "n" "new" in
  ~ In (id child) (ids tree) /\
  addChildSub tree "a" child
  = [mkSub "a" "first" false [mkSub "b" "inner" true []; child];
     mkSub "c" "second" false []] /\
  removeSubById (addChildSub tree "a" child) "n" = tree.
Proof.
  intros tree child.
  assert (H : ~ In (id child) (ids tree)).
  { simpl. intros [E|[E|[E|[]]]]; discriminate E. }
  split; [exact H|]. split; [reflexivity|].
  exact (addChildSub_then_remove tree "a" child H).
Defined.

(** ** Weights: counting the nodes of a tree by their labels *)

Lemma list_sum_cons a l : list_sum (a :: l) = a + list_sum l.
Proof. reflexivity. Qed.

Lemma weight_cons w s rest :
  weight w (s :: rest) = w (label s) + weight w (children s) + weight w rest.
Proof.
  unfold weight. rewrite flattenSubs_cons. cbn [map].
  rewrite list_sum_cons, map_app, list_sum_app. lia.
Qed.

Lemma weight_nil w : weight w [] = 0.
Proof. reflexivity. Qed.

Lemma weight_single w s : weight w [s] = w (label s) + weight w (children s).
Proof. rewrite weight_cons, weight_nil. lia. Qed.

Lemma weight_split w s rest : weight w (s :: rest) = weight w [s] + weight w rest.
Proof. rewrite weight_cons, weight_single. lia. Qed.

Lemma weight_app w l1 l2 : weight w (l1 ++ l2) = weight w l1 + weight w l2.
Proof.
  unfold weight. now rewrite flattenSubs_app, map_app, list_sum_app.
Qed.

Lemma occurrences_weight x subs :
  occurrences x subs
  = weight (fun l => if String.eqb (fst (fst l)) x then 1 else 0) subs.
Proof.
  unfold occurrences, weight.
  induction (flattenSubs subs) as [|n l IH]; [reflexivity|].
  cbn [map count_occ label fst]. rewrite list_sum_cons, IH.
  destruct (string_dec (id n) x) as [e|e].
  - apply String.eqb_eq in e. now rewrite e.
  - apply String.eqb_neq in e. now rewrite e.
Qed.

Lemma countCompletedSubs_weight subs :
  countCompletedSubs subs = weight (fun l => if snd l then 1 else 0) subs.
Proof.
  unfold countCompletedSubs, weight.
  induction (flattenSubs subs) as [|n l IH]; [reflexivity|].
  cbn [map filter label snd]. rewrite list_sum_cons.
  destruct (completed n); cbn [List.length]; now rewrite IH.
Qed.

Lemma countAllSubs_weight subs : countAllSubs subs = weight (fun _ => 1) subs.
Proof.
  unfold countAllSubs, weight.
  induction (flattenSubs subs) as [|n l IH]; [reflexivity|].
  cbn [map List.length]. now rewrite list_sum_cons, IH.
Qed.

(** Adding a child adds its weight once per node reached. *)
Lemma addChild_weight_list w i child l :
  Forall (fun s => weight w [addChildSub_at i child s]
                   = weight w [s] + hits i [s] * weight w [child]) l ->
  weight w (addChildSub l i child)
  = weight w l + hits i l * weight w [child].
Proof.
  unfold addChildSub.
  induction 1 as [|y l Hy _ IHl]; [reflexivity|].
  cbn [map].
  rewrite (weight_split w y l),
    (weight_split w (addChildSub_at i child y) (map (addChildSub_at i child) l)),
    (hits_cons i y l), Hy, IHl.
  lia.
Qed.

Lemma addChild_weight_at w i child s :
  weight w [addChildSub_at i child s]
  = weight w [s] + hits i [s] * weight w [child].
Proof.
  induction s as [j t c cs IH] using SubtaskNode_forall_ind.
  rewrite hits_single.
  destruct (String.eqb j i) eqn:E.
  - rewrite addChildSub_at_eq, E.
    rewrite (weight_single w (mkSub j t c (cs ++ [child]))),
      (weight_single w (mkSub j t c cs)).
    unfold label. cbn [children id title completed].
    rewrite weight_app. lia.
  - rewrite addChildSub_at_children by exact E.
    rewrite (weight_single w (mkSub j t c (addChildSub cs i child))),
      (weight_single w (mkSub j t c cs)).
    unfold label. cbn [children id title completed].
    rewrite (addChild_weight_list w i child cs IH). lia.
Qed.

Lemma addChild_weight w i child subs :
  weight w (addChildSub subs i child)
  = weight w subs + hits i subs * weight w [child].
Proof.
  apply addChild_weight_list, Forall_all. intros s. apply addChild_weight_at.
Qed.

(** Removing never adds weight. *)
Lemma survivors_weight_at w i s :
  list_sum (map w (map label (survivors_at i s))) <= weight w [s].
Proof.
  induction s as [j t c cs IH] using SubtaskNode_forall_ind.
  rewrite weight_single. cbn [survivors_at children].
  destruct (String.eqb j i); [simpl; lia|].
  cbn [map]. rewrite list_sum_cons. apply Nat.add_le_mono_l.
  induction IH as [|y l Hy _ IHl]; [simpl; lia|].
  cbn [flat_map]. rewrite !map_app, list_sum_app.
  rewrite (weight_split w y l). lia.
Qed.

Lemma remove_weight w i subs :
  weight w (removeSubById subs i) <= weight w subs.
Proof.
  unfold weight at 1.
  rewrite <- (map_map label w), remove_labels.
  unfold survivors.
  induction subs as [|y l IHl]; [simpl; lia|].
  cbn [flat_map]. rewrite !map_app, list_sum_app.
  rewrite (weight_split w y l). pose proof (survivors_weight_at w i y). lia.
Qed.

Lemma toggle_occurrences x i subs :
  occurrences x (toggleSubById subs i) = occurrences x subs.
Proof.
  unfold occurrences.
  replace (map id (flattenSubs (toggleSubById subs i)))
    with (map fst (map (fun n => (id n, title n)) (flattenSubs (toggleSubById subs i))))
    by (rewrite map_map; reflexivity).
  rewrite toggle_names, map_map. reflexivity.
Qed.

Lemma hits_le_occurrences i subs : hits i subs <= occurrences i subs.
Proof.
  assert (Hat : forall s, hits i [s] <= occurrences i [s]).
  { intros s. induction s as [j t c cs IH] using SubtaskNode_forall_ind.
    rewrite hits_single, occurrences_single. cbn [id children].
    destruct (String.eqb j i); [lia|]. cbn [Nat.add].
    induction IH as [|y l Hy _ IHl]; [unfold hits; simpl; lia|].
    rewrite hits_cons, occurrences_cons.
    rewrite occurrences_single in Hy. lia. }
  induction subs as [|y l IHl]; [unfold hits; simpl; lia|].
  rewrite hits_cons, occurrences_cons. specialize (Hat y).
  rewrite occurrences_single in Hat. lia.
Qed.

(** ** The subtask editor *)

Lemma occurrences_In_iff x subs : In x (ids subs) <-> 0 < occurrences x subs.
Proof. unfold ids, occurrences. apply count_occ_In. Qed.

Lemma occurrences_newSub x u t :
  occurrences x [newSub u t] = if String.eqb u x then 1 else 0.
Proof. rewrite occurrences_single. cbn [newSub id children]. rewrite occurrences_nil. lia. Qed.

Lemma occurrences_app x l1 l2 :
  occurrences x (l1 ++ l2) = occurrences x l1 + occurrences x l2.
Proof. rewrite !occurrences_weight. apply weight_app. Qed.

Lemma minted_cons a rest :
  Form.minted (a :: rest) = Form.minted [a] ++ Form.minted rest.
Proof. unfold Form.minted. cbn [flat_map]. now rewrite app_nil_r. Qed.

(** An id that an action did not mint occurs no more often after it. *)
Lemma act_occurrences_other st a x :
  ~ In x (Form.minted [a]) ->
  occurrences x (Form.subtasks (Form.act st a))
  <= occurrences x (Form.subtasks st).
Proof.
  intros Hx. destruct a as [s|s|s|s|s|u|u p txt|i]; cbn [Form.act]; try apply Nat.le_refl.
  - unfold Form.addRootSub. destruct (String.eqb (trim (Form.sub st)) ""); [apply Nat.le_refl|].
    cbn [Form.setSub Form.setSubtasks Form.subtasks].
    rewrite occurrences_app, occurrences_newSub.
    destruct (String.eqb_spec u x) as [->|_]; [|lia].
    exfalso. apply Hx. simpl. now left.
  - unfold Form.handleAddChild. destruct (String.eqb (trim txt) ""); [apply Nat.le_refl|].
    unfold Form.addChild. cbn [Form.setSubtasks Form.subtasks].
    rewrite !occurrences_weight, addChild_weight, <- !occurrences_weight.
    rewrite occurrences_newSub.
    destruct (String.eqb_spec u x) as [->|_]; [|lia].
    exfalso. apply Hx. simpl. now left.
  - unfold Form.removeSub. cbn [Form.setSubtasks Form.subtasks].
    rewrite !occurrences_weight. apply remove_weight.
Qed.

Lemma act_occurrences_minted st a u :
  In u (Form.minted [a]) ->
  occurrences u (Form.subtasks st) = 0 ->
  (forall x, occurrences x (Form.subtasks st) <= 1) ->
  occurrences u (Form.subtasks (Form.act st a)) <= 1.
Proof.
  intros Hu H0 Huniq.
  destruct a as [s|s|s|s|s|v|v p txt|i]; cbn [Form.act]; try (simpl in Hu; tauto).
  - unfold Form.addRootSub. destruct (String.eqb (trim (Form.sub st)) ""); [lia|].
    cbn [Form.setSub Form.setSubtasks Form.subtasks].
    rewrite occurrences_app, occurrences_newSub. destruct (String.eqb v u); lia.
  - unfold Form.handleAddChild. destruct (String.eqb (trim txt) ""); [lia|].
    unfold Form.addChild. cbn [Form.setSubtasks Form.subtasks].
    rewrite !occurrences_weight, addChild_weight, <- !occurrences_weight.
    rewrite occurrences_newSub.
    pose proof (hits_le_occurrences p (Form.subtasks st)).
    specialize (Huniq p).
    destruct (String.eqb v u); nia.
Qed.

Lemma act_keeps_ids_unique st a :
  NoDup (ids (Form.subtasks st)) ->
  (forall u, In u (Form.minted [a]) -> ~ In u (ids (Form.subtasks st))) ->
  NoDup (ids (Form.subtasks (Form.act st a))).
Proof.
  intros Hnd Hfresh.
  apply (NoDup_count_occ string_dec). intros x.
  assert (Huniq : forall y, occurrences y (Form.subtasks st) <= 1)
    by (intros y; apply (NoDup_count_occ string_dec); exact Hnd).
  change (occurrences x (Form.subtasks (Form.act st a)) <= 1).
  destruct (in_dec string_dec x (Form.minted [a])) as [Hin|Hout].
  - apply act_occurrences_minted; [exact Hin| |exact Huniq].
    apply occurrences_absent. apply Hfresh. exact Hin.
  - pose proof (act_occurrences_other st a x Hout). specialize (Huniq x). lia.
Qed.

Lemma act_ids_incl st a x :
  In x (ids (Form.subtasks (Form.act st a))) ->
  In x (ids (Form.subtasks st)) \/ In x (Form.minted [a]).
Proof.
  intros Hin. destruct (in_dec string_dec x (Form.minted [a])) as [Hm|Hout];
    [now right|left].
  apply occurrences_In_iff. apply occurrences_In_iff in Hin.
  pose proof (act_occurrences_other st a x Hout). lia.
Qed.

(** X5.  The editor keeps the ids of the tree distinct.  From a form
    whose tree has no id twice, through any sequence of actions in which
    [uid()] returns ids that are new (distinct from one another and from
    the ids the tree started with), the tree never has an id twice. *)
Theorem editor_keeps_ids_unique (st : Form.State) (actions : list Form.Action) :
  NoDup (ids (Form.subtasks st) ++ Form.minted actions) ->
  NoDup (ids (Form.subtasks (fold_left Form.act actions st))).
Proof.
  revert st. induction actions as [|a rest IH]; intros st H.
  - cbn [fold_left]. unfold Form.minted in H. cbn [flat_map] in H.
    now rewrite app_nil_r in H.
  - cbn [fold_left]. apply IH.
    rewrite minted_cons in H.
    assert (H1 : NoDup (ids (Form.subtasks st))) by (eapply NoDup_app_remove_r; exact H).
    assert (H2 : NoDup (Form.minted [a] ++ Form.minted rest))
      by (eapply NoDup_app_remove_l; exact H).
    assert (Hdis : forall x, In x (ids (Form.subtasks st)) ->
                             ~ In x (Form.minted [a] ++ Form.minted rest)).
    { intros x Hx Hm. apply in_split in Hx. destruct Hx as [l1 [l2 E]].
      rewrite E in H. rewrite <- app_assoc in H. cbn [app] in H.
      apply NoDup_remove_2 in H. apply H.
      rewrite app_assoc. apply in_or_app. now right. }
    apply NoDup_app.
    + apply act_keeps_ids_unique; [exact H1|].
      intros u Hu Hin. apply (Hdis u Hin). apply in_or_app. now left.
    + eapply NoDup_app_remove_l; exact H2.
    + intros x Hx Hr. apply act_ids_incl in Hx. destruct Hx as [Hx|Hx].
      * apply (Hdis x Hx). apply in_or_app. now right.
      * apply in_split in Hx. destruct Hx as [l1 [l2 E]].
        rewrite E in H2. rewrite <- app_assoc in H2. cbn [app] in H2.
        apply NoDup_remove_2 in H2. apply H2.
        rewrite app_assoc. apply in_or_app. now right.
Qed.

Lemma editor_keeps_ids_unique_witness :
  let actions :=
    [Form.Type_sub " Read chapter 1"; Form.Add_root "k3x9";
     Form.Add_child "p7q2" "k3x9" "Take notes";
     Form.Type_sub "Review"; Form.Add_root "z1m4"; Form.Remove "p7q2"] in
  NoDup (ids (Form.subtasks Form.initial) ++ Form.minted actions) /\
  Form.subtasks (fold_left Form.act actions Form.initial)
  = [mkSub "k3x9" "Read chapter 1" false []; mkSub "z1m4" "Review" false []] /\
  NoDup (ids (Form.subtasks (fold_left Form.act actions Form.initial))).
Proof.
  intros actions.
  assert (H : NoDup (ids (Form.subtasks Form.initial) ++ Form.minted actions)).
  { cbn. repeat (constructor; [simpl; intuition discriminate|]). constructor. }
  split; [exact H|]. split; [reflexivity|].
  exact (editor_keeps_ids_unique Form.initial actions H).
Defined.


(** ** Where a new child goes *)

Lemma childrenOf_at_eq i j t c cs :
  childrenOf_at i (mkSub j t c cs)
  = if String.eqb j i then Some cs else childrenOf i cs.
Proof.
  cbn [childrenOf_at]. destruct (String.eqb j i); [reflexivity|].
  induction cs as [|x l IH]; [reflexivity|].
  cbn [childrenOf]. destruct (childrenOf_at i x); [reflexivity | exact IH].
Qed.

Lemma childrenOf_add_list p child l :
  Forall (fun s => childrenOf_at p (addChildSub_at p child s)
                   = option_map (fun cs => cs ++ [child]) (childrenOf_at p s)) l ->
  childrenOf p (addChildSub l p child)
  = option_map (fun cs => cs ++ [child]) (childrenOf p l).
Proof.
  unfold addChildSub.
  induction 1 as [|y l Hy _ IHl]; [reflexivity|].
  cbn [map childrenOf]. rewrite Hy.
  destruct (childrenOf_at p y); [reflexivity | exact IHl].
Qed.

Lemma childrenOf_add_at p child s :
  childrenOf_at p (addChildSub_at p child s)
  = option_map (fun cs => cs ++ [child]) (childrenOf_at p s).
Proof.
  induction s as [j t c cs IH] using SubtaskNode_forall_ind.
  destruct (String.eqb j p) eqn:E.
  - rewrite addChildSub_at_eq, E, !childrenOf_at_eq, E. reflexivity.
  - rewrite addChildSub_at_children by exact E.
    rewrite !childrenOf_at_eq, E. now apply childrenOf_add_list.
Qed.

Lemma childrenOf_add p child subs :
  childrenOf p (addChildSub subs p child)
  = option_map (fun cs => cs ++ [child]) (childrenOf p subs).
Proof.
  apply childrenOf_add_list, Forall_all. intros s. apply childrenOf_add_at.
Qed.

Lemma hits_positive_list p l :
  Forall (fun s => 0 < occurrences p [s] ->
                   0 < hits p [s] /\ childrenOf_at p s <> None) l ->
  0 < occurrences p l -> 0 < hits p l /\ childrenOf p l <> None.
Proof.
  induction 1 as [|y l Hy _ IHl].
  - rewrite occurrences_nil. lia.
  - rewrite (occurrences_split p y l), (hits_cons p y l). cbn [childrenOf].
    intros Ho.
    destruct (Nat.eq_dec (occurrences p [y]) 0) as [E|E].
    + destruct IHl as [H1 H2]; [lia|]. split; [lia|].
      destruct (childrenOf_at p y); [discriminate | exact H2].
    + destruct Hy as [H1 H2]; [lia|]. split; [lia|].
      destruct (childrenOf_at p y); [discriminate | congruence].
Qed.

Lemma hits_positive_at p s :
  0 < occurrences p [s] -> 0 < hits p [s] /\ childrenOf_at p s <> None.
Proof.
  induction s as [j t c cs IH] using SubtaskNode_forall_ind.
  rewrite occurrences_single, hits_single, childrenOf_at_eq. cbn [id children].
  destruct (String.eqb j p); [split; [lia | discriminate]|].
  cbn [Nat.add]. now apply hits_positive_list.
Qed.

Lemma hits_positive p subs :
  0 < occurrences p subs -> 0 < hits p subs /\ childrenOf p subs <> None.
Proof.
  apply hits_positive_list, Forall_all. intros s. apply hits_positive_at.
Qed.

(** X6.  Adding a sub-subtask from the node editor.  In a tree with
    distinct ids, pressing Add under a node with a non-blank text makes
    one new node, an incomplete leaf with the trimmed text, the last
    child of that node: the tree has one node more and as many completed
    nodes as before. *)
Theorem handleAddChild_appends (st : Form.State) (u nodeId childText : string) :
  NoDup (ids (Form.subtasks st)) ->
  In nodeId (ids (Form.subtasks st)) ->
  trim childText <> ""%string ->
  exists cs,
    childrenOf nodeId (Form.subtasks st) = Some cs
    /\ childrenOf nodeId (Form.subtasks (Form.handleAddChild u nodeId childText st))
       = Some (cs ++ [mkSub u (trim childText) false []])
    /\ countAllSubs (Form.subtasks (Form.handleAddChild u nodeId childText st))
       = countAllSubs (Form.subtasks st) + 1
    /\ countCompletedSubs (Form.subtasks (Form.handleAddChild u nodeId childText st))
       = countCompletedSubs (Form.subtasks st).
Proof.
  intros Hnd Hin Htext.
  apply occurrences_In_iff in Hin.
  destruct (hits_positive nodeId (Form.subtasks st) Hin) as [Hhit Hsome].
  assert (Hone : hits nodeId (Form.subtasks st) = 1).
  { pose proof (hits_le_occurrences nodeId (Form.subtasks st)).
    assert (occurrences nodeId (Form.subtasks st) <= 1)
      by (apply (NoDup_count_occ string_dec); exact Hnd).
    lia. }
  destruct (childrenOf nodeId (Form.subtasks st)) as [cs|] eqn:Ecs; [|congruence].
  exists cs. split; [reflexivity|].
  unfold Form.handleAddChild. apply String.eqb_neq in Htext. rewrite Htext.
  unfold Form.addChild. cbn [Form.setSubtasks Form.subtasks].
  split; [|split].
  - rewrite childrenOf_add, Ecs. reflexivity.
  - rewrite addChild_count, Hone. reflexivity.
  - rewrite !countCompletedSubs_weight, addChild_weight, Hone.
    replace (weight (fun l => if snd l then 1 else 0) [newSub u (trim childText)])
      with 0 by reflexivity.
    lia.
Qed.

Lemma handleAddChild_appends_witness :
  let st := Form.mkState "Essay" "" "" "MEDIUM"
              [mkSub "a" "Outline" true [mkSub "b" "Sources" false []];
               mkSub "c" "Draft" false []] "" in
  NoDup (ids (Form.subtasks st)) /\
  In "a"%string (ids (Form.subtasks st)) /\
  trim "  Thesis " <> ""%string /\
  Form.subtasks (Form.handleAddChild "n" "a" "  Thesis " st)
  = [mkSub "a" "Outline" true [mkSub "b" "Sources" false [];
                               mkSub "n" "Thesis" false []];
     mkSub "c" "Draft" false []] /\
  exists cs,
    childrenOf "a" (Form.subtasks st) = Some cs /\
    childrenOf "a" (Form.subtasks (Form.handleAddChild "n" "a" "  Thesis " st))
    = Some (cs ++ [mkSub "n" (trim "  Thesis ") false []]).
Proof.
  intros st.
  assert (H1 : NoDup (ids (Form.subtasks st))).
  { cbn. repeat (constructor; [simpl; intuition discriminate|]). constructor. }
  assert (H2 : In "a"%string (ids (Form.subtasks st))) by (simpl; now left).
  assert (H3 : trim "  Thesis " <> ""%string) by discriminate.
  split; [exact H1|]. split; [exact H2|]. split; [exact H3|].
  split; [reflexivity|].
  destruct (handleAddChild_appends st "n" "a" "  Thesis " H1 H2 H3)
    as [cs [E1 [E2 _]]].
  exists cs. split; [exact E1 | exact E2].
Defined.


(** ** What the forms submit *)

Lemma as_node_node_to_json s : as_node (node_to_json s) = s.
Proof.
  induction s as [i t c cs IH] using SubtaskNode_forall_ind.
  cbn. f_equal.
  induction IH as [|y l Hy _ IHl]; [reflexivity|].
  cbn [map]. now rewrite Hy, IHl.
Qed.

Lemma decoded_tree_encoded t s st :
  s <> [] -> decoded_tree (mkTask (encodeDesc t s) st) = s.
Proof.
  intros Hs. unfold decoded_tree. cbn [description].
  rewrite parseDesc_encodeDesc_subtasks by exact Hs.
  cbn [subtasks]. rewrite map_map.
  rewrite (map_ext _ (fun x => x)) by apply as_node_node_to_json.
  apply map_id.
Qed.

(** The objects the forms save are nodes, so every description
    [encodeDesc] builds from a tree is one that holds a tree of nodes. *)
Lemma node_shaped_node_to_json s : node_shaped (node_to_json s) = true.
Proof.
  induction s as [i t c cs IH] using SubtaskNode_forall_ind.
  cbn.
  induction IH as [|y l Hy _ IHl]; [reflexivity|].
  cbn [map forallb]. now rewrite Hy, IHl.
Qed.

Lemma encoded_well_formed t s st :
  s <> [] -> well_formed (mkTask (encodeDesc t s) st) = true.
Proof.
  intros Hs. unfold well_formed. cbn [description].
  rewrite parseDesc_encodeDesc_subtasks by exact Hs.
  cbn [subtasks]. rewrite forallb_forall. intros x Hx.
  apply in_map_iff in Hx. destruct Hx as [n [<- _]].
  apply node_shaped_node_to_json.
Qed.

(** X7.  What the task card reads from a stored description is the tree
    that was saved: for every text and every non-empty subtask list, the
    nodes that the helpers read from the description [encodeDesc] built
    (their ids, titles, flags and children, at every depth) are the
    nodes of the list, so the card counts and ticks what the form
    held. *)
Theorem decoded_tree_encodeDesc (t : string) (s : list SubtaskNode)
  (st : Status) :
  s <> [] ->
  decoded_tree (mkTask (encodeDesc t s) st) = s
  /\ countAllSubs (decoded_tree (mkTask (encodeDesc t s) st)) = countAllSubs s
  /\ countCompletedSubs (decoded_tree (mkTask (encodeDesc t s) st))
     = countCompletedSubs s.
Proof.
  intros Hs. rewrite (decoded_tree_encoded t s st Hs). auto.
Qed.

Lemma decoded_tree_encodeDesc_witness :
  let s := [mkSub "a" "Outline" true [mkSub "c" "Sources" false []];
            mkSub "b" "Draft" true []] in
  s <> [] /\
  encodeDesc "Essay" s
  = Some (qq "{'text':'Essay','subtasks':[{'id':'a','title':'Outline','completed':true,'children':[{'id':'c','title':'Sources','completed':false,'children':[]}]},{'id':'b','title':'Draft','completed':true,'children':[]}]}") /\
  decoded_tree (mkTask (encodeDesc "Essay" s) PENDING) = s.
Proof.
  intros s. assert (H : s <> []) by discriminate.
  split; [exact H|]. split; [reflexivity|].
  exact (proj1 (decoded_tree_encodeDesc "Essay" s PENDING H)).
Defined.

(** ** Descriptions determine what was saved *)

Lemma node_to_json_injective s s' :
  map node_to_json s = map node_to_json s' -> s = s'.
Proof.
  intros H.
  assert (R : forall l, map as_node (map node_to_json l) = l).
  { intros l. rewrite map_map.
    rewrite (map_ext _ (fun x => x)) by apply as_node_node_to_json.
    apply map_id. }
  rewrite <- (R s), <- (R s'), H. reflexivity.
Qed.

(** X8.  A stored description determines what the form held.  Two
    submissions that both have subtasks, or both have none, are stored as
    the same description only if they have the same text and the same
    subtask tree.  The stored value is [null] exactly when there is
    neither text nor subtask, and is never the empty string. *)
Theorem encodeDesc_injective (t t' : string) (s s' : list SubtaskNode) :
  (s = [] <-> s' = []) ->
  encodeDesc t s = encodeDesc t' s' ->
  (t = t' /\ s = s')
  /\ (encodeDesc t s = None <-> t = ""%string /\ s = [])
  /\ encodeDesc t s <> Some ""%string.
Proof.
  intros Hboth Heq. split; [|split].
  - destruct s as [|x l].
    + assert (s' = []) by (apply Hboth; reflexivity). subst s'.
      split; [|reflexivity].
      unfold encodeDesc in Heq. cbn [List.length Nat.eqb andb] in Heq.
      destruct (String.eqb_spec t ""), (String.eqb_spec t' "");
        try discriminate; try congruence.
    + assert (Hs' : s' <> []) by (intros E; apply Hboth in E; discriminate E).
      pose proof (parseDesc_encodeDesc_subtasks t (x :: l) ltac:(discriminate)) as P.
      pose proof (parseDesc_encodeDesc_subtasks t' s' Hs') as P'.
      rewrite Heq, P' in P. injection P as Et Es.
      split; [congruence|]. symmetry. now apply node_to_json_injective.
  - unfold encodeDesc. destruct s as [|x l]; cbn [List.length Nat.eqb andb].
    + destruct (String.eqb_spec t ""); split; try tauto; try discriminate.
    + split; [discriminate|]. intros [_ E]. discriminate E.
  - unfold encodeDesc. destruct s as [|x l]; cbn [List.length Nat.eqb andb].
    + destruct (String.eqb_spec t ""); [discriminate | congruence].
    + intros [= E].
Qed.

Lemma encodeDesc_injective_witness :
  let s := [mkSub "a" "Outline" false []] in
  (s = [] <-> s = []) /\
  encodeDesc "Essay" s = encodeDesc "Essay" s /\
  encodeDesc "Essay" s <> Some ""%string /\
  encodeDesc "" [] = None.
Proof.
  intros s.
  assert (H1 : s = [] <-> s = []) by tauto.
  assert (H2 : encodeDesc "Essay" s = encodeDesc "Essay" s) by reflexivity.
  split; [exact H1|]. split; [exact H2|].
  split; [exact (proj2 (proj2 (encodeDesc_injective "Essay" "Essay" s s H1 H2)))|].
  reflexivity.
Defined.

Lemma act_completed st a :
  countCompletedSubs (Form.subtasks (Form.act st a))
  <= countCompletedSubs (Form.subtasks st).
Proof.
  destruct a as [s|s|s|s|s|u|u p txt|i]; cbn [Form.act]; try apply Nat.le_refl.
  - unfold Form.addRootSub.
    destruct (String.eqb (trim (Form.sub st)) ""); [apply Nat.le_refl|].
    cbn [Form.setSub Form.setSubtasks Form.subtasks].
    rewrite !countCompletedSubs_weight, weight_app. cbn. lia.
  - unfold Form.handleAddChild.
    destruct (String.eqb (trim txt) ""); [apply Nat.le_refl|].
    unfold Form.addChild. cbn [Form.setSubtasks Form.subtasks].
    rewrite !countCompletedSubs_weight, addChild_weight.
    replace (weight (fun l => if snd l then 1 else 0) [newSub u (trim txt)])
      with 0 by reflexivity.
    lia.
  - unfold Form.removeSub. cbn [Form.setSubtasks Form.subtasks].
    rewrite !countCompletedSubs_weight. apply remove_weight.
Qed.

Lemma session_completed actions st :
  countCompletedSubs (Form.subtasks (fold_left Form.act actions st))
  <= countCompletedSubs (Form.subtasks st).
Proof.
  revert st. induction actions as [|a rest IH]; intros st; [apply Nat.le_refl|].
  cbn [fold_left]. specialize (IH (Form.act st a)).
  pose proof (act_completed st a). lia.
Qed.

Lemma percent_of_none t :
  (0 < t < 2 ^ 53)%Z ->
  Math.round (fmul (fdiv (of_int 0) (of_int t)) (of_int 100)) = 0%Z.
Proof.
  intros Ht. destruct (Binary64.of_int_normal t Ht) as [M [E [-> _]]].
  reflexivity.
Qed.

(** X9.  A task created from a form that opened empty starts at 0.
    Every node the editor creates is incomplete and no action of the
    form completes one, so after any sequence of actions the tree has no
    completed node; when the form is submitted with at least one
    subtask, the description it submits decodes to that tree and the
    progress of the task is 0, whatever status the task is given. *)
Theorem new_task_progress_zero (actions : list Form.Action) (data : TaskData)
  (st : Status) :
  TaskModal.handleSubmit (Form.session actions) = Some data ->
  Form.subtasks (Form.session actions) <> [] ->
  (Z.of_nat (countAllSubs (Form.subtasks (Form.session actions))) < 2 ^ 32)%Z ->
  countCompletedSubs (Form.subtasks (Form.session actions)) = 0
  /\ decoded_tree (mkTask (task_description data) st)
     = Form.subtasks (Form.session actions)
  /\ taskProg (mkTask (task_description data) st) = 0%Z.
Proof.
  intros Hsub Hne Hsize.
  assert (Hc : countCompletedSubs (Form.subtasks (Form.session actions)) = 0).
  { pose proof (session_completed actions Form.initial) as H.
    change (countCompletedSubs (Form.subtasks Form.initial)) with 0 in H.
    unfold Form.session. lia. }
  unfold TaskModal.handleSubmit in Hsub.
  destruct (String.eqb (trim (Form.title (Form.session actions))) "");
    [discriminate|].
  injection Hsub as <-. cbn [task_description].
  pose proof (decoded_tree_encoded (Form.desc (Form.session actions))
                (Form.subtasks (Form.session actions)) st Hne) as Hd.
  split; [exact Hc|]. split; [exact Hd|].
  rewrite taskProg_eq. cbv zeta. rewrite Hd, Hc.
  assert (Hpos : 0 < countAllSubs (Form.subtasks (Form.session actions))).
  { destruct (Form.subtasks (Form.session actions)) as [|x l]; [congruence|].
    rewrite countAllSubs_cons. lia. }
  destruct (Nat.ltb_spec 0 (countAllSubs (Form.subtasks (Form.session actions))))
    as [_|]; [|lia].
  apply percent_of_none.
  change (2 ^ 32)%Z with 4294967296%Z in Hsize.
  change (2 ^ 53)%Z with 9007199254740992%Z. lia.
Qed.

Lemma new_task_progress_zero_witness :
  let actions :=
    [Form.Type_title "Essay"; Form.Type_sub "Outline"; Form.Add_root "k3x9";
     Form.Add_child "p7q2" "k3x9" "Sources"] in
  let data :=
    mkTaskData "Essay"
      (Some (qq "{'text':'','subtasks':[{'id':'k3x9','title':'Outline','completed':false,'children':[{'id':'p7q2','title':'Sources','completed':false,'children':[]}]}]}"))
      None "MEDIUM" in
  TaskModal.handleSubmit (Form.session actions) = Some data /\
  Form.subtasks (Form.session actions) <> [] /\
  (Z.of_nat (countAllSubs (Form.subtasks (Form.session actions))) < 2 ^ 32)%Z /\
  taskProg (mkTask (task_description data) COMPLETED) = 0%Z.
Proof.
  intros actions data.
  assert (H1 : TaskModal.handleSubmit (Form.session actions) = Some data)
    by reflexivity.
  assert (H2 : Form.subtasks (Form.session actions) <> []) by discriminate.
  assert (H3 : (Z.of_nat (countAllSubs (Form.subtasks (Form.session actions)))
                < 2 ^ 32)%Z) by reflexivity.
  split; [exact H1|]. split; [exact H2|]. split; [exact H3|].
  exact (proj2 (proj2 (new_task_progress_zero actions data COMPLETED H1 H2 H3))).
Defined.

(** ** Trimming *)

Lemma trimStart_clean_upto n cs :
  List.length cs <= n -> starts_clean (trimStart cs) = true.
Proof.
  revert cs. induction n as [|n IH]; intros cs Hn.
  - destruct cs; [reflexivity | simpl in Hn; lia].
  - destruct cs as [|a r1]; [reflexivity|]. cbn [trimStart].
    simpl in Hn.
    destruct (is_space1 a) eqn:E1; [apply IH; lia|].
    destruct r1 as [|b r2]; [cbn [starts_clean]; now rewrite E1|].
    simpl in Hn.
    destruct (is_space2 a b) eqn:E2; [apply IH; lia|].
    destruct r2 as [|c r3]; [cbn [starts_clean]; now rewrite E1, E2|].
    simpl in Hn.
    destruct (is_space3 a b c) eqn:E3; [apply IH; lia|].
    cbn [starts_clean]. now rewrite E1, E2, E3.
Qed.

Lemma trimStart_clean cs : starts_clean (trimStart cs) = true.
Proof. apply (trimStart_clean_upto (List.length cs)). apply Nat.le_refl. Qed.

Lemma trimStart_of_clean cs : starts_clean cs = true -> trimStart cs = cs.
Proof.
  destruct cs as [|a [|b [|c r3]]]; cbn [starts_clean trimStart]; intros H.
  - reflexivity.
  - rewrite andb_true_r in H. apply negb_true_iff in H. now rewrite H.
  - apply andb_prop in H. destruct H as [H1 H2].
    rewrite andb_true_r in H2.
    apply negb_true_iff in H1, H2. now rewrite H1, H2.
  - apply andb_prop in H. destruct H as [H1 H2].
    apply andb_prop in H2. destruct H2 as [H2 H3].
    apply negb_true_iff in H1, H2, H3. now rewrite H1, H2, H3.
Qed.

Lemma trimEnd_rev_clean_upto n rs :
  List.length rs <= n -> ends_clean_rev (trimEnd_rev rs) = true.
Proof.
  revert rs. induction n as [|n IH]; intros rs Hn.
  - destruct rs; [reflexivity | simpl in Hn; lia].
  - destruct rs as [|c r1]; [reflexivity|]. cbn [trimEnd_rev].
    simpl in Hn.
    destruct (is_space1 c) eqn:E1; [apply IH; lia|].
    destruct r1 as [|b r2]; [cbn [ends_clean_rev]; now rewrite E1|].
    simpl in Hn.
    destruct (is_space2 b c) eqn:E2; [apply IH; lia|].
    destruct r2 as [|a r3]; [cbn [ends_clean_rev]; now rewrite E1, E2|].
    simpl in Hn.
    destruct (is_space3 a b c) eqn:E3; [apply IH; lia|].
    cbn [ends_clean_rev]. now rewrite E1, E2, E3.
Qed.

Lemma trimEnd_rev_clean rs : ends_clean_rev (trimEnd_rev rs) = true.
Proof. apply (trimEnd_rev_clean_upto (List.length rs)). apply Nat.le_refl. Qed.

Lemma trimEnd_rev_of_clean rs : ends_clean_rev rs = true -> trimEnd_rev rs = rs.
Proof.
  destruct rs as [|c [|b [|a r3]]]; cbn [ends_clean_rev trimEnd_rev]; intros H.
  - reflexivity.
  - rewrite andb_true_r in H. apply negb_true_iff in H. now rewrite H.
  - apply andb_prop in H. destruct H as [H1 H2].
    rewrite andb_true_r in H2.
    apply negb_true_iff in H1, H2. now rewrite H1, H2.
  - apply andb_prop in H. destruct H as [H1 H2].
    apply andb_prop in H2. destruct H2 as [H2 H3].
    apply negb_true_iff in H1, H2, H3. now rewrite H1, H2, H3.
Qed.

(** What [trimEnd_rev] leaves is the end of its argument. *)
Lemma trimEnd_rev_suffix_upto n rs :
  List.length rs <= n -> exists dropped, rs = dropped ++ trimEnd_rev rs.
Proof.
  revert rs. induction n as [|n IH]; intros rs Hn.
  - destruct rs; [now exists [] | simpl in Hn; lia].
  - destruct rs as [|c r1]; [now exists []|]. cbn [trimEnd_rev].
    simpl in Hn.
    destruct (is_space1 c).
    { destruct (IH r1 ltac:(lia)) as [d E]. exists (c :: d). cbn [app]. now rewrite <- E. }
    destruct r1 as [|b r2]; [now exists []|]. simpl in Hn.
    destruct (is_space2 b c).
    { destruct (IH r2 ltac:(lia)) as [d E]. exists (c :: b :: d). cbn [app]. now rewrite <- E. }
    destruct r2 as [|a r3]; [now exists []|]. simpl in Hn.
    destruct (is_space3 a b c).
    { destruct (IH r3 ltac:(lia)) as [d E]. exists (c :: b :: a :: d). cbn [app]. now rewrite <- E. }
    now exists [].
Qed.

Lemma starts_clean_prefix x z : starts_clean (x ++ z) = true -> starts_clean x = true.
Proof.
  destruct x as [|a [|b [|c r3]]]; cbn [app starts_clean]; intros H.
  - reflexivity.
  - apply andb_prop in H. destruct H as [H _]. now rewrite H.
  - apply andb_prop in H. destruct H as [H1 H2].
    destruct z as [|c z]; [exact (andb_true_intro (conj H1 H2))|].
    apply andb_prop in H2. destruct H2 as [H2 _]. now rewrite H1, H2.
  - exact H.
Qed.

Lemma trim_chars s :
  exists x,
    chars (trim s) = x /\ starts_clean x = true /\ ends_clean_rev (rev x) = true.
Proof.
  unfold trim, chars, text_of. rewrite list_ascii_of_string_of_list_ascii.
  eexists. split; [reflexivity|]. rewrite rev_involutive. split.
  - destruct (trimEnd_rev_suffix_upto _ (rev (trimStart (list_ascii_of_string s)))
                (Nat.le_refl _)) as [d E].
    apply (f_equal (@rev ascii)) in E. rewrite rev_involutive, rev_app_distr in E.
    apply (starts_clean_prefix _ (rev d)). rewrite <- E. apply trimStart_clean.
  - apply trimEnd_rev_clean.
Qed.

Lemma trim_trim s : trim (trim s) = trim s.
Proof.
  destruct (trim_chars s) as [x [Ex [Hs He]]].
  unfold trim at 1. rewrite Ex.
  rewrite (trimStart_of_clean x Hs), (trimEnd_rev_of_clean _ He), rev_involutive.
  rewrite <- Ex. unfold chars, text_of. apply string_of_list_ascii_of_string.
Qed.

(** ** Creating a goal with subtasks *)

Lemma or_empty_or_null x : or_empty (or_null x) = x.
Proof. unfold or_null. destruct (String.eqb_spec x ""); subst; reflexivity. Qed.

Lemma taskProg_none_completed t s st :
  s <> [] -> countCompletedSubs s = 0 ->
  (Z.of_nat (countAllSubs s) < 2 ^ 32)%Z ->
  taskProg (mkTask (encodeDesc t s) st) = 0%Z.
Proof.
  intros Hne Hc Hsize. rewrite taskProg_eq. cbv zeta.
  rewrite (decoded_tree_encoded t s st Hne), Hc.
  assert (Hpos : 0 < countAllSubs s).
  { destruct s as [|x l]; [congruence|]. rewrite countAllSubs_cons. lia. }
  destruct (Nat.ltb_spec 0 (countAllSubs s)) as [_|]; [|lia].
  apply percent_of_none.
  change (2 ^ 32)%Z with 4294967296%Z in Hsize.
  change (2 ^ 53)%Z with 9007199254740992%Z. lia.
Qed.

(** X10.  A goal created with subtasks gets one task that holds them,
    at 0.  When the goal form, opened empty and edited in any way, is
    submitted with at least one subtask, and the store returns the new
    goal and the API the new milestone, [handleCreateGoal] requests the
    goal, one milestone "Tasks" and one task, logs an error exactly when
    the task request is rejected, and then closes the form and fetches
    the goals; it runs to its end exactly when that last request is not
    rejected.  The task has the title, the target date and the priority
    of the goal; its description decodes to the trimmed description and
    the subtask tree of the form, and its progress is 0, whatever status
    it is given. *)
Theorem handleCreateGoal_initial_task
  (createGoal : string -> option string -> option string -> Awaited (option string))
  (createMilestone : string -> string -> Awaited string)
  (createTask : string -> TaskData -> Awaited unit)
  (fetchGoals : Awaited unit)
  (actions : list Form.Action) (goalData : GoalData)
  (goalId milestoneId : string) (st : Status) :
  GoalModal.handleSubmit (Form.session actions) = Some goalData ->
  Form.subtasks (Form.session actions) <> [] ->
  (Z.of_nat (countAllSubs (Form.subtasks (Form.session actions))) < 2 ^ 32)%Z ->
  createGoal (goal_title goalData) (goal_description goalData)
             (goal_targetDate goalData) = Resolved (Some goalId) ->
  createMilestone goalId "Tasks"%string = Resolved milestoneId ->
  exists data,
    fst (handleCreateGoal createGoal createMilestone createTask fetchGoals goalData)
    = [CreateGoal (goal_title goalData) (goal_description goalData)
                  (goal_targetDate goalData);
       CreateMilestone goalId "Tasks" None None;
       CreateTask milestoneId data]
      ++ match createTask milestoneId data with
         | Resolved _ => []
         | Rejected => [ConsoleError]
         end
      ++ [SetShowGoalModal false; FetchGoals]
    /\ snd (handleCreateGoal createGoal createMilestone createTask fetchGoals goalData)
       = match fetchGoals with Resolved _ => true | Rejected => false end
    /\ task_title data = trim (Form.title (Form.session actions))
    /\ task_dueDate data = goal_targetDate goalData
    /\ task_priority data = goal_priority goalData
    /\ parseDesc (task_description data)
       = mkParsed (JStr (trim (Form.desc (Form.session actions))))
                  (map node_to_json (Form.subtasks (Form.session actions)))
    /\ taskProg (mkTask (task_description data) st) = 0%Z.
Proof.
  intros Hsub Hne Hsize Hgoal Hms.
  set (form := Form.session actions) in *.
  assert (Hc : countCompletedSubs (Form.subtasks form) = 0).
  { pose proof (session_completed actions Form.initial) as H.
    change (countCompletedSubs (Form.subtasks Form.initial)) with 0 in H.
    unfold form, Form.session. lia. }
  unfold GoalModal.handleSubmit in Hsub.
  destruct (String.eqb (trim (Form.title form)) "") eqn:Et; [discriminate|].
  injection Hsub as <-.
  cbn [goal_title goal_description goal_targetDate] in Hgoal.
  unfold handleCreateGoal.
  cbn [goal_title goal_description goal_targetDate goal_priority goal_subtasks].
  rewrite trim_trim, Et, Hgoal, Hms, or_empty_or_null.
  assert (Hlen : Nat.ltb 0 (List.length (Form.subtasks form)) = true).
  { apply Nat.ltb_lt. destruct (Form.subtasks form); [congruence | simpl; lia]. }
  rewrite Hlen.
  set (data := mkTaskData (trim (Form.title form))
                 (encodeDesc (trim (Form.desc form)) (Form.subtasks form))
                 (or_null (Form.date form)) (Form.priority form)).
  exists data.
  split; [|split; [|split; [|split; [|split; [|split]]]]].
  - destruct (createTask milestoneId data); reflexivity.
  - destruct (createTask milestoneId data); reflexivity.
  - reflexivity.
  - reflexivity.
  - reflexivity.
  - apply parseDesc_encodeDesc_subtasks. exact Hne.
  - apply taskProg_none_completed; assumption.
Qed.

(** A goal with two subtasks; the task request is rejected, which is
    logged, and the form is closed and the goals fetched all the same. *)
Lemma handleCreateGoal_initial_task_witness :
  let createGoal := fun (_ : string) (_ _ : option string) => Resolved (Some "g1"%string) in
  let createMilestone := fun _ _ : string => Resolved "m1"%string in
  let createTask := fun (_ : string) (_ : TaskData) => @Rejected unit in
  let actions :=
    [Form.Type_title " Write thesis "; Form.Type_desc "By June";
     Form.Type_sub "Outline"; Form.Add_root "k3x9";
     Form.Add_child "p7q2" "k3x9" "Sources"] in
  let goalData :=
    mkGoalData "Write thesis" (Some "By June"%string) None "MEDIUM"
      [mkSub "k3x9" "Outline" false [mkSub "p7q2" "Sources" false []]] in
  let data :=
    mkTaskData "Write thesis"
      (Some (qq "{'text':'By June','subtasks':[{'id':'k3x9','title':'Outline','completed':false,'children':[{'id':'p7q2','title':'Sources','completed':false,'children':[]}]}]}"))
      None "MEDIUM" in
  GoalModal.handleSubmit (Form.session actions) = Some goalData /\
  Form.subtasks (Form.session actions) <> [] /\
  (Z.of_nat (countAllSubs (Form.subtasks (Form.session actions))) < 2 ^ 32)%Z /\
  handleCreateGoal createGoal createMilestone createTask (Resolved tt) goalData
  = ([CreateGoal "Write thesis" (Some "By June"%string) None;
      CreateMilestone "g1" "Tasks" None None;
      CreateTask "m1" data;
      ConsoleError;
      SetShowGoalModal false; FetchGoals], true) /\
  exists data',
    fst (handleCreateGoal createGoal createMilestone createTask (Resolved tt) goalData)
    = [CreateGoal "Write thesis" (Some "By June"%string) None;
       CreateMilestone "g1" "Tasks" None None;
       CreateTask "m1" data'] ++ [ConsoleError] ++ [SetShowGoalModal false; FetchGoals]
    /\ taskProg (mkTask (task_description data') IN_PROGRESS) = 0%Z.
Proof.
  intros createGoal createMilestone createTask actions goalData data.
  assert (H1 : GoalModal.handleSubmit (Form.session actions) = Some goalData)
    by reflexivity.
  assert (H2 : Form.subtasks (Form.session actions) <> []) by discriminate.
  assert (H3 : (Z.of_nat (countAllSubs (Form.subtasks (Form.session actions)))
                < 2 ^ 32)%Z) by reflexivity.
  split; [exact H1|]. split; [exact H2|]. split; [exact H3|].
  split; [reflexivity|].
  destruct (handleCreateGoal_initial_task createGoal createMilestone createTask
              (Resolved tt) actions goalData "g1" "m1" IN_PROGRESS
              H1 H2 H3 eq_refl eq_refl)
    as [data' [E [_ [_ [_ [_ [_ P]]]]]]].
  exists data'. split; [exact E | exact P].
Defined.

(** ** Progress as the subtasks are completed *)

Lemma percent_monotone c1 c2 t :
  (0 <= c1 <= c2)%Z -> (c2 <= t)%Z -> (0 < t < 2 ^ 32)%Z ->
  (Math.round (fmul (fdiv (of_int c1) (of_int t)) (of_int 100))
   <= Math.round (fmul (fdiv (of_int c2) (of_int t)) (of_int 100)))%Z.
Proof.
  intros Hc Hc2 Ht.
  destruct (Z.eq_dec c1 c2) as [->|Hne]; [lia|].
  destruct (Binary64.round_percentage_near c1 t ltac:(lia) Ht) as [[_ H1] _].
  destruct (Binary64.round_percentage_near c2 t ltac:(lia) Ht) as [[H2 _] H2'].
  cbv zeta in *.
  set (r1 := Math.round (fmul (fdiv (of_int c1) (of_int t)) (of_int 100))) in *.
  set (r2 := Math.round (fmul (fdiv (of_int c2) (of_int t)) (of_int 100))) in *.
  assert (Hmono : ((2 * (100 * c1) + t) / (2 * t) <= (2 * (100 * c2) + t) / (2 * t))%Z)
    by (apply Z.div_le_mono; lia).
  destruct (Z.eq_dec ((2 * (100 * c2) + t) mod (2 * t)) 0) as [Htie|Hoff].
  - assert (Hlt : ((2 * (100 * c1) + t) / (2 * t) < (2 * (100 * c2) + t) / (2 * t))%Z).
    { apply Z.div_lt_upper_bound; [lia|].
      pose proof (Z.div_mod (2 * (100 * c2) + t) (2 * t) ltac:(lia)) as E.
      rewrite Htie in E. lia. }
    lia.
  - specialize (H2' Hoff). lia.
Qed.

(** X11.  Completing subtasks never lowers the progress shown: of two
    tasks whose descriptions hold trees of nodes with the same number of
    nodes, the one with no fewer completed nodes has no smaller
    [taskProg]. *)
Theorem taskProg_monotone (task1 task2 : Task) :
  well_formed task1 = true -> well_formed task2 = true ->
  0 < countAllSubs (decoded_tree task1) ->
  countAllSubs (decoded_tree task1) = countAllSubs (decoded_tree task2) ->
  (Z.of_nat (countAllSubs (decoded_tree task1)) < 2 ^ 32)%Z ->
  countCompletedSubs (decoded_tree task1) <= countCompletedSubs (decoded_tree task2) ->
  (taskProg task1 <= taskProg task2)%Z.
Proof.
  intros _ _ Hpos Hsame Hsize Hle.
  rewrite !taskProg_eq. cbv zeta. rewrite <- Hsame.
  destruct (Nat.ltb_spec 0 (countAllSubs (decoded_tree task1))) as [_|]; [|lia].
  pose proof (countCompleted_le_all (decoded_tree task2)) as Hc2.
  apply percent_monotone; lia.
Qed.

Lemma taskProg_monotone_witness :
  let before := mkTask (encodeDesc "" (flat_tree 1 3)) PENDING in
  let after := mkTask (encodeDesc "" (flat_tree 2 3)) PENDING in
  (well_formed before = true /\ well_formed after = true) /\
  0 < countAllSubs (decoded_tree before) /\
  countAllSubs (decoded_tree before) = countAllSubs (decoded_tree after) /\
  (Z.of_nat (countAllSubs (decoded_tree before)) < 2 ^ 32)%Z /\
  countCompletedSubs (decoded_tree before) <= countCompletedSubs (decoded_tree after) /\
  taskProg before = 33%Z /\ taskProg after = 67%Z /\
  (taskProg before <= taskProg after)%Z.
Proof.
  intros before after.
  assert (W1 : well_formed before = true) by (vm_compute; reflexivity).
  assert (W2 : well_formed after = true) by (vm_compute; reflexivity).
  split; [split; [exact W1 | exact W2]|].
  assert (H1 : 0 < countAllSubs (decoded_tree before)) by (vm_compute; lia).
  assert (H2 : countAllSubs (decoded_tree before) = countAllSubs (decoded_tree after))
    by (vm_compute; reflexivity).
  assert (H3 : (Z.of_nat (countAllSubs (decoded_tree before)) < 2 ^ 32)%Z)
    by (vm_compute; reflexivity).
  assert (H4 : countCompletedSubs (decoded_tree before)
               <= countCompletedSubs (decoded_tree after)) by (vm_compute; lia).
  split; [exact H1|]. split; [exact H2|]. split; [exact H3|]. split; [exact H4|].
  split; [vm_compute; reflexivity|]. split; [vm_compute; reflexivity|].
  exact (taskProg_monotone before after W1 W2 H1 H2 H3 H4).
Defined.

Lemma percent_of_all t :
  (0 < t < 2 ^ 32)%Z ->
  Math.round (fmul (fdiv (of_int t) (of_int t)) (of_int 100)) = 100%Z.
Proof.
  intros Ht.
  destruct (Binary64.round_percentage_near t t ltac:(lia) Ht) as [_ H].
  cbv zeta in H. rewrite H.
  - replace (2 * (100 * t) + t)%Z with (t + 100 * (2 * t))%Z by ring.
    rewrite Z.div_add by lia. rewrite Z.div_small by lia. reflexivity.
  - replace (2 * (100 * t) + t)%Z with (t + 100 * (2 * t))%Z by ring.
    rewrite Z.mod_add by lia. rewrite Z.mod_small by lia. lia.
Qed.

Lemma percent_below_all c t :
  (0 <= c < t)%Z -> (t < 200)%Z ->
  (Math.round (fmul (fdiv (of_int c) (of_int t)) (of_int 100)) < 100)%Z.
Proof.
  intros Hc Ht.
  destruct (Binary64.round_percentage_near c t ltac:(lia) ltac:(change (2 ^ 32)%Z with 4294967296%Z; lia))
    as [[_ H] _].
  cbv zeta in H.
  assert (((2 * (100 * c) + t) / (2 * t) < 100)%Z); [|lia].
  apply Z.div_lt_upper_bound; lia.
Qed.

Lemma percent_above_none c t :
  (0 < c <= t)%Z -> (t < 200)%Z ->
  (0 < Math.round (fmul (fdiv (of_int c) (of_int t)) (of_int 100)))%Z.
Proof.
  intros Hc Ht.
  destruct (Binary64.round_percentage_near c t ltac:(lia) ltac:(change (2 ^ 32)%Z with 4294967296%Z; lia))
    as [[H _] H'].
  cbv zeta in H, H'.
  assert (Hn : (1 <= (2 * (100 * c) + t) / (2 * t))%Z)
    by (apply Z.div_le_lower_bound; lia).
  destruct (Z.eq_dec ((2 * (100 * c) + t) / (2 * t)) 1) as [E|Hne]; [|lia].
  rewrite H'; [lia|].
  intros Htie.
  pose proof (Z.div_mod (2 * (100 * c) + t) (2 * t) ltac:(lia)) as D.
  rewrite Htie, E in D. lia.
Qed.

(** X12.  The two ends of the scale, for a task whose description holds
    a tree of nodes.  A task whose subtasks are all completed shows 100
    and one with no completed subtask shows 0.  Below 200 subtasks the
    converses hold: 100 is shown only when every subtask is completed and
    0 only when none is. *)
Theorem taskProg_extremes (task : Task) :
  well_formed task = true ->
  0 < countAllSubs (decoded_tree task) ->
  (Z.of_nat (countAllSubs (decoded_tree task)) < 2 ^ 32)%Z ->
  (countCompletedSubs (decoded_tree task) = countAllSubs (decoded_tree task) ->
   taskProg task = 100%Z)
  /\ (countCompletedSubs (decoded_tree task) = 0 -> taskProg task = 0%Z)
  /\ (countAllSubs (decoded_tree task) < 200 ->
      (taskProg task = 100%Z ->
       countCompletedSubs (decoded_tree task) = countAllSubs (decoded_tree task))
      /\ (taskProg task = 0%Z -> countCompletedSubs (decoded_tree task) = 0)).
Proof.
  intros _ Hpos Hsize. rewrite taskProg_eq. cbv zeta.
  destruct (Nat.ltb_spec 0 (countAllSubs (decoded_tree task))) as [_|]; [|lia].
  pose proof (countCompleted_le_all (decoded_tree task)) as Hle.
  set (c := countCompletedSubs (decoded_tree task)) in *.
  set (t := countAllSubs (decoded_tree task)) in *.
  split; [|split; [|intros Hsmall; split]].
  - intros ->. apply percent_of_all. lia.
  - intros ->. apply percent_of_none.
    change (2 ^ 32)%Z with 4294967296%Z in Hsize.
    change (2 ^ 53)%Z with 9007199254740992%Z. lia.
  - intros H. destruct (Nat.eq_dec c t) as [|Hne]; [assumption|exfalso].
    pose proof (percent_below_all (Z.of_nat c) (Z.of_nat t) ltac:(lia) ltac:(lia)).
    lia.
  - intros H. destruct (Nat.eq_dec c 0) as [|Hne]; [assumption|exfalso].
    pose proof (percent_above_none (Z.of_nat c) (Z.of_nat t) ltac:(lia) ltac:(lia)).
    lia.
Qed.

(** One subtask of three completed; and the bound of 200 is sharp: with
    199 of 200 subtasks completed 100 is shown, and with 1 of 201
    completed 0 is shown. *)
Lemma taskProg_extremes_witness :
  let task := mkTask (encodeDesc "" (flat_tree 3 3)) PENDING in
  well_formed task = true /\
  0 < countAllSubs (decoded_tree task) /\
  (Z.of_nat (countAllSubs (decoded_tree task)) < 2 ^ 32)%Z /\
  countCompletedSubs (decoded_tree task) = countAllSubs (decoded_tree task) /\
  taskProg task = 100%Z /\
  Math.round (fmul (fdiv (of_int 199) (of_int 200)) (of_int 100)) = 100%Z /\
  Math.round (fmul (fdiv (of_int 1) (of_int 201)) (of_int 100)) = 0%Z.
Proof.
  intros task.
  assert (W : well_formed task = true) by (vm_compute; reflexivity).
  split; [exact W|].
  assert (H1 : 0 < countAllSubs (decoded_tree task)) by (vm_compute; lia).
  assert (H2 : (Z.of_nat (countAllSubs (decoded_tree task)) < 2 ^ 32)%Z)
    by (vm_compute; reflexivity).
  assert (H3 : countCompletedSubs (decoded_tree task) = countAllSubs (decoded_tree task))
    by (vm_compute; reflexivity).
  split; [exact H1|]. split; [exact H2|]. split; [exact H3|].
  split; [exact (proj1 (taskProg_extremes task W H1 H2) H3)|].
  split; vm_compute; reflexivity.
Defined.

(** X13.  Progress is a percentage: for every goal whose tasks have
    descriptions that hold trees of nodes, with trees and task lists
    within the array bound of 2^32 elements, [taskProg] of each task and
    [goalProg] of the goal lie between 0 and 100. *)
Theorem progress_is_percentage (goal : option Goal) :
  (forall tk, In tk (allTasks goal) -> well_formed tk = true) ->
  (Z.of_nat (List.length (allTasks goal)) < 2 ^ 32)%Z ->
  (forall tk, In tk (allTasks goal) ->
              (Z.of_nat (countAllSubs (decoded_tree tk)) < 2 ^ 32)%Z) ->
  (forall tk, In tk (allTasks goal) -> (0 <= taskProg tk <= 100)%Z)
  /\ (0 <= goalProg goal <= 100)%Z.
Proof.
  intros _ Hlen Hsize.
  assert (Htk : forall tk, In tk (allTasks goal) -> (0 <= taskProg tk <= 100)%Z).
  { intros tk Hin. apply taskProg_range. specialize (Hsize tk Hin).
    change (2 ^ 32)%Z with 4294967296%Z in Hsize.
    change (2 ^ 53)%Z with 9007199254740992%Z. lia. }
  split; [exact Htk|].
  unfold goalProg. cbv zeta.
  destruct (allTasks goal) as [|tk l] eqn:El; [simpl; lia|].
  cbn [List.length Nat.eqb negb].
  rewrite fold_left_sum, Z.add_0_l.
  assert (Hall : Forall (fun v => 0 <= v <= 100)%Z (map taskProg (tk :: l)))
    by (apply Forall_map, Forall_forall; exact Htk).
  pose proof (sum_percentages _ Hall) as Hsum.
  rewrite length_map in Hsum.
  change (2 ^ 32)%Z with 4294967296%Z in Hlen.
  cbn [List.length] in Hsum, Hlen.
  set (total := fold_right Z.add 0%Z (map taskProg (tk :: l))) in *.
  set (n := Z.of_nat (S (List.length l))) in *.
  assert (Hn : (0 < n)%Z) by (unfold n; lia).
  clearbody total n.
  rewrite Binary64.round_fdiv_of_int.
  - split.
    + apply Z.div_pos; lia.
    + assert ((2 * total + n) / (2 * n) < 101)%Z; [|lia].
      apply Z.div_lt_upper_bound; lia.
  - change (2 ^ 52)%Z with 4503599627370496%Z. lia.
  - change (2 ^ 53)%Z with 9007199254740992%Z. lia.
Qed.

Lemma progress_is_percentage_witness :
  let goal := Some (mkGoal (Some
    [mkMilestone (Some [mkTask None COMPLETED;
                        mkTask (encodeDesc "" (flat_tree 1 3)) PENDING]);
     mkMilestone None])) in
  (forall tk, In tk (allTasks goal) -> well_formed tk = true) /\
  (Z.of_nat (List.length (allTasks goal)) < 2 ^ 32)%Z /\
  (forall tk, In tk (allTasks goal) ->
              (Z.of_nat (countAllSubs (decoded_tree tk)) < 2 ^ 32)%Z) /\
  map taskProg (allTasks goal) = [100; 33]%Z /\
  goalProg goal = 67%Z /\
  (0 <= goalProg goal <= 100)%Z.
Proof.
  intros goal.
  assert (H0 : forall tk, In tk (allTasks goal) -> well_formed tk = true).
  { intros tk [<-|[<-|[]]]; vm_compute; reflexivity. }
  assert (H1 : (Z.of_nat (List.length (allTasks goal)) < 2 ^ 32)%Z)
    by (vm_compute; reflexivity).
  assert (H2 : forall tk, In tk (allTasks goal) ->
                          (Z.of_nat (countAllSubs (decoded_tree tk)) < 2 ^ 32)%Z).
  { intros tk [<-|[<-|[]]]; vm_compute; reflexivity. }
  split; [exact H0|]. split; [exact H1|]. split; [exact H2|].
  split; [vm_compute; reflexivity|]. split; [vm_compute; reflexivity|].
  exact (proj2 (progress_is_percentage goal H0 H1 H2)).
Defined.

(** ** The task count of a goal card *)

Lemma fold_left_count (f : MilestoneSummary -> nat) ms acc :
  fold_left (fun sum m => sum + f m) ms acc = acc + list_sum (map f ms).
Proof.
  revert acc. induction ms as [|m ms IH]; intros acc; cbn [fold_left map].
  - simpl. lia.
  - rewrite IH, list_sum_cons. lia.
Qed.

Lemma flat_map_length_sum {A B} (f : A -> list B) l :
  List.length (flat_map f l) = list_sum (map (fun x => List.length (f x)) l).
Proof.
  induction l as [|x l IH]; [reflexivity|].
  cbn [flat_map map]. now rewrite length_app, list_sum_cons, IH.
Qed.

(** X14.  The count on a collapsed goal card is the count on the
    expanded one: when the counts the server sent with the milestones
    (where it sent any) are the lengths of their task lists,
    [getTaskCount] is the number of tasks [allTasks] lists.  A missing
    milestone list, a missing count and a missing task list each count
    as nothing, and a count of 0 gives way to the task list. *)
Theorem getTaskCount_allTasks (goal : GoalSummary) :
  (forall ms m n,
      summary_milestones goal = Some ms -> In m ms -> count_tasks m = Some n ->
      n = List.length (match listed_tasks m with Some ts => ts | None => [] end)) ->
  getTaskCount goal = List.length (allTasks (Some (listed_goal goal))).
Proof.
  intros H. unfold getTaskCount, allTasks, listed_goal. cbn [milestones].
  destruct (summary_milestones goal) as [ms|]; [|reflexivity].
  specialize (H ms). cbn [option_map].
  rewrite fold_left_count, flat_map_concat_map, map_map, <- flat_map_concat_map.
  rewrite flat_map_length_sum. cbn [Nat.add tasks]. f_equal.
  apply map_ext_in. intros m Hin. specialize (H m).
  destruct (count_tasks m) as [[|n]|]; destruct (listed_tasks m) as [[|x l]|];
    cbn [count_or option_map List.length]; try reflexivity;
    try (specialize (H _ eq_refl Hin eq_refl); cbn [List.length] in H; lia).
Qed.

Lemma getTaskCount_allTasks_witness :
  let task := mkTask None PENDING in
  let goal := mkGoalSummary (Some
    [mkMilestoneSummary (Some 2) (Some [task; task]);
     mkMilestoneSummary None (Some [task]);
     mkMilestoneSummary (Some 0) None]) in
  (forall ms m n,
      summary_milestones goal = Some ms -> In m ms -> count_tasks m = Some n ->
      n = List.length (match listed_tasks m with Some ts => ts | None => [] end)) /\
  getTaskCount goal = 3 /\
  List.length (allTasks (Some (listed_goal goal))) = 3.
Proof.
  intros task goal.
  assert (H : forall ms m n,
      summary_milestones goal = Some ms -> In m ms -> count_tasks m = Some n ->
      n = List.length (match listed_tasks m with Some ts => ts | None => [] end)).
  { intros ms m n [= <-] [<-|[<-|[<-|[]]]]; cbn; intros E; now inversion E. }
  split; [exact H|]. split; [reflexivity|].
  rewrite <- (getTaskCount_allTasks goal H). reflexivity.
Defined.

(** ** Ticking and unticking a subtask *)

Section UntickOnce.

Variable i : string.

Let ticked (subs : list SubtaskNode) : Prop :=
  forall n, In n (flattenSubs subs) -> id n = i -> completed n = true.

Let node_goal (s : SubtaskNode) : Prop :=
  occurrences i [s] = 1 -> ticked [s] ->
  countCompletedSubs [toggleSub_at i s] + 1 = countCompletedSubs [s].

Lemma ticked_head s rest : ticked (s :: rest) -> ticked [s].
Proof.
  intros H n Hn. apply H. rewrite flattenSubs_cons.
  rewrite flattenSubs_cons in Hn. simpl in Hn. rewrite app_nil_r in Hn.
  destruct Hn as [Hn|Hn]; [now left|right]. apply in_or_app. now left.
Qed.

Lemma ticked_tail s rest : ticked (s :: rest) -> ticked rest.
Proof.
  intros H n Hn. apply H. rewrite flattenSubs_cons.
  right. apply in_or_app. now right.
Qed.

Lemma ticked_children s : ticked [s] -> ticked (children s).
Proof.
  intros H n Hn. apply H. rewrite flattenSubs_cons.
  right. apply in_or_app. now left.
Qed.

Lemma untick_list_once l :
  Forall node_goal l ->
  occurrences i l = 1 -> ticked l ->
  countCompletedSubs (toggleSubById l i) + 1 = countCompletedSubs l.
Proof.
  induction 1 as [|y l Hy _ IHl]; [discriminate|].
  rewrite occurrences_split. intros Hocc Htick.
  unfold toggleSubById in *. simpl map.
  rewrite (countCompletedSubs_split y), (countCompletedSubs_split (toggleSub_at i y)).
  destruct (occurrences i [y]) as [|[|k]] eqn:Ey; [| |lia].
  - rewrite toggleSub_at_absent by exact Ey.
    rewrite <- IHl; [lia | lia | eapply ticked_tail; eauto].
  - fold (toggleSubById l i).
    rewrite toggleSubById_absent by lia.
    rewrite <- Hy; [lia | exact Ey | eapply ticked_head; eauto].
Qed.

Lemma untick_node_once s : node_goal s.
Proof.
  induction s as [j t c cs IH] using SubtaskNode_forall_ind.
  intros Hocc Htick.
  rewrite occurrences_single in Hocc. simpl in Hocc.
  rewrite toggleSub_at_eq. destruct (String.eqb j i) eqn:E.
  - rewrite !countCompletedSubs_single. simpl.
    assert (Hc : c = true).
    { apply (Htick (mkSub j t c cs)).
      - rewrite flattenSubs_cons. now left.
      - now apply String.eqb_eq. }
    subst c. simpl. lia.
  - destruct cs as [|x cs]; [discriminate|].
    rewrite !countCompletedSubs_single. cbn [completed children].
    rewrite <- (untick_list_once (x :: cs)); [lia | exact IH | lia |].
    apply (ticked_children (mkSub j t c (x :: cs))). exact Htick.
Qed.

Lemma untick_once subs :
  occurrences i subs = 1 -> ticked subs ->
  countCompletedSubs (toggleSubById subs i) + 1 = countCompletedSubs subs.
Proof.
  apply untick_list_once, Forall_all. exact untick_node_once.
Qed.

End UntickOnce.

Lemma occurrences_nonempty i subs : occurrences i subs = 1 -> subs <> [].
Proof. intros H E. subst subs. discriminate H. Qed.

Lemma taskProg_encoded t s st :
  s <> [] ->
  taskProg (mkTask (encodeDesc t s) st)
  = Math.round (fmul (fdiv (of_int (Z.of_nat (countCompletedSubs s)))
                           (of_int (Z.of_nat (countAllSubs s))))
                     (of_int 100)).
Proof.
  intros Hne. rewrite taskProg_eq. cbv zeta.
  rewrite (decoded_tree_encoded t s st Hne).
  assert (Hpos : 0 < countAllSubs s).
  { destruct s as [|x l]; [congruence|]. rewrite countAllSubs_cons. lia. }
  destruct (Nat.ltb_spec 0 (countAllSubs s)) as [_|]; [reflexivity | lia].
Qed.

(** X17.  Ticking and unticking a subtask of a saved task.  In a tree
    where exactly one node carries the id, toggling it changes the number
    of completed nodes by exactly one, up if the node was incomplete and
    down if it was completed, and the progress of the task saved with
    the new tree moves the same way or stays: it never goes down on a
    tick nor up on an untick. *)
Theorem toggle_moves_progress (t : string) (s : list SubtaskNode)
  (i : string) (st : Status) (was : bool) :
  occurrences i s = 1 ->
  (forall n, In n (flattenSubs s) -> id n = i -> completed n = was) ->
  (Z.of_nat (countAllSubs s) < 2 ^ 32)%Z ->
  if was then
    countCompletedSubs (toggleSubById s i) + 1 = countCompletedSubs s
    /\ (taskProg (mkTask (encodeDesc t (toggleSubById s i)) st)
        <= taskProg (mkTask (encodeDesc t s) st))%Z
  else
    countCompletedSubs (toggleSubById s i) = countCompletedSubs s + 1
    /\ (taskProg (mkTask (encodeDesc t s) st)
        <= taskProg (mkTask (encodeDesc t (toggleSubById s i)) st))%Z.
Proof.
  intros Hocc Hflag Hsize.
  assert (Hne : s <> []) by (eapply occurrences_nonempty; exact Hocc).
  assert (Hne' : toggleSubById s i <> []).
  { destruct s; [congruence | discriminate]. }
  rewrite !taskProg_encoded by assumption.
  rewrite toggleSubById_countAll.
  assert (Hpos : 0 < countAllSubs s).
  { destruct s as [|x l]; [congruence|]. rewrite countAllSubs_cons. lia. }
  pose proof (countCompleted_le_all s) as Hle.
  pose proof (countCompleted_le_all (toggleSubById s i)) as Hle'.
  rewrite toggleSubById_countAll in Hle'.
  destruct was.
  - pose proof (untick_once i s Hocc Hflag) as Hc.
    split; [exact Hc|]. apply percent_monotone; lia.
  - pose proof (toggle_once i s Hocc Hflag) as Hc.
    split; [exact Hc|]. apply percent_monotone; lia.
Qed.

(** Unticking "b" in a tree of three nodes, two of them completed: the
    progress goes from 67 to 33. *)
Lemma toggle_moves_progress_witness :
  let s := [mkSub "a" "Outline" true [mkSub "c" "Sources" false []];
            mkSub "b" "Draft" true []] in
  occurrences "b" s = 1 /\
  (forall n, In n (flattenSubs s) -> id n = "b"%string -> completed n = true) /\
  (Z.of_nat (countAllSubs s) < 2 ^ 32)%Z /\
  taskProg (mkTask (encodeDesc "" s) PENDING) = 67%Z /\
  taskProg (mkTask (encodeDesc "" (toggleSubById s "b")) PENDING) = 33%Z /\
  (taskProg (mkTask (encodeDesc "" (toggleSubById s "b")) PENDING)
   <= taskProg (mkTask (encodeDesc "" s) PENDING))%Z.
Proof.
  intros s.
  assert (H1 : occurrences "b" s = 1) by reflexivity.
  assert (H2 : forall n, In n (flattenSubs s) -> id n = "b"%string ->
                         completed n = true).
  { simpl. intros n [H|[H|[H|[]]]] E; subst n; simpl in *;
      solve [reflexivity | discriminate E]. }
  assert (H3 : (Z.of_nat (countAllSubs s) < 2 ^ 32)%Z) by reflexivity.
  split; [exact H1|]. split; [exact H2|]. split; [exact H3|].
  split; [vm_compute; reflexivity|]. split; [vm_compute; reflexivity|].
  exact (proj2 (toggle_moves_progress "" s "b" PENDING true H1 H2 H3)).
Defined.

(** ** Goal progress as tasks advance *)

Lemma sum_le_pointwise l1 l2 :
  Forall2 (fun a b => taskProg a <= taskProg b)%Z l1 l2 ->
  (fold_right Z.add 0 (map taskProg l1) <= fold_right Z.add 0 (map taskProg l2))%Z
  /\ List.length l1 = List.length l2.
Proof.
  induction 1 as [|a b l1 l2 Hab _ [IH1 IH2]]; [split; [apply Z.le_refl | reflexivity]|].
  cbn [map fold_right List.length]. split; [lia | now rewrite IH2].
Qed.

Lemma goalProg_formula goal :
  (Z.of_nat (List.length (allTasks goal)) < 2 ^ 32)%Z ->
  (forall tk, In tk (allTasks goal) ->
              (Z.of_nat (countAllSubs (decoded_tree tk)) < 2 ^ 32)%Z) ->
  allTasks goal <> [] ->
  goalProg goal
  = ((2 * fold_right Z.add 0 (map taskProg (allTasks goal))
      + Z.of_nat (List.length (allTasks goal)))
     / (2 * Z.of_nat (List.length (allTasks goal))))%Z.
Proof.
  intros Hlen Hsize Hne. unfold goalProg. cbv zeta.
  destruct (allTasks goal) as [|tk l] eqn:El; [congruence|].
  cbn [Nat.eqb negb List.length].
  rewrite fold_left_sum, Z.add_0_l.
  assert (Hall : Forall (fun v => 0 <= v <= 100)%Z (map taskProg (tk :: l))).
  { apply Forall_map, Forall_forall. intros x Hx. apply taskProg_range.
    specialize (Hsize x Hx). change (2 ^ 32)%Z with 4294967296%Z in Hsize.
    change (2 ^ 53)%Z with 9007199254740992%Z. lia. }
  pose proof (sum_percentages _ Hall) as Hsum.
  rewrite length_map in Hsum. cbn [List.length] in Hsum, Hlen.
  change (2 ^ 32)%Z with 4294967296%Z in Hlen.
  apply Binary64.round_fdiv_of_int.
  - change (2 ^ 52)%Z with 4503599627370496%Z. lia.
  - change (2 ^ 53)%Z with 9007199254740992%Z. lia.
Qed.

(** X18.  Progress on tasks never lowers the progress of the goal: of
    two goals whose tasks have descriptions that hold trees of nodes,
    with the same number of tasks, task by task of no smaller progress
    in the second, the second has no smaller [goalProg]. *)
Theorem goalProg_monotone (goal1 goal2 : option Goal) :
  (forall tk, In tk (allTasks goal1) -> well_formed tk = true) ->
  (forall tk, In tk (allTasks goal2) -> well_formed tk = true) ->
  (Z.of_nat (List.length (allTasks goal1)) < 2 ^ 32)%Z ->
  (forall tk, In tk (allTasks goal1) ->
              (Z.of_nat (countAllSubs (decoded_tree tk)) < 2 ^ 32)%Z) ->
  (forall tk, In tk (allTasks goal2) ->
              (Z.of_nat (countAllSubs (decoded_tree tk)) < 2 ^ 32)%Z) ->
  Forall2 (fun a b => taskProg a <= taskProg b)%Z (allTasks goal1) (allTasks goal2) ->
  (goalProg goal1 <= goalProg goal2)%Z.
Proof.
  intros _ _ Hlen Hs1 Hs2 Hall.
  destruct (sum_le_pointwise _ _ Hall) as [Hsum Hsame].
  destruct (allTasks goal1) as [|tk l] eqn:E1.
  - destruct (allTasks goal2) as [|tk2 l2] eqn:E2; [|discriminate Hsame].
    unfold goalProg. rewrite E1, E2. apply Z.le_refl.
  - assert (N1 : allTasks goal1 <> []) by (rewrite E1; discriminate).
    assert (N2 : allTasks goal2 <> []).
    { destruct (allTasks goal2); [discriminate Hsame | discriminate]. }
    rewrite (goalProg_formula goal1), (goalProg_formula goal2);
      try assumption; try (rewrite E1; assumption).
    + rewrite E1, <- Hsame. apply Z.div_le_mono; [cbn [List.length]; lia|lia].
    + rewrite <- Hsame. rewrite <- E1. rewrite E1. exact Hlen.
Qed.

Lemma goalProg_monotone_witness :
  let before := Some (mkGoal (Some
    [mkMilestone (Some [mkTask None IN_PROGRESS;
                        mkTask (encodeDesc "" (flat_tree 1 3)) PENDING])])) in
  let after := Some (mkGoal (Some
    [mkMilestone (Some [mkTask None COMPLETED]);
     mkMilestone (Some [mkTask (encodeDesc "" (flat_tree 2 3)) PENDING])])) in
  ((forall tk, In tk (allTasks before) -> well_formed tk = true) /\
   (forall tk, In tk (allTasks after) -> well_formed tk = true)) /\
  (Z.of_nat (List.length (allTasks before)) < 2 ^ 32)%Z /\
  Forall2 (fun a b => taskProg a <= taskProg b)%Z (allTasks before) (allTasks after) /\
  goalProg before = 42%Z /\ goalProg after = 84%Z /\
  (goalProg before <= goalProg after)%Z.
Proof.
  intros before after.
  assert (W1 : forall tk, In tk (allTasks before) -> well_formed tk = true).
  { intros tk [<-|[<-|[]]]; vm_compute; reflexivity. }
  assert (W2 : forall tk, In tk (allTasks after) -> well_formed tk = true).
  { intros tk [<-|[<-|[]]]; vm_compute; reflexivity. }
  split; [split; [exact W1 | exact W2]|].
  assert (H1 : (Z.of_nat (List.length (allTasks before)) < 2 ^ 32)%Z)
    by (vm_compute; reflexivity).
  assert (H2 : forall tk, In tk (allTasks before) ->
                          (Z.of_nat (countAllSubs (decoded_tree tk)) < 2 ^ 32)%Z).
  { intros tk [<-|[<-|[]]]; vm_compute; reflexivity. }
  assert (H3 : forall tk, In tk (allTasks after) ->
                          (Z.of_nat (countAllSubs (decoded_tree tk)) < 2 ^ 32)%Z).
  { intros tk [<-|[<-|[]]]; vm_compute; reflexivity. }
  assert (H4 : Forall2 (fun a b => taskProg a <= taskProg b)%Z
                       (allTasks before) (allTasks after)).
  { repeat constructor; vm_compute; discriminate. }
  split; [exact H1|]. split; [exact H4|].
  split; [vm_compute; reflexivity|]. split; [vm_compute; reflexivity|].
  exact (goalProg_monotone before after W1 W2 H1 H2 H3 H4).
Defined.
(** ** The answers of [finalizePlan] *)

Lemma parse_value_bracket f r v rest :
  JSON.parse_value f ("["%char :: r) = Some (v, rest) ->
  exists items, v = JArr items.
Proof.
  destruct f as [|f]; [discriminate|].
  cbn [JSON.parse_value].
  change (JSON.skip_ws ("["%char :: r)) with ("["%char :: r).
  change (Ascii.eqb "[" dquote) with false.
  change (Ascii.eqb "[" "[") with true. cbv iota.
  destruct (JSON.skip_ws r) as [|c' r']; [discriminate|].
  destruct (Ascii.eqb c' "]").
  - intros [= <- _]. now exists [].
  - destruct (JSON.parse_elements f (c' :: r')) as [[vs r'']|]; [|discriminate].
    intros [= <- _]. now exists vs.
Qed.

Lemma parse_bracket m v :
  JSON.parse (text_of ("["%char :: m)) = Some v -> exists items, v = JArr items.
Proof.
  unfold JSON.parse, chars, text_of.
  rewrite list_ascii_of_string_of_list_ascii.
  destruct (JSON.parse_value _ _) as [[v' r]|] eqn:E; [|discriminate].
  destruct (JSON.skip_ws r); [|discriminate].
  intros [= <-]. eapply parse_value_bracket. exact E.
Qed.

Lemma match_bracketed_head cs m :
  match_bracketed cs = Some m -> exists m', m = "["%char :: m'.
Proof.
  induction cs as [|c cs IH]; [discriminate|]. cbn [match_bracketed].
  destruct (Ascii.eqb_spec c "[") as [->|_]; [|exact IH].
  destruct (upto_last_close cs) as [x|]; [|exact IH].
  intros [= <-]. now exists x.
Qed.

Lemma extractSchedule_array content :
  extractSchedule content = parse_failure \/
  exists items,
    extractSchedule content
    = mkResponse 200 (JObj [("schedule"%string, JArr items)]).
Proof.
  destruct (extractSchedule_cases content) as [H|[m [v [Hm [Hp H]]]]];
    [now left|right].
  destruct (match_bracketed_head _ _ Hm) as [m' ->].
  destruct (parse_bracket _ _ Hp) as [items ->].
  now exists items.
Qed.

(** X15.  What [finalizePlan] can answer.  The status is 400 exactly
    when the conversation history is missing or empty, and then the chat
    capability is not consulted; otherwise it is 200 or 500.  An answer
    of status 200 carries a [schedule] that is a JSON array, and only an
    answer of status 200 carries a [schedule] at all. *)
Theorem finalizePlan_answers
  (chatWithOllama : list Message -> string -> bool -> Outcome)
  (history : option (list Message)) :
  let answer := finalizePlan chatWithOllama history in
  (code answer = 400 <-> history = None \/ history = Some [])
  /\ (history = None \/ history = Some [] ->
      forall chat', finalizePlan chat' history = answer)
  /\ (code answer = 200 \/ code answer = 400 \/ code answer = 500)
  /\ (code answer = 200 ->
      exists items, body answer = JObj [("schedule"%string, JArr items)])
  /\ (prop (body answer) "schedule" <> None -> code answer = 200).
Proof.
  cbv zeta. unfold finalizePlan.
  destruct history as [[|x h]|].
  - split; [split; auto|]. split; [reflexivity|]. split; [auto|].
    split; [discriminate|]. intros H. now contradiction H.
  - destruct (chatWithOllama _ _ _) as [content|message].
    + assert (Hno : ~ (Some (x :: h) = None \/ Some (x :: h) = Some []))
        by (intros [E|E]; discriminate E).
      destruct (extractSchedule_array content) as [->|[items ->]];
        cbn [code body parse_failure].
      * split; [split; [discriminate | tauto]|]. split; [tauto|].
        split; [auto|]. split; [discriminate|].
        intros H. now contradiction H.
      * split; [split; [discriminate | tauto]|]. split; [tauto|].
        split; [auto|]. split; [|reflexivity].
        intros _. now exists items.
    + assert (Hno : ~ (Some (x :: h) = None \/ Some (x :: h) = Some []))
        by (intros [E|E]; discriminate E).
      cbn [code body].
      split; [split; [discriminate | tauto]|]. split; [tauto|].
      split; [auto|]. split; [discriminate|].
      intros H. now contradiction H.
  - split; [split; auto|]. split; [reflexivity|]. split; [auto|].
    split; [discriminate|]. intros H. now contradiction H.
Qed.

(** ** Days left to a due date *)

Module Ceiling.
Local Open Scope Z_scope.

Lemma binary_round_aux_negative mx ex lx M E :
  binary_round_aux 53 1024 false mx ex lx = S754_finite false M E ->
  binary_round_aux 53 1024 true mx ex lx = S754_finite true M E.
Proof.
  unfold binary_round_aux.
  destruct (shr_fexp 53 1024 mx ex lx) as [mrs' e'].
  destruct (shr_fexp 53 1024 _ e' loc_Exact) as [mrs'' e''].
  destruct (shr_m mrs'') as [|m|m]; try discriminate.
  destruct (e'' <=? 1024 - 53); [|discriminate].
  now intros [= <- <-].
Qed.

Lemma of_int_negative p M E :
  of_int (Zpos p) = S754_finite false M E ->
  of_int (Zneg p) = S754_finite true M E.
Proof.
  unfold of_int, binary_normalize, binary_round.
  destruct (shl_align p 0 _) as [mz ez]. apply binary_round_aux_negative.
Qed.

Lemma fdiv_negative p b M E :
  0 < b < 2 ^ 53 ->
  fdiv (of_int (Zpos p)) (of_int b) = S754_finite false M E ->
  Zpos p < 2 ^ 53 ->
  fdiv (of_int (Zneg p)) (of_int b) = S754_finite true M E.
Proof.
  intros Hb H Hp.
  destruct (Binary64.of_int_normal (Zpos p) ltac:(lia)) as [M1 [E1 [Ha _]]].
  destruct (Binary64.of_int_normal b Hb) as [M2 [E2 [Hbn _]]].
  rewrite (of_int_negative p M1 E1 Ha). rewrite Ha, Hbn in H. rewrite Hbn.
  unfold fdiv, SFdiv in *.
  destruct (SFdiv_core_binary 53 1024 (Zpos M1) E1 (Zpos M2) E2) as [[mz ez] lz].
  cbn [xorb] in *. now apply binary_round_aux_negative.
Qed.

(** [Math.ceil] of a number given in units of [2^-k]. *)
Lemma Math_ceil_units s M E N k :
  1 <= k -> - k <= E <= - k + 1 ->
  Zpos M * 2 ^ (E + k) = N ->
  Math_ceil (S754_finite s M E)
  = if s then - (N / 2 ^ k) else - ((- N) / 2 ^ k).
Proof.
  intros Hk HE HN. unfold Math_ceil.
  assert (Hpow : 0 < 2 ^ k) by (apply Z.pow_pos_nonneg; lia).
  destruct (Z.eq_dec E (- k)) as [->|Hne].
  - replace (- k + k) with 0 in HN by lia. rewrite Z.pow_0_r, Z.mul_1_r in HN.
    destruct k as [|q|q]; try lia. cbn [Z.opp].
    destruct s; subst N.
    + change (- Z.neg M) with (Zpos M). reflexivity.
    + change (- Zpos M) with (Z.neg M). reflexivity.
  - assert (E = - k + 1) by lia. subst E.
    replace (- k + 1 + k) with 1 in HN by lia. rewrite Z.pow_1_r in HN.
    destruct (Z.eq_dec k 1) as [->|Hk1].
    + cbn [Z.add Z.opp Z.pos_sub]. rewrite Z.pow_0_r, Z.mul_1_r.
      destruct s; subst N.
      * replace (Zpos M * 2) with (Zpos M * 2 ^ 1) by reflexivity.
        rewrite Z.div_mul by discriminate. reflexivity.
      * replace (- (Zpos M * 2)) with ((- Zpos M) * 2 ^ 1) by (rewrite Z.pow_1_r; ring).
        rewrite Z.div_mul by discriminate. ring.
    + assert (Hk2 : 2 <= k) by lia.
      destruct (- k + 1) as [|q|q] eqn:Eq; try lia.
      assert (Hq : Zpos q = k - 1) by lia. rewrite Hq.
      assert (Hsplit : 2 ^ k = 2 * 2 ^ (k - 1)).
      { rewrite <- Z.pow_succ_r by lia. f_equal. lia. }
      assert (Hpow' : 0 < 2 ^ (k - 1)) by (apply Z.pow_pos_nonneg; lia).
      destruct s; subst N.
      * change (- Z.neg M) with (Zpos M).
        rewrite Hsplit, Z.mul_comm, Z.div_mul_cancel_l by lia. reflexivity.
      * change (- Zpos M) with (Z.neg M).
        replace (- (Zpos M * 2)) with (2 * Z.neg M) by (change (Z.neg M) with (- Zpos M); ring).
        rewrite Hsplit, Z.div_mul_cancel_l by lia. reflexivity.
Qed.

(** The nearest multiple of [2^-k] to a quotient [a / b] lies between the
    same two integers as the quotient, when [2^-k] is below [2 / b]. *)
Lemma nearest_ceiling a b N k :
  0 < a -> 0 < b -> 0 <= k -> b < 2 * 2 ^ k ->
  2 * Z.abs (N * b - a * 2 ^ k) <= b ->
  - ((- N) / 2 ^ k) = - ((- a) / b).
Proof.
  intros Ha Hb Hk Hfine Hnear.
  assert (Hpow : 0 < 2 ^ k) by (apply Z.pow_pos_nonneg; lia).
  set (q := - ((- a) / b)).
  assert (Hq : (q - 1) * b < a <= q * b).
  { unfold q. pose proof (Z.div_mod (- a) b ltac:(lia)) as D.
    pose proof (Z.mod_pos_bound (- a) b Hb) as R. nia. }
  clearbody q.
  assert (Hup : N <= q * 2 ^ k).
  { destruct (Z.le_gt_cases N (q * 2 ^ k)) as [|Hgt]; [assumption|exfalso].
    assert (b <= (N - q * 2 ^ k) * b) by nia.
    assert (a * 2 ^ k <= q * b * 2 ^ k) by nia. lia. }
  assert (Hlow : (q - 1) * 2 ^ k < N).
  { destruct (Z.lt_ge_cases ((q - 1) * 2 ^ k) N) as [|Hle]; [assumption|exfalso].
    assert (N * b <= (q - 1) * 2 ^ k * b) by nia.
    assert (((q - 1) * b + 1) * 2 ^ k <= a * 2 ^ k) by nia. lia. }
  assert (E : (- N) / 2 ^ k = - q).
  { symmetry. apply Z.div_unique with (r := - N - (- q) * 2 ^ k); lia. }
  lia.
Qed.

Lemma nearest_floor a b N k :
  0 < a -> 0 < b -> 0 <= k -> b < 2 * 2 ^ k ->
  2 * Z.abs (N * b - a * 2 ^ k) <= b ->
  N / 2 ^ k = a / b.
Proof.
  intros Ha Hb Hk Hfine Hnear.
  assert (Hpow : 0 < 2 ^ k) by (apply Z.pow_pos_nonneg; lia).
  set (p := a / b).
  assert (Hp : p * b <= a < (p + 1) * b).
  { unfold p. pose proof (Z.div_mod a b ltac:(lia)) as D.
    pose proof (Z.mod_pos_bound a b Hb) as R. nia. }
  clearbody p.
  assert (Hlow : p * 2 ^ k <= N).
  { destruct (Z.le_gt_cases (p * 2 ^ k) N) as [|Hgt]; [assumption|exfalso].
    assert (b <= (p * 2 ^ k - N) * b) by nia.
    assert (p * b * 2 ^ k <= a * 2 ^ k) by nia. lia. }
  assert (Hup : N < (p + 1) * 2 ^ k).
  { destruct (Z.lt_ge_cases N ((p + 1) * 2 ^ k)) as [|Hle]; [assumption|exfalso].
    assert ((p + 1) * 2 ^ k * b <= N * b) by nia.
    assert (a * 2 ^ k <= ((p + 1) * b - 1) * 2 ^ k) by nia. lia. }
  symmetry. apply Z.div_unique with (r := N - p * 2 ^ k); lia.
Qed.

End Ceiling.

Module DaysLeft.
Local Open Scope Z_scope.

(** The quotient of a whole number of milliseconds by the milliseconds
    of a day, as [Math.ceil] sees it. *)
Lemma day_units a :
  0 < a < 2 ^ 53 ->
  exists M E N k,
    fdiv (of_int a) (of_int 86400000) = S754_finite false M E /\
    1 <= k /\ - k <= E <= - k + 1 /\ Zpos M * 2 ^ (E + k) = N /\
    86400000 < 2 * 2 ^ k /\
    2 * Z.abs (N * 86400000 - a * 2 ^ k) <= 86400000.
Proof.
  intros Ha.
  destruct (Binary64.fdiv_of_int a 86400000 Ha ltac:(split; reflexivity))
    as [M [E [N [k [Hd [HM [Hk [HE [HN Hnear]]]]]]]]].
  exists M, E, N, k.
  assert (Hpow : 0 < 2 ^ k) by (apply Z.pow_pos_nonneg; lia).
  assert (HNM : 2 ^ 52 <= N).
  { rewrite <- HN. destruct (Z.eq_dec E (- k)) as [->|].
    - replace (- k + k) with 0 by lia. rewrite Z.pow_0_r. lia.
    - replace (E + k) with 1 by lia. rewrite Z.pow_1_r. lia. }
  change (2 ^ 52) with 4503599627370496 in HNM.
  change (2 ^ 53) with 9007199254740992 in Ha.
  assert (Hbig : 86400000 <= 2 * 2 ^ k).
  { destruct (Z.le_gt_cases 86400000 (2 * 2 ^ k)) as [|Hlt]; [assumption|exfalso].
    assert (4503599627370496 * 86400000 <= N * 86400000) by lia.
    assert (a * 2 ^ k <= 9007199254740991 * 2 ^ k) by nia.
    lia. }
  assert (Hk27 : 27 <= k + 1).
  { destruct (Z.le_gt_cases 27 (k + 1)) as [|Hlt]; [assumption|exfalso].
    assert (2 ^ (k + 1) <= 2 ^ 26) by (apply Z.pow_le_mono_r; lia).
    rewrite Z.pow_add_r, Z.pow_1_r in H by lia.
    change (2 ^ 26) with 67108864 in H. lia. }
  assert (Hfine : 86400000 < 2 * 2 ^ k).
  { assert (2 ^ 27 <= 2 ^ (k + 1)) by (apply Z.pow_le_mono_r; lia).
    rewrite Z.pow_add_r, Z.pow_1_r in H by lia.
    change (2 ^ 27) with 134217728 in H. lia. }
  repeat split; try assumption; lia.
Qed.

Lemma ceil_days a :
  Z.abs a < 2 ^ 53 ->
  Math_ceil (fdiv (of_int a) (of_int 86400000)) = - ((- a) / 86400000).
Proof.
  intros Ha. destruct a as [|p|p].
  - reflexivity.
  - destruct (day_units (Zpos p) ltac:(lia))
      as [M [E [N [k [Hd [Hk [HE [HN [Hfine Hnear]]]]]]]]].
    rewrite Hd, (Ceiling.Math_ceil_units false M E N k Hk HE HN).
    apply Ceiling.nearest_ceiling; lia.
  - destruct (day_units (Zpos p) ltac:(lia))
      as [M [E [N [k [Hd [Hk [HE [HN [Hfine Hnear]]]]]]]]].
    rewrite (Ceiling.fdiv_negative p 86400000 M E ltac:(split; reflexivity) Hd ltac:(lia)).
    rewrite (Ceiling.Math_ceil_units true M E N k Hk HE HN).
    change (- Z.neg p) with (Zpos p). f_equal.
    apply Ceiling.nearest_floor; lia.
Qed.

End DaysLeft.

(** X16.  [daysLeft] counts whole days, rounded up.  For a due date
    with a valid time value less than 2^53 milliseconds from now, the
    result is the number [n] with [n - 1] days < time left <= [n] days:
    the floating-point division loses nothing.  So the count is negative,
    and the task shown as overdue, only once a full day has passed since
    the due time; a task due within the last 24 hours has 0 days left. *)
Theorem daysLeft_whole_days (timeValue : string -> option Z) (now : Z)
  (d : string) (t : Z) :
  d <> ""%string -> timeValue d = Some t -> (Z.abs (t - now) < 2 ^ 53)%Z ->
  exists n,
    daysLeft timeValue now (Some d) = DaysCount n
    /\ (86400000 * (n - 1) < t - now <= 86400000 * n)%Z
    /\ (n < 0 <-> t - now <= - 86400000)%Z.
Proof.
  intros Hd Ht Hnear.
  exists (- ((- (t - now)) / 86400000))%Z.
  unfold daysLeft. apply String.eqb_neq in Hd. rewrite Hd, Ht.
  rewrite (DaysLeft.ceil_days (t - now) Hnear).
  pose proof (Z.div_mod (- (t - now)) 86400000 ltac:(lia)) as D.
  pose proof (Z.mod_pos_bound (- (t - now)) 86400000 ltac:(lia)) as R.
  split; [reflexivity|]. split; lia.
Qed.

(** Due at midnight, seen at noon the day before, one minute after the
    due time, and a day and a minute after it. *)
Lemma daysLeft_whole_days_witness :
  let timeValue := fun _ : string => Some 1767225600000%Z in
  let due := "2026-01-01T00:00:00.000Z"%string in
  (due <> ""%string /\ timeValue due = Some 1767225600000%Z /\
   (Z.abs (1767225600000 - 1767182400000) < 2 ^ 53)%Z) /\
  daysLeft timeValue 1767182400000 (Some due) = DaysCount 1 /\
  daysLeft timeValue 1767225660000 (Some due) = DaysCount 0 /\
  daysLeft timeValue 1767312060000 (Some due) = DaysCount (-1) /\
  exists n, daysLeft timeValue 1767182400000 (Some due) = DaysCount n /\
            (n < 0 <-> 1767225600000 - 1767182400000 <= - 86400000)%Z.
Proof.
  intros timeValue due.
  assert (H1 : due <> ""%string) by discriminate.
  assert (H2 : timeValue due = Some 1767225600000%Z) by reflexivity.
  assert (H3 : (Z.abs (1767225600000 - 1767182400000) < 2 ^ 53)%Z) by reflexivity.
  split; [split; [exact H1 | split; [exact H2 | exact H3]]|].
  split; [vm_compute; reflexivity|]. split; [vm_compute; reflexivity|].
  split; [vm_compute; reflexivity|].
  destruct (daysLeft_whole_days timeValue 1767182400000 due 1767225600000 H1 H2 H3)
    as [n [E [_ Hn]]].
  exists n. split; [exact E | exact Hn].
Defined.

